(** * xv6 process management (proc.c): a shallow embedding

    The process table, its lifecycle operations (allocproc, fork, exit,
    wait, kill, clone, join), the sleep/wakeup rendezvous, the lottery
    scheduler and the ticket lock of [src/xv6/proc.c].

    Conventions of the embedding:
    - a C [int]/[long] (32 bits on i386) is a [Z] kept in range by [to_int];
      a [uint] is a [Z] kept in range by [to_uint];
    - a [struct proc *] is [option nat]: the index of the slot in
      [ptable.proc], [None] for the null pointer;
    - a [void *] used as a sleep channel is a [wchan];
    - collaborators outside proc.c (kalloc, copyuvm, copyout, swtch,
      random_at_most) are inputs of the operation that calls them, and the
      calls that release or duplicate a resource are recorded in a trace;
    - [ptable.lock] serialises the critical sections; the embedding gives
      the table transition each critical section performs;
    - the calling process, [myproc()] in the source, is the argument [cur]
      of an operation.

    Of the functions of proc.c only pinit, which initialises
    [ptable.lock], has no counterpart here. *)

From stdpp Require Import base numbers list gmap strings.

Local Open Scope Z_scope.

(** ** Machine integers *)

(** Conversion to [uint]: reduction modulo 2^32. *)
Definition to_uint (x : Z) : Z := x mod 2 ^ 32.

(** Conversion to [int] (and [long]): two's complement on 32 bits. *)
Definition to_int (x : Z) : Z := (x + 2 ^ 31) mod 2 ^ 32 - 2 ^ 31.

Definition INT_MAX : Z := 2 ^ 31 - 1.
Definition INT_MIN : Z := - 2 ^ 31.

Definition in_int (x : Z) : Prop := INT_MIN ≤ x ≤ INT_MAX.

(** [PGSIZE] comes from mmu.h, outside proc.c; xv6 fixes the page size
    at 4096 bytes. *)
Definition PGSIZE : Z := 4096.

Module Proc.

(** ** Data model *)

(** [enum procstate], in declaration order. *)
Inductive procstate : Set :=
  UNUSED | EMBRYO | SLEEPING | RUNNABLE | RUNNING | ZOMBIE.

#[global] Instance procstate_eq_dec : EqDecision procstate.
Proof. solve_decision. Defined.

(** A sleep channel: the null pointer, the address of a slot of the
    process table, or any other kernel address. *)
Inductive wchan : Set :=
  | CNull
  | CProc (i : nat)
  | CAddr (a : Z).

#[global] Instance wchan_eq_dec : EqDecision wchan.
Proof. solve_decision. Defined.

(** The cast of a [struct proc *] to [void *]. *)
Definition chan_of (p : option nat) : wchan :=
  match p with
  | Some i => CProc i
  | None => CNull
  end.

(** The registers of [struct trapframe] that proc.c writes one by one;
    [tf_rest] stands for the remaining fields, copied as a block. *)
Record trapframe : Set := mkTf {
  eax : Z;
  esp : Z;
  ebp : Z;
  eip : Z;
  tf_rest : list Z
}.

#[global] Instance trapframe_eq_dec : EqDecision trapframe.
Proof. solve_decision. Defined.

(** What [p->context->eip] designates. *)
Inductive kentry : Set := NoEntry | Forkret.

#[global] Instance kentry_eq_dec : EqDecision kentry.
Proof. solve_decision. Defined.

(** [struct proc]. Pointers to collaborator objects ([pgdir], [kstack],
    [ofile], [cwd], [threadstack]) are handles, 0 being the null pointer. *)
Record proc : Type := mkProc {
  sz : Z;
  pgdir : Z;
  kstack : Z;
  state : procstate;
  pid : Z;
  parent : option nat;
  tf : trapframe;
  context : kentry;
  chan : wchan;
  killed : Z;
  ofile : list Z;
  cwd : Z;
  name : string;
  tickets : Z;
  ticks : Z;
  threadstack : Z
}.

#[global] Instance proc_eq_dec : EqDecision proc.
Proof. solve_decision. Defined.

(** [NOFILE] comes from param.h, outside proc.c; xv6 gives a process 16
    open-file slots. *)
Definition NOFILE : nat := 16.

(** A slot as the loader leaves it (zeroed memory). *)
Definition proc0 : proc :=
  mkProc 0 0 0 UNUSED 0 None (mkTf 0 0 0 0 []) NoEntry CNull 0
         (replicate NOFILE 0) 0 EmptyString 0 0 0.

(** Field assignments [p->f = v]. *)
Definition set_sz (v : Z) (p : proc) : proc :=
  mkProc v (pgdir p) (kstack p) (state p) (pid p) (parent p) (tf p)
         (context p) (chan p) (killed p) (ofile p) (cwd p) (name p)
         (tickets p) (ticks p) (threadstack p).
Definition set_pgdir (v : Z) (p : proc) : proc :=
  mkProc (sz p) v (kstack p) (state p) (pid p) (parent p) (tf p)
         (context p) (chan p) (killed p) (ofile p) (cwd p) (name p)
         (tickets p) (ticks p) (threadstack p).
Definition set_kstack (v : Z) (p : proc) : proc :=
  mkProc (sz p) (pgdir p) v (state p) (pid p) (parent p) (tf p)
         (context p) (chan p) (killed p) (ofile p) (cwd p) (name p)
         (tickets p) (ticks p) (threadstack p).
Definition set_state (v : procstate) (p : proc) : proc :=
  mkProc (sz p) (pgdir p) (kstack p) v (pid p) (parent p) (tf p)
         (context p) (chan p) (killed p) (ofile p) (cwd p) (name p)
         (tickets p) (ticks p) (threadstack p).
Definition set_pid (v : Z) (p : proc) : proc :=
  mkProc (sz p) (pgdir p) (kstack p) (state p) v (parent p) (tf p)
         (context p) (chan p) (killed p) (ofile p) (cwd p) (name p)
         (tickets p) (ticks p) (threadstack p).
Definition set_parent (v : option nat) (p : proc) : proc :=
  mkProc (sz p) (pgdir p) (kstack p) (state p) (pid p) v (tf p)
         (context p) (chan p) (killed p) (ofile p) (cwd p) (name p)
         (tickets p) (ticks p) (threadstack p).
Definition set_tf (v : trapframe) (p : proc) : proc :=
  mkProc (sz p) (pgdir p) (kstack p) (state p) (pid p) (parent p) v
         (context p) (chan p) (killed p) (ofile p) (cwd p) (name p)
         (tickets p) (ticks p) (threadstack p).
Definition set_context (v : kentry) (p : proc) : proc :=
  mkProc (sz p) (pgdir p) (kstack p) (state p) (pid p) (parent p) (tf p)
         v (chan p) (killed p) (ofile p) (cwd p) (name p)
         (tickets p) (ticks p) (threadstack p).
Definition set_chan (v : wchan) (p : proc) : proc :=
  mkProc (sz p) (pgdir p) (kstack p) (state p) (pid p) (parent p) (tf p)
         (context p) v (killed p) (ofile p) (cwd p) (name p)
         (tickets p) (ticks p) (threadstack p).
Definition set_killed (v : Z) (p : proc) : proc :=
  mkProc (sz p) (pgdir p) (kstack p) (state p) (pid p) (parent p) (tf p)
         (context p) (chan p) v (ofile p) (cwd p) (name p)
         (tickets p) (ticks p) (threadstack p).
Definition set_ofile (v : list Z) (p : proc) : proc :=
  mkProc (sz p) (pgdir p) (kstack p) (state p) (pid p) (parent p) (tf p)
         (context p) (chan p) (killed p) v (cwd p) (name p)
         (tickets p) (ticks p) (threadstack p).
Definition set_cwd (v : Z) (p : proc) : proc :=
  mkProc (sz p) (pgdir p) (kstack p) (state p) (pid p) (parent p) (tf p)
         (context p) (chan p) (killed p) (ofile p) v (name p)
         (tickets p) (ticks p) (threadstack p).
Definition set_name (v : string) (p : proc) : proc :=
  mkProc (sz p) (pgdir p) (kstack p) (state p) (pid p) (parent p) (tf p)
         (context p) (chan p) (killed p) (ofile p) (cwd p) v
         (tickets p) (ticks p) (threadstack p).
Definition set_tickets (v : Z) (p : proc) : proc :=
  mkProc (sz p) (pgdir p) (kstack p) (state p) (pid p) (parent p) (tf p)
         (context p) (chan p) (killed p) (ofile p) (cwd p) (name p)
         v (ticks p) (threadstack p).
Definition set_ticks (v : Z) (p : proc) : proc :=
  mkProc (sz p) (pgdir p) (kstack p) (state p) (pid p) (parent p) (tf p)
         (context p) (chan p) (killed p) (ofile p) (cwd p) (name p)
         (tickets p) v (threadstack p).
Definition set_threadstack (v : Z) (p : proc) : proc :=
  mkProc (sz p) (pgdir p) (kstack p) (state p) (pid p) (parent p) (tf p)
         (context p) (chan p) (killed p) (ofile p) (cwd p) (name p)
         (tickets p) (ticks p) v.

Definition set_eax (v : Z) (t : trapframe) : trapframe :=
  mkTf v (esp t) (ebp t) (eip t) (tf_rest t).
Definition set_esp (v : Z) (t : trapframe) : trapframe :=
  mkTf (eax t) v (ebp t) (eip t) (tf_rest t).
Definition set_ebp (v : Z) (t : trapframe) : trapframe :=
  mkTf (eax t) (esp t) v (eip t) (tf_rest t).
Definition set_eip (v : Z) (t : trapframe) : trapframe :=
  mkTf (eax t) (esp t) (ebp t) v (tf_rest t).

(** Calls to collaborators that release or duplicate a resource. *)
Inductive event : Set :=
  | EKfree (k : Z)
  | EFreevm (pg : Z)
  | EFileclose (f : Z)
  | EFiledup (f : Z)
  | EIput (ip : Z)
  | EIdup (ip : Z).

#[global] Instance event_eq_dec : EqDecision event.
Proof. solve_decision. Defined.

(** The kernel state proc.c works on: [ptable.proc], [nextpid],
    [initproc], user memory (a word per address space and virtual
    address) and the trace of collaborator calls, oldest first. *)
Record kstate : Type := mkK {
  ptable : list proc;
  nextpid : Z;
  initproc : option nat;
  umem : gmap (Z * Z) Z;
  trace : list event
}.

Definition set_ptable (t : list proc) (s : kstate) : kstate :=
  mkK t (nextpid s) (initproc s) (umem s) (trace s).
Definition set_nextpid (v : Z) (s : kstate) : kstate :=
  mkK (ptable s) v (initproc s) (umem s) (trace s).
Definition set_umem (m : gmap (Z * Z) Z) (s : kstate) : kstate :=
  mkK (ptable s) (nextpid s) (initproc s) m (trace s).
Definition emit (es : list event) (s : kstate) : kstate :=
  mkK (ptable s) (nextpid s) (initproc s) (umem s) (trace s ++ es).

(** [ptable.proc[i]]; the zeroed slot stands for an index outside the
    table, which no caller produces. *)
Definition slot (i : nat) (t : list proc) : proc := default proc0 (t !! i).

(** [ptable.proc[i].f = v] for the assignment [f]. *)
Definition upd (i : nat) (f : proc → proc) (s : kstate) : kstate :=
  set_ptable (alter f i (ptable s)) s.

(** How a kernel entry point leaves the calling process. *)
Inductive outcome (A : Type) : Type :=
  | Return (v : A) (s : kstate)
  | Panic (msg : string)
  | Descheduled (s : kstate).
Arguments Return {A} v s.
Arguments Panic {A} msg.
Arguments Descheduled {A} s.

(** ** Sleep and wakeup *)

(** [wakeup1]: every SLEEPING record on [c] becomes RUNNABLE. *)
Definition wake (c : wchan) (p : proc) : proc :=
  if decide (state p = SLEEPING ∧ chan p = c)
  then set_state RUNNABLE p else p.

Definition wakeup1 (c : wchan) (t : list proc) : list proc := wake c <$> t.

Definition wakeup (c : wchan) (s : kstate) : kstate :=
  set_ptable (wakeup1 c (ptable s)) s.

(** ** kill *)

Definition kill_mark (p : proc) : proc :=
  let p1 := set_killed 1 p in
  if decide (state p1 = SLEEPING) then set_state RUNNABLE p1 else p1.

Definition kill (pid0 : Z) (s : kstate) : Z * kstate :=
  match list_find (λ p, pid p = pid0) (ptable s) with
  | Some (i, _) => (0, upd i kill_mark s)
  | None => (-1, s)
  end.

(** ** Ticket accounting *)

Definition settickets (tks : Z) (cur : nat) (s : kstate) : Z * kstate :=
  if decide (tks < 1) then (-1, s)
  else (0, upd cur (set_tickets tks) s).

(** [struct pstat] as filled by [getpinfo]: one row per slot. *)
Record pstat_row : Set := mkRow {
  ps_pid : Z;
  ps_inuse : Z;
  ps_tickets : Z;
  ps_ticks : Z
}.

Definition pstat_of (p : proc) : pstat_row :=
  mkRow (pid p) (if decide (state p = UNUSED) then 0 else 1)
        (tickets p) (ticks p).

Definition getpinfo (s : kstate) : Z * list pstat_row :=
  (0, pstat_of <$> ptable s).

(** [ptable.proc[i].f = e] where [e] is read from the current state. *)
Definition assign (i : nat) (f : kstate → proc → proc) (s : kstate) : kstate :=
  upd i (f s) s.

(** ** Allocation *)

(** [allocproc]. [kalloc] is what the page allocator answers, 0 when it
    has no page. The result is the slot taken, [None] for the null
    pointer. The trap frame and the context live inside the fresh kernel
    stack; the record keeps their contents, and the contents of a fresh
    trap frame are whatever the record held. *)
Definition allocproc (kalloc : Z) (s : kstate) : option nat * kstate :=
  match list_find (λ p, state p = UNUSED) (ptable s) with
  | None => (None, s)
  | Some (i, _) =>
      let s1 := upd i (set_state EMBRYO) s in
      let s2 := set_nextpid (to_int (nextpid s1 + 1))
                  (upd i (set_pid (nextpid s1)) s1) in
      let s3 := upd i (set_ticks 0) (upd i (set_tickets 1) s2) in
      let s4 := upd i (set_kstack kalloc) s3 in
      if decide (kalloc = 0)
      then (None, upd i (set_state UNUSED) s4)
      else (Some i, upd i (set_context Forkret) s4)
  end.

(** The loop [if(curproc->ofile[i]) np->ofile[i] = filedup(curproc->ofile[i])]
    over the two descriptor arrays. *)
Fixpoint dup_files (from to : list Z) : list Z :=
  match from, to with
  | f :: from', g :: to' =>
      (if decide (f = 0) then g else f) :: dup_files from' to'
  | _, _ => to
  end.

Definition open_files (l : list Z) : list Z := filter (λ f, f ≠ 0) l.

(** The part fork and clone share: duplicate the descriptors and the
    working directory, copy the name. *)
Definition inherit_files (np cur : nat) (s : kstate) : kstate :=
  let s1 := emit (EFiledup <$> open_files (ofile (slot cur (ptable s))))
              (assign np (λ s' p,
                 set_ofile (dup_files (ofile (slot cur (ptable s'))) (ofile p)) p) s) in
  let s2 := emit [EIdup (cwd (slot cur (ptable s1)))]
              (assign np (λ s', set_cwd (cwd (slot cur (ptable s')))) s1) in
  assign np (λ s', set_name (name (slot cur (ptable s')))) s2.

(** ** fork *)

(** [fork]. [copyuvm] is the page directory the collaborator built, 0
    when it failed. *)
Definition fork (kalloc copyuvm : Z) (cur : nat) (s : kstate) : Z * kstate :=
  match allocproc kalloc s with
  | (None, s1) => (-1, s1)
  | (Some np, s1) =>
      let s2 := upd np (set_pgdir copyuvm) s1 in
      if decide (copyuvm = 0) then
        let s3 := emit [EKfree (kstack (slot np (ptable s2)))] s2 in
        (-1, upd np (set_state UNUSED) (upd np (set_kstack 0) s3))
      else
        let s3 := assign np (λ s', set_tickets (tickets (slot cur (ptable s')))) s2 in
        let s4 := assign np (λ s', set_sz (sz (slot cur (ptable s')))) s3 in
        let s5 := upd np (set_parent (Some cur)) s4 in
        let s6 := assign np (λ s', set_tf (tf (slot cur (ptable s')))) s5 in
        let s7 := upd np (λ p, set_tf (set_eax 0 (tf p)) p) s6 in
        let s8 := inherit_files np cur s7 in
        let pid0 := pid (slot np (ptable s8)) in
        (pid0, upd np (set_state RUNNABLE) s8)
  end.

(** ** clone *)

(** [copyout] of the three words of [user_stack] to [va] in the address
    space [pg]. *)
Definition copyout3 (pg va w0 w1 w2 : Z) (m : gmap (Z * Z) Z) : gmap (Z * Z) Z :=
  <[(pg, va + 8) := w2]> (<[(pg, va + 4) := w1]> (<[(pg, va) := w0]> m)).

(** [clone]. Pointers arrive as the [uint] they are cast to. [copyout_ok]
    tells whether the collaborator could write the frame (it cannot when
    the page is not mapped for the user). *)
Definition clone (kalloc : Z) (copyout_ok : bool) (fcn arg1 arg2 stack : Z)
    (cur : nat) (s : kstate) : Z * kstate :=
  if decide (to_uint stack mod PGSIZE ≠ 0) then (-1, s)
  else if decide (sz (slot cur (ptable s)) < to_uint (PGSIZE + to_uint stack))
  then (-1, s)
  else
    match allocproc kalloc s with
    | (None, s1) => (-1, s1)
    | (Some np, s1) =>
        let s2 := assign np (λ s', set_pgdir (pgdir (slot cur (ptable s')))) s1 in
        let s3 := assign np (λ s', set_sz (sz (slot cur (ptable s')))) s2 in
        let s4 := upd np (set_parent (Some cur)) s3 in
        let s5 := assign np (λ s', set_tf (tf (slot cur (ptable s')))) s4 in
        let stack_top := to_uint (to_uint (to_uint stack + PGSIZE) - 12) in
        if negb copyout_ok then (-1, s5)
        else
          let s6 := set_umem (copyout3 (pgdir (slot np (ptable s5))) stack_top
                                (to_uint (-1)) (to_uint arg1) (to_uint arg2)
                                (umem s5)) s5 in
          let s7 := upd np (λ p, set_tf (set_esp (to_uint stack) (tf p)) p) s6 in
          let s8 := upd np (λ p, set_tf (set_eax 0 (tf p)) p) s7 in
          let s9 := upd np (set_threadstack stack) s8 in
          let s10 := upd np (λ p, set_tf (set_ebp stack_top (tf p)) p) s9 in
          let s11 := upd np (λ p, set_tf (set_esp stack_top (tf p)) p) s10 in
          let s12 := upd np (λ p, set_tf (set_eip (to_uint fcn) (tf p)) p) s11 in
          let s13 := upd np (λ p, set_tf (set_eax 0 (tf p)) p) s12 in
          let s14 := inherit_files np cur s13 in
          let s15 := upd np (set_state RUNNABLE) s14 in
          (pid (slot np (ptable s15)), s15)
    end.

(** ** Hand-off to the scheduler *)

(** [sched]. [swtch] is the collaborator that switches to the scheduler:
    it answers the state in which the caller is dispatched again, or
    [None] when that never happens. [k] is the rest of the caller. The
    checks on the lock depth and the interrupt flag concern the per-CPU
    record kept by the spinlock code and are not part of this table;
    [Percpu.sched] has them. *)
Definition sched {A : Type} (swtch : kstate → option kstate) (cur : nat)
    (s : kstate) (k : kstate → outcome A) : outcome A :=
  if decide (state (slot cur (ptable s)) = RUNNING) then Panic "sched running"
  else match swtch s with
       | Some s' => k s'
       | None => Descheduled s
       end.

Definition yield (swtch : kstate → option kstate) (cur : nat) (s : kstate)
    : outcome unit :=
  sched swtch cur (upd cur (set_state RUNNABLE) s) (λ s', Return tt s').

(** [sleep] with [lk] the table lock, and [ticket_sleep]: the two differ
    only in who takes the table lock. The caller is a process and passes a
    lock, so the two panics at the head of [sleep] do not arise. *)
Definition sleep {A : Type} (swtch : kstate → option kstate) (cur : nat)
    (c : wchan) (s : kstate) (k : kstate → outcome A) : outcome A :=
  let s1 := upd cur (set_chan c) s in
  let s2 := upd cur (set_state SLEEPING) s1 in
  sched swtch cur s2 (λ s', k (upd cur (set_chan CNull) s')).

(** ** wait *)

(** One scan of the table by [wait]: the first ZOMBIE child if there is
    one, and [havekids]. *)
Fixpoint wait_scan (cur : nat) (t : list proc) (i : nat) (havekids : bool)
    : option nat * bool :=
  match t with
  | [] => (None, havekids)
  | p :: t' =>
      if decide (parent p ≠ Some cur) then wait_scan cur t' (S i) havekids
      else if decide (state p = ZOMBIE) then (Some i, true)
      else wait_scan cur t' (S i) true
  end.

(** The body of [if(p->state == ZOMBIE)] in [wait]. *)
Definition wait_reap (i : nat) (s : kstate) : Z * kstate :=
  let pid0 := pid (slot i (ptable s)) in
  let s1 := upd i (set_kstack 0) (emit [EKfree (kstack (slot i (ptable s)))] s) in
  let s2 := emit [EFreevm (pgdir (slot i (ptable s1)))] s1 in
  let s3 := upd i (set_parent None) (upd i (set_pid 0) s2) in
  let s4 := upd i (set_killed 0) (upd i (set_name EmptyString) s3) in
  (pid0, upd i (set_state UNUSED) s4).

(** [wait]. [fuel] bounds the number of times the caller goes back to
    sleep. *)
Fixpoint wait (swtch : kstate → option kstate) (fuel : nat) (cur : nat)
    (s : kstate) : outcome Z :=
  match wait_scan cur (ptable s) 0 false with
  | (Some i, _) => let '(pid0, s') := wait_reap i s in Return pid0 s'
  | (None, havekids) =>
      if decide (havekids = false ∨ killed (slot cur (ptable s)) ≠ 0)
      then Return (-1) s
      else sleep swtch cur (CProc cur) s
             (λ s', match fuel with
                    | O => Descheduled s'
                    | S fuel' => wait swtch fuel' cur s'
                    end)
  end.

(** ** join *)

(** One scan of the table by [join]; [pg] is [curproc->pgdir], which is
    what [p->parent->pgdir] reads once [p->parent == curproc]. *)
Fixpoint join_scan (cur : nat) (pg : Z) (t : list proc) (i : nat)
    (havethreads : bool) : option nat * bool :=
  match t with
  | [] => (None, havethreads)
  | p :: t' =>
      if decide (parent p ≠ Some cur ∨ pgdir p ≠ pg)
      then join_scan cur pg t' (S i) havethreads
      else if decide (state p = ZOMBIE) then (Some i, true)
      else join_scan cur pg t' (S i) true
  end.

(** The body of [if(p->state == ZOMBIE)] in [join]. [stack] is the
    parameter of [join], a pointer to the caller's cell. The statement
    [stack = p->threadstack] assigns the parameter; the second component
    of the result is its final value. No store goes through it. *)
Definition join_reap (stack : Z) (i : nat) (s : kstate) : Z * Z * kstate :=
  let pid0 := pid (slot i (ptable s)) in
  let s1 := upd i (set_kstack 0) (emit [EKfree (kstack (slot i (ptable s)))] s) in
  let s2 := upd i (set_parent None) (upd i (set_pid 0) s1) in
  let s3 := upd i (set_killed 0) (upd i (set_name EmptyString) s2) in
  let s4 := upd i (set_state UNUSED) s3 in
  let stack' := threadstack (slot i (ptable s4)) in
  (pid0, stack', upd i (set_threadstack 0) s4).

Fixpoint join (swtch : kstate → option kstate) (fuel : nat) (stack : Z)
    (cur : nat) (s : kstate) : outcome Z :=
  match join_scan cur (pgdir (slot cur (ptable s))) (ptable s) 0 false with
  | (Some i, _) => let '(pid0, _, s') := join_reap stack i s in Return pid0 s'
  | (None, havethreads) =>
      if decide (havethreads = false ∨ killed (slot cur (ptable s)) ≠ 0)
      then Return (-1) s
      else sleep swtch cur (CProc cur) s
             (λ s', match fuel with
                    | O => Descheduled s'
                    | S fuel' => join swtch fuel' stack cur s'
                    end)
  end.

(** ** exit *)

(** The loop that passes abandoned children to init, from slot [i] on,
    [n] slots to go. *)
Fixpoint exit_reparent (n i cur : nat) (init : option nat) (t : list proc)
    : list proc :=
  match n with
  | O => t
  | S n' =>
      let t' :=
        if decide (parent (slot i t) = Some cur) then
          let t1 := alter (set_parent init) i t in
          if decide (state (slot i t1) = ZOMBIE)
          then wakeup1 (chan_of init) t1 else t1
        else t in
      exit_reparent n' (S i) cur init t'
  end.

Definition exit (swtch : kstate → option kstate) (cur : nat) (s : kstate)
    : outcome unit :=
  if decide (Some cur = initproc s) then Panic "init exiting"
  else
    let s1 := upd cur (λ p, set_ofile ((λ _, 0) <$> ofile p) p)
                (emit (EFileclose <$> open_files (ofile (slot cur (ptable s)))) s) in
    let s2 := upd cur (set_cwd 0) (emit [EIput (cwd (slot cur (ptable s1)))] s1) in
    let s3 := wakeup (chan_of (parent (slot cur (ptable s2)))) s2 in
    let s4 := set_ptable
                (exit_reparent (length (ptable s3)) 0 cur (initproc s3) (ptable s3))
                s3 in
    let s5 := upd cur (set_state ZOMBIE) s4 in
    sched swtch cur s5 (λ _, Panic "zombie exit").

(** ** Lottery scheduler *)

(** [tickets_sum], from an initial [ticketsTotal]. *)
Fixpoint tickets_sum_from (t : list proc) (ticketsTotal : Z) : Z :=
  match t with
  | [] => ticketsTotal
  | p :: t' =>
      tickets_sum_from t'
        (if decide (state p = RUNNABLE) then to_int (ticketsTotal + tickets p)
         else ticketsTotal)
  end.

Definition tickets_sum (t : list proc) : Z := tickets_sum_from t 0.

(** The inner loop of [scheduler] up to the choice of a process: the
    slot chosen for [winner], [None] when the loop runs off the table. *)
Fixpoint scheduler_scan (winner : Z) (t : list proc) (i : nat) (counter : Z)
    : option nat :=
  match t with
  | [] => None
  | p :: t' =>
      if decide (state p ≠ RUNNABLE) then scheduler_scan winner t' (S i) counter
      else
        let counter' := to_int (counter + tickets p) in
        if decide (counter' < winner) then scheduler_scan winner t' (S i) counter'
        else Some i
  end.

(** One iteration of the outer loop of [scheduler]. [random_at_most] is
    the collaborator of rand.h; [run i] is [swtch] into process [i], up to
    the moment it switches back. The result names the process dispatched. *)
Definition scheduler_pass (random_at_most : Z → Z)
    (run : nat → kstate → kstate) (s : kstate) : option nat * kstate :=
  let total_tickets := tickets_sum (ptable s) in
  let winner := random_at_most total_tickets in
  match scheduler_scan winner (ptable s) 0 0 with
  | Some i =>
      let s1 := upd i (set_state RUNNING) s in
      let s2 := run i s1 in
      (Some i, upd i (λ p, set_ticks (to_int (ticks p + 1)) p) s2)
  | None => (None, s)
  end.

(** [scheduler], cut after [fuel] iterations. Every iteration calls the
    generator and switches to a process anew: [random_at_most n] is what
    the generator answers in iteration [n], [run n] what the process
    dispatched in iteration [n] does. *)
Fixpoint scheduler (random_at_most : nat → Z → Z)
    (run : nat → nat → kstate → kstate) (fuel : nat) (s : kstate) : kstate :=
  match fuel with
  | O => s
  | S fuel' =>
      scheduler (λ n, random_at_most (S n)) (λ n, run (S n)) fuel'
        (scheduler_pass (random_at_most 0%nat) (run 0%nat) s).2
  end.

End Proc.

Module TicketLock.

(** ** Ticket lock *)

(** [struct ticketlock] comes from ticketlock.h, outside proc.c; proc.c
    uses its two counters, and draws [myTicket] as an [int]. *)
Record ticketlock : Set := mkLock {
  next_ticket : Z;
  current_turn : Z
}.

Definition initlock_t : ticketlock := mkLock 0 0.

(** Modelled from the spec: [fetch_and_add] of x86.h, outside proc.c, is
    the atomic fetch-and-increment: it answers the old content of the cell
    and leaves the sum in it. *)
Definition fetch_and_add (cell n : Z) : Z * Z := (cell, to_int (cell + n)).

(** Where a thread stands in [acquire_t] and [release_t]:
    - [Outside]: it does not use the lock;
    - [Testing]: [myTicket] is drawn and the thread is about to evaluate
      [lk->current_turn != myTicket];
    - [Failed]: the test held and [ticket_sleep] is not entered yet;
    - [Asleep]: inside [ticket_sleep], SLEEPING on the lock;
    - [Holding]: [acquire_t] has returned and [release_t] is not called
      yet;
    - [Releasing]: inside [release_t], after
      [fetch_and_add(&lk->current_turn, 1)] and before [wakeup(lk)]. *)
Inductive pc : Set :=
  | Outside
  | Testing (myTicket : Z)
  | Failed (myTicket : Z)
  | Asleep (myTicket : Z)
  | Holding (myTicket : Z)
  | Releasing.

#[global] Instance pc_eq_dec : EqDecision pc.
Proof. solve_decision. Defined.

(** The ticket a thread has drawn and not yet given up. *)
Definition ticket_of (c : pc) : option Z :=
  match c with
  | Outside | Releasing => None
  | Testing k | Failed k | Asleep k | Holding k => Some k
  end.

Definition is_holding (c : pc) : bool :=
  match c with
  | Holding _ => true
  | _ => false
  end.

(** One lock, its users, and the tickets in the order in which their
    owners left [acquire_t] (a history kept for the statements; the C
    state has no such list). *)
Record sys : Type := mkSys {
  lk : ticketlock;
  threads : gmap nat pc;
  entered : list Z
}.

Definition init : sys := mkSys initlock_t ∅ [].

Definition pc_of (t : nat) (s : sys) : pc := default Outside (threads s !! t).

(** What [wakeup(lk)] does to a user of the lock. *)
Definition woken (c : pc) : pc :=
  match c with
  | Asleep k => Testing k
  | _ => c
  end.

(** The atomic steps of a thread [t]. *)
Inductive action : Set :=
  | Draw (t : nat)
  | Test (t : nat)
  | Sleep (t : nat)
  | Wake (t : nat)
  | Release (t : nat)
  | Broadcast (t : nat).

(** [int myTicket = fetch_and_add(&lk->next_ticket, 1)] *)
Definition acquire_t_draw (t : nat) (s : sys) : sys :=
  let '(myTicket, next) := fetch_and_add (next_ticket (lk s)) 1 in
  mkSys (mkLock next (current_turn (lk s)))
        (<[t := Testing myTicket]> (threads s)) (entered s).

(** [while (lk->current_turn != myTicket)] *)
Definition acquire_t_test (t : nat) (myTicket : Z) (s : sys) : sys :=
  if decide (current_turn (lk s) ≠ myTicket)
  then mkSys (lk s) (<[t := Failed myTicket]> (threads s)) (entered s)
  else mkSys (lk s) (<[t := Holding myTicket]> (threads s))
             (entered s ++ [myTicket]).

(** [ticket_sleep(lk)] up to [sched]. *)
Definition ticket_sleep (t : nat) (myTicket : Z) (s : sys) : sys :=
  mkSys (lk s) (<[t := Asleep myTicket]> (threads s)) (entered s).

(** [release_t] is two statements, and other threads may run between
    them. The first, [fetch_and_add(&lk->current_turn, 1)]: *)
Definition release_t_add (t : nat) (s : sys) : sys :=
  let '(_, turn) := fetch_and_add (current_turn (lk s)) 1 in
  mkSys (mkLock (next_ticket (lk s)) turn)
        (<[t := Releasing]> (threads s)) (entered s).

(** The second, [wakeup(lk)], after which the thread is out of
    [release_t]. *)
Definition release_t_wakeup (t : nat) (s : sys) : sys :=
  mkSys (lk s) (woken <$> <[t := Outside]> (threads s)) (entered s).

(** [release_t] when nothing runs between its two statements. *)
Definition release_t (t : nat) (s : sys) : sys :=
  release_t_wakeup t (release_t_add t s).

(** A step is enabled by the position of its thread. [Wake] is a sleeper
    made RUNNABLE by someone else than [release_t] ([kill] does that).
    [Release] is the first statement of [release_t], for the thread that
    holds the lock, and [Broadcast] is the second. *)
Definition step (a : action) (s : sys) : option sys :=
  match a with
  | Draw t =>
      match pc_of t s with
      | Outside => Some (acquire_t_draw t s)
      | _ => None
      end
  | Test t =>
      match pc_of t s with
      | Testing k => Some (acquire_t_test t k s)
      | _ => None
      end
  | Sleep t =>
      match pc_of t s with
      | Failed k => Some (ticket_sleep t k s)
      | _ => None
      end
  | Wake t =>
      match pc_of t s with
      | Asleep k => Some (mkSys (lk s) (<[t := Testing k]> (threads s)) (entered s))
      | _ => None
      end
  | Release t =>
      match pc_of t s with
      | Holding _ => Some (release_t_add t s)
      | _ => None
      end
  | Broadcast t =>
      match pc_of t s with
      | Releasing => Some (release_t_wakeup t s)
      | _ => None
      end
  end.

(** A schedule: the steps of all threads, interleaved. *)
Fixpoint run (l : list action) (s : sys) : option sys :=
  match l with
  | [] => Some s
  | a :: l' =>
      match step a s with
      | Some s' => run l' s'
      | None => None
      end
  end.

(** The number of tickets a schedule draws. *)
Fixpoint draws (l : list action) : Z :=
  match l with
  | [] => 0
  | Draw _ :: l' => 1 + draws l'
  | _ :: l' => draws l'
  end.

End TicketLock.

Module Lottery.

Import Proc.

(** ** What the lottery is meant to compute *)

(** The tickets held by the RUNNABLE records of [t], as a sum of
    integers. *)
Fixpoint runnable_total (t : list proc) : Z :=
  match t with
  | [] => 0
  | p :: t' =>
      (if decide (state p = RUNNABLE) then tickets p else 0) + runnable_total t'
  end.

(** The tickets held by the RUNNABLE records among slots [0..i]. *)
Definition cumulative (t : list proc) (i : nat) : Z :=
  runnable_total (take (S i) t).

(** No running sum of the pass leaves the range of an [int]: the
    additions of [tickets_sum] and of [scheduler] do not overflow. *)
Definition no_overflow (t : list proc) : Prop :=
  Forall (λ i, in_int (cumulative t i)) (seq 0 (length t)).

(** The same for a pass that starts from the counter [c0]. *)
Definition sums_fit (c0 : Z) (t : list proc) : Prop :=
  ∀ j, (j < length t)%nat → in_int (c0 + cumulative t j).

End Lottery.

Module Orphans.

Import Proc.

(** ** What exit is meant to do to the other records *)

(** A child of [cur] is handed to [init]. *)
Definition reparent (cur : nat) (init : option nat) (p : proc) : proc :=
  if decide (parent p = Some cur) then set_parent init p else p.

(** A child of [cur] that has already exited. *)
Definition zombie_child (cur : nat) (p : proc) : Prop :=
  parent p = Some cur ∧ state p = ZOMBIE.

#[global] Instance zombie_child_dec (cur : nat) (p : proc) :
  Decision (zombie_child cur p).
Proof. unfold zombie_child. apply _. Defined.

(** The table [exit] leaves when it calls [sched]. *)
Definition exit_table (cur : nat) (init : option nat) (t : list proc) : list proc :=
  let t1 := alter (λ p, set_ofile ((λ _, 0) <$> ofile p) p) cur t in
  let t2 := alter (set_cwd 0) cur t1 in
  let t3 := wakeup1 (chan_of (parent (slot cur t2))) t2 in
  let t4 := exit_reparent (length t3) 0 cur init t3 in
  alter (set_state ZOMBIE) cur t4.

(** The same table, record by record: [c] is the channel of the caller's
    parent, [z] tells whether the caller leaves a ZOMBIE child. *)
Definition exit_record (cur : nat) (init : option nat) (c : wchan) (z : bool)
    (j : nat) (p : proc) : proc :=
  let p1 := if decide (j = cur)
            then set_cwd 0 (set_ofile ((λ _, 0) <$> ofile p) p) else p in
  let p2 := reparent cur init (wake c p1) in
  let p3 := if z then wake (chan_of init) p2 else p2 in
  if decide (j = cur) then set_state ZOMBIE p3 else p3.

End Orphans.

Module Reaping.

Import Proc.

(** ** What reclaiming a record is meant to leave *)

(** The slot of a child after [wait] has reclaimed it. *)
Definition wait_clear (p : proc) : proc :=
  set_state UNUSED (set_killed 0 (set_name EmptyString
    (set_parent None (set_pid 0 (set_kstack 0 p))))).

(** The slot of a thread after [join] has reclaimed it. *)
Definition join_clear (p : proc) : proc := set_threadstack 0 (wait_clear p).

(** A thread of [cur]: a child that runs in the address space [pg] of
    its parent. *)
Definition thread_of (cur : nat) (pg : Z) (p : proc) : Prop :=
  parent p = Some cur ∧ pgdir p = pg.

#[global] Instance thread_of_dec (cur : nat) (pg : Z) (p : proc) :
  Decision (thread_of cur pg p).
Proof. unfold thread_of. apply _. Defined.

End Reaping.

Module Alloc.

Import Proc.

(** ** What allocation is meant to leave *)

(** The slot [allocproc] hands out, with pid [pid0] and the kernel stack
    [k]. *)
Definition embryo (pid0 k : Z) (p : proc) : proc :=
  set_context Forkret (set_kstack k (set_ticks 0 (set_tickets 1
    (set_pid pid0 (set_state EMBRYO p))))).

(** The slot [allocproc] gives back when there is no page for the kernel
    stack. *)
Definition rolled_back (pid0 : Z) (p : proc) : proc :=
  set_state UNUSED (set_kstack 0 (set_ticks 0 (set_tickets 1
    (set_pid pid0 (set_state EMBRYO p))))).

(** The table at boot, [nproc] zeroed slots, and the first pid. *)
Definition boot (nproc : nat) : kstate :=
  mkK (replicate nproc proc0) 1 None ∅ [].

End Alloc.

Module TicketInv.

Import TicketLock.

(** ** The invariant of the ticket lock *)

(** What holds of a lock and its users after [n] tickets were drawn: the
    tickets in use are distinct and lie between [current_turn] and
    [next_ticket]; a thread past [acquire_t] has the ticket
    [current_turn]; the tickets that went past [acquire_t] did so in the
    order 0, 1, 2, ... *)
Record Inv (n : Z) (s : sys) : Prop := mkInv {
  inv_n : 0 ≤ n ≤ INT_MAX;
  inv_next : next_ticket (lk s) = n;
  inv_turn : 0 ≤ current_turn (lk s) ≤ n;
  inv_range : ∀ t k, ticket_of (pc_of t s) = Some k →
                     current_turn (lk s) ≤ k < n;
  inv_uniq : ∀ t t' k, ticket_of (pc_of t s) = Some k →
                       ticket_of (pc_of t' s) = Some k → t = t';
  inv_hold : ∀ t k, pc_of t s = Holding k → k = current_turn (lk s);
  inv_log_free : (∀ t k, pc_of t s ≠ Holding k) →
                 entered s = seqZ 0 (current_turn (lk s));
  inv_log_held : (∃ t k, pc_of t s = Holding k) →
                 entered s = seqZ 0 (current_turn (lk s) + 1)
}.

(** A lock that nobody uses, with both counters at [k]. *)
Definition idle_at (k : Z) (s : sys) : Prop :=
  lk s = mkLock k k ∧ ∀ t, pc_of t s = Outside.

End TicketInv.

Module Rest.

Import Proc.

(** ** The first process *)

Definition set_initproc (i : option nat) (s : kstate) : kstate :=
  mkK (ptable s) (nextpid s) i (umem s) (trace s).

(** The segment selectors and the flag [userinit] writes; they come from
    mmu.h, outside proc.c, where xv6 has them as 3, 4, 3 and 0x200. *)
Definition SEG_UCODE : Z := 3.
Definition SEG_UDATA : Z := 4.
Definition DPL_USER : Z := 3.
Definition FL_IF : Z := 512.

(** What [inituvm] leaves in the fresh address space [pg]: the words of
    the boot code from address 0 on. *)
Fixpoint load_words (pg va : Z) (ws : list Z) (m : gmap (Z * Z) Z)
    : gmap (Z * Z) Z :=
  match ws with
  | [] => m
  | w :: ws' => load_words pg (va + 4) ws' (<[(pg, va) := w]> m)
  end.

(** The trap frame [userinit] builds: [memset] to 0, then the fields one
    by one; [tf_rest] holds cs, ds, es, ss and eflags in that order. *)
Definition init_tf : trapframe :=
  let cs := Z.lor (Z.shiftl SEG_UCODE 3) DPL_USER in
  let ds := Z.lor (Z.shiftl SEG_UDATA 3) DPL_USER in
  mkTf 0 PGSIZE 0 0 [cs; ds; ds; ds; FL_IF].

(** [userinit]. [kalloc] and [setupkvm] are what the collaborators
    answer, 0 on failure; [initcode] is the boot code and [root] the inode
    [namei] finds for the root directory. When [allocproc] has no slot the
    source writes through a null pointer, for which there is no answer
    ([None]). *)
Definition userinit (kalloc setupkvm : Z) (initcode : list Z) (root : Z)
    (s : kstate) : option (outcome unit) :=
  match allocproc kalloc s with
  | (None, _) => None
  | (Some p, s1) =>
      let s2 := set_initproc (Some p) s1 in
      let s3 := upd p (set_pgdir setupkvm) s2 in
      if decide (setupkvm = 0) then Some (Panic "userinit: out of memory?")
      else
        let s4 := set_umem (load_words setupkvm 0 initcode (umem s3)) s3 in
        let s5 := upd p (set_sz PGSIZE) s4 in
        let s6 := upd p (set_tf init_tf) s5 in
        let s7 := upd p (set_name "initcode") s6 in
        let s8 := upd p (set_cwd root) s7 in
        Some (Return tt (upd p (set_state RUNNABLE) s8))
  end.

(** ** growproc *)

(** [growproc]. [allocuvm] and [deallocuvm] are the collaborators, given
    the page directory, the old size and the new one; they answer the size
    reached, 0 on failure. *)
Definition growproc (allocuvm deallocuvm : Z → Z → Z → Z) (n : Z) (cur : nat)
    (s : kstate) : Z * kstate :=
  let curproc := slot cur (ptable s) in
  let sz0 := sz curproc in
  if decide (0 < n) then
    let sz1 := allocuvm (pgdir curproc) sz0 (to_uint (sz0 + n)) in
    if decide (sz1 = 0) then (-1, s) else (0, upd cur (set_sz sz1) s)
  else if decide (n < 0) then
    let sz1 := deallocuvm (pgdir curproc) sz0 (to_uint (sz0 + n)) in
    if decide (sz1 = 0) then (-1, s) else (0, upd cur (set_sz sz1) s)
  else (0, upd cur (set_sz sz0) s).

(** ** The per-CPU record *)

(** [struct cpu], as far as proc.c reads it: the APIC id and the process
    running on the processor. *)
Record cpu : Set := mkCpu {
  apicid : Z;
  cpu_proc : option nat
}.

(** The loop of [mycpu]: slots [i], [i+1], ... of [cpus], [todo] of them. *)
Fixpoint mycpu_loop (lapicid : Z) (cpus : list cpu) (i todo : nat)
    : option nat :=
  match todo with
  | O => None
  | S todo' =>
      match cpus !! i with
      | Some c =>
          if decide (apicid c = lapicid) then Some i
          else mycpu_loop lapicid cpus (S i) todo'
      | None => None
      end
  end.

(** [mycpu]: the index of the record found in [cpus], or the message of
    the panic, without its final newline. [intr] tells whether interrupts are enabled, [lapicid] is
    what the local APIC answers, [ncpu] the number of processors found at
    boot, at most the length of [cpus]. *)
Definition mycpu (intr : bool) (lapicid : Z) (ncpu : nat) (cpus : list cpu)
    : string + nat :=
  if intr then inl "mycpu called with interrupts enabled"
  else match mycpu_loop lapicid cpus 0 ncpu with
       | Some i => inr i
       | None => inl "unknown apicid"
       end.

(** [cpuid]: [mycpu() - cpus] is the index itself. *)
Definition cpuid (intr : bool) (lapicid : Z) (ncpu : nat) (cpus : list cpu)
    : string + nat :=
  mycpu intr lapicid ncpu cpus.

(** [myproc]: [pushcli] turns interrupts off before [mycpu] is called. *)
Definition myproc (lapicid : Z) (ncpu : nat) (cpus : list cpu)
    : string + option nat :=
  match mycpu false lapicid ncpu cpus with
  | inr i => inr (default None (cpu_proc <$> cpus !! i))
  | inl msg => inl msg
  end.

(** ** forkret *)

(** The two initialisations [forkret] runs in the context of the first
    process. *)
Inductive boot_call : Set :=
  | Iinit (dev : Z)
  | Initlog (dev : Z).

(** [ROOTDEV] comes from param.h, outside proc.c; xv6 has it as 1. *)
Definition ROOTDEV : Z := 1.

(** [forkret]: [first] is the static variable; the answer is the calls
    made and the new value of [first]. *)
Definition forkret (first : bool) : list boot_call * bool :=
  if first then ([Iinit ROOTDEV; Initlog ROOTDEV], false)
  else ([], first).

(** The calls of [n] first runs of processes, one after the other. *)
Fixpoint forkret_runs (n : nat) (first : bool) : list boot_call * bool :=
  match n with
  | O => ([], first)
  | S n' =>
      let '(calls, first') := forkret first in
      let '(calls', first'') := forkret_runs n' first' in
      (calls ++ calls', first'')
  end.

End Rest.

Module Percpu.

Import Proc Rest.

(** ** sched and yield with the checks on the processor *)

(** What [sched] reads of the processor it runs on: the answer of
    [holding(&ptable.lock)], which the spinlock code gives; the flag
    [FL_IF] of [eflags], which nothing in [sched] changes; what [mycpu]
    works on; and the field [ncli] of each record of [cpus], the number of
    locks the processor holds. *)
Record percpu : Type := mkPercpu {
  holding_ptable : bool;
  fl_if : bool;
  lapic : Z;
  ncpus : nat;
  cpu_table : list cpu;
  ncli : nat → Z
}.

(** [sched] with its four checks, in the order of the source. [cur] is
    what [myproc] answers; [mycpu()->ncli] goes through [mycpu], which
    panics by itself when interrupts are enabled or the processor is not
    in the table. [swtch] and [k] are as in [Proc.sched]. *)
Definition sched {A : Type} (v : percpu) (swtch : kstate → option kstate)
    (cur : nat) (s : kstate) (k : kstate → outcome A) : outcome A :=
  if negb (holding_ptable v) then Panic "sched ptable.lock"
  else match mycpu (fl_if v) (lapic v) (ncpus v) (cpu_table v) with
       | inl msg => Panic msg
       | inr c =>
           if decide (ncli v c ≠ 1) then Panic "sched locks"
           else if decide (state (slot cur (ptable s)) = RUNNING)
           then Panic "sched running"
           else if fl_if v then Panic "sched interruptible"
           else match swtch s with
                | Some s' => k s'
                | None => Descheduled s
                end
       end.

(** [yield]; [v] is the processor once [acquire] has returned. What
    [acquire] and [release] do to the lock belongs to the spinlock code. *)
Definition yield (v : percpu) (swtch : kstate → option kstate) (cur : nat)
    (s : kstate) : outcome unit :=
  sched v swtch cur (upd cur (set_state RUNNABLE) s) (λ s', Return tt s').


End Percpu.

Module Fixtures.

Import Proc.

(** ** Sample records and tables *)

Definition rec (st : procstate) (pid0 : Z) (par : option nat) (pg : Z)
    (c : wchan) (tks : Z) : proc :=
  set_tickets tks (set_chan c (set_pgdir pg (set_parent par
    (set_pid pid0 (set_state st proc0))))).

Definition kst (t : list proc) : kstate := mkK t 10 (Some 0%nat) ∅ [].

(** init asleep in wait, a shell, and two sleepers on the same channel. *)
Definition sleepers : kstate :=
  kst [ rec SLEEPING 1 None 100 (CProc 0) 1;
        rec RUNNING 2 (Some 0%nat) 200 CNull 1;
        rec SLEEPING 3 (Some 1%nat) 300 (CAddr 7) 1;
        rec SLEEPING 4 (Some 1%nat) 400 (CAddr 7) 1;
        rec SLEEPING 5 (Some 1%nat) 500 (CAddr 8) 1 ].

(** A shell that has been killed while one of its children, pid 5, is
    already a ZOMBIE. *)
Definition killed_parent : kstate :=
  kst [ rec SLEEPING 1 None 100 (CProc 0) 1;
        set_killed 1 (rec RUNNING 2 (Some 0%nat) 200 CNull 1);
        set_kstack 7000 (rec ZOMBIE 5 (Some 1%nat) 500 CNull 1);
        rec SLEEPING 6 (Some 1%nat) 600 (CAddr 8) 1 ].

(** A shell with one child, a ZOMBIE, and a record of another family. *)
Definition one_child : kstate :=
  kst [ rec SLEEPING 1 None 100 (CProc 0) 1;
        rec RUNNING 2 (Some 0%nat) 200 CNull 1;
        rec SLEEPING 3 (Some 0%nat) 300 (CAddr 8) 1;
        set_kstack 7000 (rec ZOMBIE 5 (Some 1%nat) 500 CNull 1) ].

(** A process (slot 1, address space 200, 16384 bytes) whose thread
    (slot 2, user stack at 12288) has exited; the word at 12272 of the
    address space is the caller's variable that [join] is given the
    address of. Slot 3 is a child process, also a ZOMBIE. *)
Definition thread_done : kstate :=
  mkK [ rec SLEEPING 1 None 100 (CProc 0) 1;
        set_sz 16384 (rec RUNNING 2 (Some 0%nat) 200 CNull 1);
        set_threadstack 12288
          (set_kstack 7000 (rec ZOMBIE 6 (Some 1%nat) 200 CNull 1));
        set_kstack 8000 (rec ZOMBIE 7 (Some 1%nat) 700 CNull 1);
        proc0 ]
      10 (Some 0%nat) {[ (200, 12272) := 0 ]} [].

(** A process (slot 1, 16384 bytes) about to call [clone]; slot 2 is
    free. *)
Definition cloner : kstate :=
  mkK [ rec SLEEPING 1 None 100 (CProc 0) 1;
        set_sz 16384 (rec RUNNING 2 (Some 0%nat) 200 CNull 7);
        proc0 ]
      3 (Some 0%nat) ∅ [].

(** A table of 64 slots after 63 allocations and one more that found no
    page for the kernel stack. *)
Definition full_but_one : kstate :=
  (allocproc 0 (Nat.iter 63 (λ s, (allocproc 7000 s).2) (Alloc.boot 64))).2.

(** init asleep in wait; a shell (slot 1) asleep in wait for its child
    (slot 2), which is running and about to exit; the two children of
    that child, one of them already a ZOMBIE. *)
Definition leaving : kstate :=
  kst [ rec SLEEPING 1 None 100 (CProc 0) 1;
        rec SLEEPING 2 (Some 0%nat) 200 (CProc 1) 1;
        set_cwd 9 (set_ofile [3; 0; 4] (rec RUNNING 3 (Some 1%nat) 300 CNull 1));
        rec ZOMBIE 4 (Some 2%nat) 400 CNull 1;
        rec RUNNABLE 5 (Some 2%nat) 500 CNull 1 ].

(** Two threads and one lock: both draw, the second tests first and goes
    to sleep, the first enters and releases, the second enters. *)
Definition two_threads : list TicketLock.action :=
  [ TicketLock.Draw 0; TicketLock.Draw 1; TicketLock.Test 1;
    TicketLock.Sleep 1; TicketLock.Test 0; TicketLock.Release 0;
    TicketLock.Broadcast 0; TicketLock.Test 1 ].

(** Three RUNNABLE records with 5, 4 and 3 tickets among records in
    other states. *)
Definition lottery : kstate :=
  kst [ rec SLEEPING 1 None 100 (CProc 0) 1;
        rec RUNNABLE 2 (Some 0%nat) 200 CNull 5;
        rec EMBRYO 3 (Some 1%nat) 300 CNull 1;
        rec RUNNABLE 4 (Some 1%nat) 400 CNull 4;
        rec RUNNABLE 5 (Some 1%nat) 500 CNull 3 ].

End Fixtures.

Module Records.

Import Proc.

(** ** Records written out field by field *)

(** The fields that neither [wakeup], [kill] nor [wait] assigns. *)
Definition others_kept (p q : proc) : Prop :=
  sz q = sz p ∧ pgdir q = pgdir p ∧ tf q = tf p ∧ context q = context p ∧
  chan q = chan p ∧ ofile q = ofile p ∧ cwd q = cwd p ∧
  tickets q = tickets p ∧ ticks q = ticks p ∧ threadstack q = threadstack p.

Definition init_rec : proc :=
  mkProc 12288 100 7100 SLEEPING 1 None (mkTf 0 0 0 0 []) Forkret (CProc 0) 0
         (replicate NOFILE 0) 1 "init" 1 4 0.

Definition sh_rec : proc :=
  mkProc 16384 200 7200 RUNNING 2 (Some 0%nat) (mkTf 0 12000 0 64 []) Forkret
         CNull 0 (replicate NOFILE 0) 1 "sh" 1 9 0.

Definition cat_rec : proc :=
  mkProc 8192 300 7300 SLEEPING 3 (Some 0%nat) (mkTf 0 8000 0 32 []) Forkret
         (CAddr 7) 0 (replicate NOFILE 0) 1 "cat" 2 5 0.

Definition wc_rec : proc :=
  mkProc 8192 400 7400 SLEEPING 4 (Some 0%nat) (mkTf 0 8000 0 48 []) Forkret
         (CAddr 7) 0 (replicate NOFILE 0) 1 "wc" 1 2 0.

Definition ls_rec : proc :=
  mkProc 8192 500 7500 SLEEPING 5 (Some 0%nat) (mkTf 0 8000 0 16 []) Forkret
         (CAddr 8) 0 (replicate NOFILE 0) 1 "ls" 1 1 0.

(** A child of the shell that was killed and has exited. *)
Definition grep_rec : proc :=
  mkProc 8192 600 7600 ZOMBIE 6 (Some 1%nat) (mkTf 0 8000 0 80 []) Forkret
         CNull 1 (replicate NOFILE 0) 0 "grep" 3 7 0.

(** init asleep in wait; a running shell; three sleepers, two of them on
    the same channel; the ZOMBIE child of the shell. *)
Definition busy : kstate :=
  mkK [ init_rec; sh_rec; cat_rec; wc_rec; ls_rec; grep_rec ]
      10 (Some 0%nat) ∅ [].

(** A process that computes and never sleeps. *)
Definition spin_rec (pid0 : Z) : proc :=
  mkProc 8192 (100 * pid0) (7000 + 100 * pid0) RUNNABLE pid0 (Some 0%nat)
         (mkTf 0 8000 0 16 []) Forkret CNull 0 (replicate NOFILE 0) 1 "spin"
         1 0 0.

(** Four such processes, with the one ticket [allocproc] gives. *)
Definition spinning : kstate :=
  mkK [ spin_rec 2; spin_rec 3; spin_rec 4; spin_rec 5 ] 10 (Some 0%nat) ∅ [].

(** The same after the last three have called [settickets], two of them
    asking for the largest number an [int] holds. *)
Definition greedy : kstate :=
  (settickets 5 3
     (settickets INT_MAX 2 (settickets INT_MAX 1 spinning).2).2).2.

End Records.

Module Scenarios.

Import Proc.

(** ** Processes that meet through the table *)

(** The state in which [sleep] hands the processor over: the process in
    slot [cur] asleep on [c]. *)
Definition asleep (cur : nat) (c : wchan) (s : kstate) : kstate :=
  upd cur (set_state SLEEPING) (upd cur (set_chan c) s).

(** The state a process finds when [scheduler] switches to it from [s]:
    its own record RUNNING. *)
Definition dispatched (cur : nat) (s : kstate) : kstate :=
  upd cur (set_state RUNNING) s.

(** init asleep in wait; a shell (slot 1) that is about to wait for its
    child (slot 2), which runs on another processor; the two children of
    that child, one of them already a ZOMBIE. *)
Definition family : kstate :=
  Fixtures.kst
    [ Fixtures.rec SLEEPING 1 None 100 (CProc 0) 1;
      Fixtures.rec RUNNING 2 (Some 0%nat) 200 CNull 1;
      set_kstack 7000 (Fixtures.rec RUNNING 3 (Some 1%nat) 300 CNull 1);
      Fixtures.rec ZOMBIE 4 (Some 2%nat) 400 CNull 1;
      Fixtures.rec RUNNABLE 5 (Some 2%nat) 500 CNull 1 ].

(** What the processor does between the moment the process in slot [q]
    goes to sleep and the moment it runs again, when meanwhile the process
    in slot [c] exits. *)
Definition exit_meanwhile (c q : nat) (s : kstate) : option kstate :=
  match exit (λ _, None) c s with
  | Descheduled s' => Some (dispatched q s')
  | _ => None
  end.

(** The same when meanwhile somebody kills the process [pid0]. *)
Definition kill_meanwhile (pid0 : Z) (q : nat) (s : kstate) : option kstate :=
  Some (dispatched q (kill pid0 s).2).

(** ** The records fork and clone are meant to build *)

(** The record of the child [fork] makes in the free slot [p], for the
    parent record [par] in slot [cur], the pid [pid0], the kernel stack
    [k] and the address space [pg]. *)
Definition forked (pid0 k pg : Z) (cur : nat) (par p : proc) : proc :=
  set_state RUNNABLE (set_name (name par) (set_cwd (cwd par)
    (set_ofile (dup_files (ofile par) (ofile p))
      (set_tf (set_eax 0 (tf par)) (set_parent (Some cur)
        (set_sz (sz par) (set_tickets (tickets par)
          (set_pgdir pg (Alloc.embryo pid0 k p))))))))).

(** Where [clone] puts the frame of the thread: 12 bytes below the top
    of the page at [stack]. *)
Definition stack_top (stack : Z) : Z :=
  to_uint (to_uint (to_uint stack + PGSIZE) - 12).

(** The record of the thread [clone] makes in the free slot [p]. *)
Definition cloned (pid0 k fcn stack : Z) (cur : nat) (par p : proc) : proc :=
  set_state RUNNABLE (set_name (name par) (set_cwd (cwd par)
    (set_ofile (dup_files (ofile par) (ofile p))
      (set_threadstack stack
        (set_tf (mkTf 0 (stack_top stack) (stack_top stack) (to_uint fcn)
                      (tf_rest (tf par)))
          (set_parent (Some cur) (set_sz (sz par)
            (set_pgdir (pgdir par) (Alloc.embryo pid0 k p))))))))).

End Scenarios.

Module Pids.

Import Proc.

(** ** Pids of the slots in use *)

(** The pids are well formed: [nextpid] is positive, every slot in use
    has a positive pid below [nextpid], and no two slots in use have the
    same pid. *)
Record pids_fresh (s : kstate) : Prop := mkFresh {
  pids_next : 0 < nextpid s;
  pids_range : ∀ i p, ptable s !! i = Some p → state p ≠ UNUSED →
                      0 < pid p < nextpid s;
  pids_distinct : ∀ i j p q, ptable s !! i = Some p → ptable s !! j = Some q →
                             state p ≠ UNUSED → state q ≠ UNUSED →
                             pid p = pid q → i = j
}.

(** [s'] comes from [s] without a slot being taken and without a pid
    being changed: a slot in use in [s'] was in use in [s], with the same
    pid. *)
Definition keeps_pids (s s' : kstate) : Prop :=
  nextpid s' = nextpid s ∧
  ∀ i q', ptable s' !! i = Some q' → state q' ≠ UNUSED →
          ∃ q, ptable s !! i = Some q ∧ state q ≠ UNUSED ∧ pid q = pid q'.

(** What is assumed of the rest of the system while the process in slot
    [cur] is off the processor: it leaves the pids well formed, and the
    process still has its slot when it runs again. *)
Definition swtch_keeps_pids (cur : nat) (swtch : kstate → option kstate) : Prop :=
  ∀ s s', swtch s = Some s' → pids_fresh s →
          pids_fresh s' ∧ state (slot cur (ptable s')) ≠ UNUSED.

(** An assignment to a record that neither changes the pid of a slot in
    use nor brings a slot into use. *)
Definition quiet (f : proc → proc) : Prop :=
  ∀ p, state (f p) ≠ UNUSED → state p ≠ UNUSED ∧ pid (f p) = pid p.

(** [s'] comes from [s] by handing out the slot [i], which was UNUSED,
    with the pid [nextpid s], or is [s] itself. *)
Definition took_slot (s s' : kstate) : Prop :=
  s' = s ∨
  ∃ i p g, ptable s !! i = Some p ∧ state p = UNUSED ∧ pid (g p) = nextpid s ∧
           ptable s' = alter g i (ptable s) ∧
           nextpid s' = to_int (nextpid s + 1).

End Pids.

Module Schedules.

Import TicketLock.

(** ** Schedules of the ticket lock *)

(** Two threads and one lock: both draw; the first enters; the second
    finds the turn is not its own; the first releases before the second
    has gone to sleep; then the second goes to sleep. *)
Definition late_sleeper : list action :=
  [ Draw 0; Draw 1; Test 0; Test 1; Release 0; Broadcast 0; Sleep 1 ].

(** The same, but the second thread goes to sleep between the two
    statements of [release_t]. *)
Definition sleeper_in_time : list action :=
  [ Draw 0; Draw 1; Test 0; Test 1; Release 0; Sleep 1; Broadcast 0 ].

(** Thread 0 takes the lock and releases it, [n] times over. *)
Fixpoint alone (n : nat) : list action :=
  match n with
  | O => []
  | S n' => [ Draw 0; Test 0; Release 0; Broadcast 0 ] ++ alone n'
  end.

(** After 2^31 - 1 such rounds, thread 0 and then thread 1 draw a
    ticket, and they enter one after the other. *)
Definition wrap_around : list action :=
  alone (Z.to_nat INT_MAX) ++
  [ Draw 0; Draw 1; Test 0; Release 0; Broadcast 0; Test 1 ].

End Schedules.

Module Dump.

Import Proc.

(** ** procdump *)






(** ** The passes of the scheduler, one after the other *)

(** The slots that the first [fuel] passes of [scheduler] dispatch, in
    order. *)
Fixpoint dispatches (random_at_most : nat → Z → Z)
    (run : nat → nat → kstate → kstate) (fuel : nat) (s : kstate) : list nat :=
  match fuel with
  | O => []
  | S fuel' =>
      let r := scheduler_pass (random_at_most 0%nat) (run 0%nat) s in
      let rest :=
        dispatches (λ n, random_at_most (S n)) (λ n, run (S n)) fuel' r.2 in
      match r.1 with
      | Some i => i :: rest
      | None => rest
      end
  end.

(** Three draws for three passes over a table whose RUNNABLE records hold
    12 tickets. *)
Definition three_draws (n : nat) (total : Z) : Z :=
  match n with
  | O => 9
  | S O => 2
  | _ => total
  end.

(** How often the slot [j] occurs in a list of slots. *)
Definition times (j : nat) (l : list nat) : Z :=
  Z.of_nat (length (filter (λ i, i = j) l)).

End Dump.

(** * Properties *)

Import Proc Lottery Orphans Reaping Alloc.

(** ** The table as an array *)

(** The length of a table after assignments and loops; [len] is the
    length lemma of the loop. *)
Ltac table_len len :=
  repeat case_decide;
  rewrite ?len, ?length_fmap, ?len, ?length_alter;
  first [done | lia].

(** Case analysis on the index a cell is read at; [ins] is the lemma
    that reads a cell after an update. *)
Ltac index_cases ins := rewrite ?ins; repeat case_decide; subst.

Lemma slot_lookup (t : list proc) (i : nat) (p : proc) :
  t !! i = Some p → slot i t = p.
Proof. unfold slot. by intros ->. Qed.

Lemma lookup_slot (t : list proc) (i : nat) :
  (i < length t)%nat → t !! i = Some (slot i t).
Proof.
  intros Hi. destruct (lookup_lt_is_Some_2 t i Hi) as [p Hp].
  by rewrite (slot_lookup _ _ _ Hp).
Qed.

Lemma slot_alter_eq (f : proc → proc) (t : list proc) (i : nat) :
  (i < length t)%nat → slot i (alter f i t) = f (slot i t).
Proof.
  intros Hi. unfold slot. rewrite list_lookup_alter_eq.
  by rewrite (lookup_slot t i Hi).
Qed.

Lemma slot_alter_ne (f : proc → proc) (t : list proc) (i j : nat) :
  i ≠ j → slot j (alter f i t) = slot j t.
Proof. intros Hne. unfold slot. by rewrite list_lookup_alter_ne. Qed.

Lemma alter_ge (f : proc → proc) (t : list proc) (i : nat) :
  (length t ≤ i)%nat → alter f i t = t.
Proof.
  intros Hi. apply list_eq. intros j. rewrite list_lookup_alter.
  case_decide; [|done]. subst j. by rewrite (lookup_ge_None_2 t i Hi).
Qed.

(** A field that the assignment [f] does not write reads the same after
    [ptable.proc[i].f = v]. *)
Lemma slot_alter_proj {B : Type} (g : proc → B) (f : proc → proc)
    (t : list proc) (i j : nat) :
  (∀ p, g (f p) = g p) → g (slot j (alter f i t)) = g (slot j t).
Proof.
  intros Hg. destruct (decide (i = j)) as [->|Hne]; [|by rewrite slot_alter_ne].
  destruct (decide (j < length t)%nat) as [Hj|Hj].
  - by rewrite slot_alter_eq.
  - rewrite alter_ge; [done|lia].
Qed.

Lemma slot_fmap (f : proc → proc) (t : list proc) (i : nat) :
  (i < length t)%nat → slot i (f <$> t) = f (slot i t).
Proof.
  intros Hi. unfold slot. rewrite list_lookup_fmap.
  by rewrite (lookup_slot t i Hi).
Qed.

Lemma slot_app_r (pre suf : list proc) (p : proc) :
  slot (length pre) (pre ++ p :: suf) = p.
Proof. unfold slot. by rewrite list_lookup_middle. Qed.

Lemma alter_middle (f : proc → proc) (pre suf : list proc) (p : proc) :
  alter f (length pre) (pre ++ p :: suf) = pre ++ f p :: suf.
Proof.
  replace (length pre) with (length pre + 0)%nat by lia.
  by rewrite alter_app_r.
Qed.

Lemma Exists_lookup (P : proc → Prop) (t : list proc) :
  Exists P t ↔ ∃ j p, t !! j = Some p ∧ P p.
Proof.
  rewrite Exists_exists. split.
  - intros (p & [j Hj]%list_elem_of_lookup & HP). eauto.
  - intros (j & p & Hj & HP). exists p. split; [|done].
    apply list_elem_of_lookup. eauto.
Qed.

(** The first record, in table order, that satisfies [P]. *)
Lemma first_such (P : proc → Prop) `{!∀ p, Decision (P p)} (t : list proc) :
  Exists P t →
  ∃ i p, t !! i = Some p ∧ P p ∧ ∀ j q, t !! j = Some q → (j < i)%nat → ¬ P q.
Proof.
  intros (p & Hin & Hp)%Exists_exists.
  destruct (list_find_elem_of P t p Hin Hp) as [[i q] Hf].
  apply list_find_Some in Hf. exists i, q. done.
Qed.

Lemma first_found (P : proc → Prop) `{!∀ p, Decision (P p)} (t : list proc)
    (i : nat) (p : proc) :
  t !! i = Some p → P p →
  (∀ j q, t !! j = Some q → (j < i)%nat → ¬ P q) →
  list_find P t = Some (i, p).
Proof. intros Hp HP Hfirst. apply list_find_Some. split_and!; [done|done|]. eauto. Qed.

(** ** Machine arithmetic *)

Lemma to_int_id (x : Z) : in_int x → to_int x = x.
Proof.
  unfold in_int, to_int, INT_MIN, INT_MAX. intros H.
  rewrite Z.mod_small; lia.
Qed.

(** ** wakeup *)

Lemma wakeup1_lookup (c : wchan) (t : list proc) (i : nat) :
  wakeup1 c t !! i = wake c <$> t !! i.
Proof. unfold wakeup1. apply list_lookup_fmap. Qed.

Lemma wakeup1_length (c : wchan) (t : list proc) :
  length (wakeup1 c t) = length t.
Proof. unfold wakeup1. apply length_fmap. Qed.

Lemma wake_not_sleeping (c : wchan) (p : proc) :
  state p ≠ SLEEPING → wake c p = p.
Proof. intros H. unfold wake. case_decide as Hc; [|done]. by destruct Hc. Qed.

Lemma wake_state (c : wchan) (p : proc) :
  state (wake c p) = state p ∨
  (state p = SLEEPING ∧ chan p = c ∧ state (wake c p) = RUNNABLE).
Proof.
  unfold wake. case_decide as Hc; [|by left].
  right. by destruct Hc as [-> ->].
Qed.

Lemma wake_parent (c : wchan) (p : proc) : parent (wake c p) = parent p.
Proof. unfold wake. by case_decide. Qed.

Lemma wake_chan (c : wchan) (p : proc) : chan (wake c p) = chan p.
Proof. unfold wake. by case_decide. Qed.

Lemma wake_zombie (c : wchan) (p : proc) :
  state (wake c p) = ZOMBIE ↔ state p = ZOMBIE.
Proof. unfold wake. case_decide as H; cbn; [|done]. destruct H as [-> _]. done. Qed.

Lemma wake_set_parent (c : wchan) (x : option nat) (p : proc) :
  wake c (set_parent x p) = set_parent x (wake c p).
Proof. unfold wake. cbn. by case_decide. Qed.

Lemma wake_runnable (c : wchan) (p : proc) :
  state p = RUNNABLE → state (wake c p) = RUNNABLE.
Proof. intros H. rewrite wake_not_sleeping; [done|]. by rewrite H. Qed.

Lemma wake_sleeper (c : wchan) (p : proc) :
  state p = SLEEPING → chan p = c → state (wake c p) = RUNNABLE.
Proof. intros H1 H2. unfold wake. by rewrite decide_True. Qed.

(** A sleeper on [c], once woken, stays RUNNABLE through a later
    wakeup on any channel. *)
Lemma wake_wake_sleeper (c c' : wchan) (p : proc) :
  state p = SLEEPING → chan p = c → state (wake c (wake c' p)) = RUNNABLE.
Proof.
  intros H1 H2. destruct (wake_state c' p) as [H|(_ & _ & H)].
  - apply wake_sleeper; [congruence|by rewrite wake_chan].
  - by apply wake_runnable.
Qed.

Lemma wake_idemp (c : wchan) (p : proc) : wake c (wake c p) = wake c p.
Proof.
  unfold wake.
  destruct (decide (state p = SLEEPING ∧ chan p = c)) as [H|H].
  - rewrite decide_False; [done|]. cbn. by intros [? _].
  - by rewrite decide_False.
Qed.

Lemma wakeup1_idemp (c : wchan) (t : list proc) :
  wakeup1 c (wakeup1 c t) = wakeup1 c t.
Proof.
  unfold wakeup1. rewrite <- list_fmap_compose. apply list_fmap_ext.
  intros _ p _. apply wake_idemp.
Qed.

(** C8. wakeup(chan) makes every record that is SLEEPING on [chan]
    RUNNABLE, every one of them and not only the first: the state of such
    a record becomes RUNNABLE and each of its other fields is as it was.
    Every other record, and the rest of the kernel state, is as it was. *)
Theorem wakeup_broadcast (c : wchan) (s : kstate) (i : nat) (p : proc) :
  ptable s !! i = Some p →
  (state p = SLEEPING ∧ chan p = c →
     ∃ q, ptable (wakeup c s) !! i = Some q ∧ state q = RUNNABLE ∧
          killed q = killed p ∧ kstack q = kstack p ∧ pid q = pid p ∧
          parent q = parent p ∧ name q = name p ∧ Records.others_kept p q) ∧
  (¬ (state p = SLEEPING ∧ chan p = c) →
     ptable (wakeup c s) !! i = Some p) ∧
  length (ptable (wakeup c s)) = length (ptable s) ∧
  nextpid (wakeup c s) = nextpid s ∧ initproc (wakeup c s) = initproc s ∧
  umem (wakeup c s) = umem s ∧ trace (wakeup c s) = trace s.
Proof.
  intros Hp. cbn [wakeup set_ptable ptable nextpid initproc umem trace].
  rewrite wakeup1_lookup, Hp, wakeup1_length. cbn. unfold wake.
  split_and!; try done.
  - intros H. rewrite decide_True by done. eexists. split; [reflexivity|].
    unfold Records.others_kept. by cbn.
  - intros H. by rewrite decide_False.
Qed.

Lemma wakeup_broadcast_witness :
  ptable Records.busy !! 2%nat = Some Records.cat_rec ∧
  ptable Records.busy !! 3%nat = Some Records.wc_rec ∧
  ptable Records.busy !! 4%nat = Some Records.ls_rec ∧
  state Records.cat_rec = SLEEPING ∧ chan Records.cat_rec = CAddr 7 ∧
  state Records.wc_rec = SLEEPING ∧ chan Records.wc_rec = CAddr 7 ∧
  state Records.ls_rec = SLEEPING ∧ chan Records.ls_rec = CAddr 8 ∧
  (∃ q, ptable (wakeup (CAddr 7) Records.busy) !! 2%nat = Some q ∧
        state q = RUNNABLE ∧ killed q = 0 ∧ pid q = 3 ∧ chan q = CAddr 7) ∧
  (∃ q, ptable (wakeup (CAddr 7) Records.busy) !! 3%nat = Some q ∧
        state q = RUNNABLE ∧ killed q = 0 ∧ pid q = 4 ∧ chan q = CAddr 7) ∧
  ptable (wakeup (CAddr 7) Records.busy) !! 4%nat = Some Records.ls_rec.
Proof.
  do 9 (split; [reflexivity|]). split; [|split].
  - destruct (proj1 (wakeup_broadcast (CAddr 7) Records.busy 2 Records.cat_rec
                       eq_refl) (conj eq_refl eq_refl))
      as (q & Hq & Hst & Hk & _ & Hpid & _ & _ & Hrest).
    exists q. split_and!; [exact Hq|exact Hst|exact Hk|exact Hpid|].
    exact (proj1 (proj2 (proj2 (proj2 (proj2 Hrest))))).
  - destruct (proj1 (wakeup_broadcast (CAddr 7) Records.busy 3 Records.wc_rec
                       eq_refl) (conj eq_refl eq_refl))
      as (q & Hq & Hst & Hk & _ & Hpid & _ & _ & Hrest).
    exists q. split_and!; [exact Hq|exact Hst|exact Hk|exact Hpid|].
    exact (proj1 (proj2 (proj2 (proj2 (proj2 Hrest))))).
  - apply (wakeup_broadcast (CAddr 7) Records.busy 4 Records.ls_rec eq_refl).
    intros [_ H]. discriminate H.
Defined.

(** ** kill *)

Lemma kill_mark_eq (p : proc) :
  kill_mark p =
    if decide (state p = SLEEPING) then set_state RUNNABLE (set_killed 1 p)
    else set_killed 1 p.
Proof. reflexivity. Qed.

Lemma kill_found (pid0 : Z) (s : kstate) (i : nat) (p : proc) :
  ptable s !! i = Some p → pid p = pid0 →
  (∀ j q, ptable s !! j = Some q → (j < i)%nat → pid q ≠ pid0) →
  kill pid0 s = (0, upd i kill_mark s).
Proof.
  intros Hp Hpid Hfirst. unfold kill.
  by rewrite (first_found (λ p, pid p = pid0) (ptable s) i p Hp Hpid Hfirst).
Qed.

Lemma kill_absent (pid0 : Z) (s : kstate) :
  (∀ p, p ∈ ptable s → pid p ≠ pid0) → kill pid0 s = (-1, s).
Proof.
  intros H. unfold kill.
  assert (list_find (λ p, pid p = pid0) (ptable s) = None) as ->; [|done].
  apply list_find_None, Forall_forall. done.
Qed.

(** C6. If some record carries the pid, kill takes the first such
    record: its killed flag becomes 1, its state becomes RUNNABLE when it
    was SLEEPING and is as it was otherwise, each of its other fields is
    as it was; no other record and nothing else in the kernel state
    changes, and kill answers 0. If no record carries the pid, kill
    answers -1 and the state is untouched. *)
Theorem kill_spec (pid0 : Z) (s : kstate) :
  ((∃ p, p ∈ ptable s ∧ pid p = pid0) →
   ∃ i p q, ptable s !! i = Some p ∧ pid p = pid0 ∧
     (∀ j r, ptable s !! j = Some r → (j < i)%nat → pid r ≠ pid0) ∧
     (kill pid0 s).1 = 0 ∧
     ptable (kill pid0 s).2 !! i = Some q ∧
     killed q = 1 ∧
     (state p = SLEEPING → state q = RUNNABLE) ∧
     (state p ≠ SLEEPING → state q = state p) ∧
     kstack q = kstack p ∧ pid q = pid p ∧ parent q = parent p ∧
     name q = name p ∧ Records.others_kept p q ∧
     (∀ j, j ≠ i → ptable (kill pid0 s).2 !! j = ptable s !! j) ∧
     length (ptable (kill pid0 s).2) = length (ptable s) ∧
     nextpid (kill pid0 s).2 = nextpid s ∧
     initproc (kill pid0 s).2 = initproc s ∧
     umem (kill pid0 s).2 = umem s ∧ trace (kill pid0 s).2 = trace s) ∧
  ((∀ p, p ∈ ptable s → pid p ≠ pid0) → kill pid0 s = (-1, s)).
Proof.
  split; [|apply kill_absent].
  intros Hex%Exists_exists.
  destruct (first_such (λ p, pid p = pid0) (ptable s) Hex)
    as (i & p & Hp & Hpid & Hfirst).
  exists i, p, (kill_mark p). rewrite (kill_found _ _ _ _ Hp Hpid Hfirst).
  cbn [fst snd upd set_ptable ptable nextpid initproc umem trace].
  rewrite list_lookup_alter_eq, Hp, length_alter. cbn [fmap option_fmap option_map].
  unfold Records.others_kept. rewrite kill_mark_eq.
  split_and!; try done; try (by case_decide).
  intros j Hj. by rewrite list_lookup_alter_ne.
Qed.

Lemma kill_spec_witness :
  (∃ p, p ∈ ptable Records.busy ∧ pid p = 3) ∧
  (∃ q, ptable Records.busy !! 2%nat = Some Records.cat_rec ∧
        state Records.cat_rec = SLEEPING ∧ killed Records.cat_rec = 0 ∧
        (kill 3 Records.busy).1 = 0 ∧
        ptable (kill 3 Records.busy).2 !! 2%nat = Some q ∧
        killed q = 1 ∧ state q = RUNNABLE ∧ pid q = 3) ∧
  (∃ p, p ∈ ptable Records.busy ∧ pid p = 2) ∧
  (∃ q, ptable Records.busy !! 1%nat = Some Records.sh_rec ∧
        state Records.sh_rec = RUNNING ∧ killed Records.sh_rec = 0 ∧
        (kill 2 Records.busy).1 = 0 ∧
        ptable (kill 2 Records.busy).2 !! 1%nat = Some q ∧
        killed q = 1 ∧ state q = RUNNING ∧ pid q = 2) ∧
  (∀ p, p ∈ ptable Records.busy → pid p ≠ 99) ∧
  kill 99 Records.busy = (-1, Records.busy).
Proof.
  assert (∃ p, p ∈ ptable Records.busy ∧ pid p = 3) as H3.
  { exists Records.cat_rec. split; [|reflexivity]. apply list_elem_of_lookup.
    exists 2%nat. reflexivity. }
  assert (∃ p, p ∈ ptable Records.busy ∧ pid p = 2) as H2.
  { exists Records.sh_rec. split; [|reflexivity]. apply list_elem_of_lookup.
    exists 1%nat. reflexivity. }
  assert (∀ p, p ∈ ptable Records.busy → pid p ≠ 99) as H99.
  { apply Forall_forall. repeat constructor; by vm_compute. }
  assert (∀ (i : nat) (p : proc) (pid0 : Z),
            ptable Records.busy !! i = Some p → pid p = pid0 →
            (pid0 = 3 → i = 2%nat) ∧ (pid0 = 2 → i = 1%nat)) as Hat.
  { intros [|[|[|[|[|[|i]]]]]] p pid0 Hp <-; cbn in Hp; [injection Hp as <-..|done];
      cbn; split; intros; done. }
  split_and!; [exact H3| |exact H2| |exact H99|].
  - destruct (proj1 (kill_spec 3 Records.busy) H3)
      as (i & p & q & Hp & Hpid & _ & Hr & Hq & Hk & Hs & _ & _ & Hpq & _).
    destruct (Hat i p 3 Hp Hpid) as [Hi _]. pose proof (Hi eq_refl) as ->.
    injection Hp as <-. exists q.
    split_and!; [reflexivity|reflexivity|reflexivity|exact Hr|exact Hq|exact Hk|
                 by apply Hs|exact Hpq].
  - destruct (proj1 (kill_spec 2 Records.busy) H2)
      as (i & p & q & Hp & Hpid & _ & Hr & Hq & Hk & _ & Hs & _ & Hpq & _).
    destruct (Hat i p 2 Hp Hpid) as [_ Hi]. pose proof (Hi eq_refl) as ->.
    injection Hp as <-. exists q.
    split_and!; [reflexivity|reflexivity|reflexivity|exact Hr|exact Hq|exact Hk|
                 by rewrite Hs|exact Hpq].
  - exact (proj2 (kill_spec 99 Records.busy) H99).
Defined.

(** C10, as the code has it. kill takes the first record, in table
    order, whose pid is the argument, whatever the state of the record: it
    sets its killed flag to 1, leaves the state of a record that is not
    SLEEPING as it was, an UNUSED record UNUSED in particular, touches no
    other record and answers 0. So kill(0) on a table whose first record
    with pid 0 is an UNUSED slot marks that slot and answers 0. *)
Theorem kill_first_pid_match (pid0 : Z) (s : kstate) (i : nat) (p : proc) :
  ptable s !! i = Some p → pid p = pid0 →
  (∀ j q, ptable s !! j = Some q → (j < i)%nat → pid q ≠ pid0) →
  (kill pid0 s).1 = 0 ∧
  ptable (kill pid0 s).2 !! i = Some (kill_mark p) ∧
  killed (kill_mark p) = 1 ∧
  (state p ≠ SLEEPING → state (kill_mark p) = state p) ∧
  (state p = UNUSED → state (kill_mark p) = UNUSED) ∧
  (∀ j, j ≠ i → ptable (kill pid0 s).2 !! j = ptable s !! j).
Proof.
  intros Hp Hpid Hfirst. rewrite (kill_found _ _ _ _ Hp Hpid Hfirst).
  cbn [fst snd upd set_ptable ptable]. rewrite list_lookup_alter_eq, Hp.
  split_and!; try done.
  - rewrite kill_mark_eq. by case_decide.
  - intros Hst. rewrite kill_mark_eq. by rewrite decide_False.
  - intros Hst. rewrite kill_mark_eq. rewrite decide_False by congruence. done.
  - intros j Hj. by rewrite list_lookup_alter_ne.
Qed.

Lemma kill_first_pid_match_witness :
  ptable Fixtures.cloner !! 2%nat = Some proc0 ∧ pid proc0 = 0 ∧
  state proc0 = UNUSED ∧
  (kill 0 Fixtures.cloner).1 = 0 ∧
  ptable (kill 0 Fixtures.cloner).2 !! 2%nat = Some (kill_mark proc0) ∧
  killed (kill_mark proc0) = 1 ∧ state (kill_mark proc0) = UNUSED.
Proof.
  destruct (kill_first_pid_match 0 Fixtures.cloner 2 proc0)
    as (H1 & H2 & H3 & _ & H4 & _).
  - reflexivity.
  - reflexivity.
  - intros [|[|j]] q Hq Hj; cbn in Hq; [by injection Hq as <-..|lia].
  - split_and!; [reflexivity|reflexivity|reflexivity|exact H1|exact H2|exact H3|].
    by apply H4.
Defined.

(** C10, as stated, fails: [full_but_one] has an UNUSED slot, the last
    one, which keeps the pid 64 it was given before its allocation was
    rolled back; no record has pid 0 and kill(0) answers -1. *)
Lemma kill_zero_misses_rolled_back_slot :
  state (slot 63 (ptable Fixtures.full_but_one)) = UNUSED ∧
  pid (slot 63 (ptable Fixtures.full_but_one)) = 64 ∧
  kill 0 Fixtures.full_but_one = (-1, Fixtures.full_but_one).
Proof. split_and!; by vm_compute. Qed.

(** ** Lottery scheduler *)

Lemma cumulative_0 (p : proc) (t : list proc) :
  cumulative (p :: t) 0 = if decide (state p = RUNNABLE) then tickets p else 0.
Proof. unfold cumulative. cbn. rewrite take_0. cbn. lia. Qed.

Lemma cumulative_S (p : proc) (t : list proc) (j : nat) :
  cumulative (p :: t) (S j) =
    (if decide (state p = RUNNABLE) then tickets p else 0) + cumulative t j.
Proof. reflexivity. Qed.

Lemma cumulative_last (t : list proc) (j : nat) :
  (length t ≤ S j)%nat → cumulative t j = runnable_total t.
Proof. intros H. unfold cumulative. by rewrite take_ge. Qed.

Lemma no_overflow_lt (t : list proc) (j : nat) :
  no_overflow t → (j < length t)%nat → in_int (cumulative t j).
Proof.
  unfold no_overflow. rewrite Forall_forall. intros H Hj.
  apply H, elem_of_seq. lia.
Qed.

Lemma sums_fit_tail (c0 : Z) (p : proc) (t : list proc) :
  sums_fit c0 (p :: t) →
  sums_fit (c0 + if decide (state p = RUNNABLE) then tickets p else 0) t.
Proof.
  intros H j Hj. specialize (H (S j)). rewrite cumulative_S in H.
  cbn in H. replace (c0 + _ + cumulative t j) with
    (c0 + ((if decide (state p = RUNNABLE) then tickets p else 0) + cumulative t j))
    by lia.
  apply H. lia.
Qed.

Lemma sums_fit_head (c0 : Z) (p : proc) (t : list proc) :
  sums_fit c0 (p :: t) → state p = RUNNABLE → in_int (c0 + tickets p).
Proof.
  intros H Hp. specialize (H 0%nat). rewrite cumulative_0 in H.
  rewrite decide_True in H by done. apply H. cbn. lia.
Qed.

Lemma runnable_total_nonneg (t : list proc) :
  Forall (λ p, state p = RUNNABLE → 0 ≤ tickets p) t → 0 ≤ runnable_total t.
Proof.
  induction 1 as [|p t Hp _ IH]; cbn; [done|].
  case_decide; [specialize (Hp ltac:(done))|]; lia.
Qed.

Lemma runnable_total_take (t : list proc) (n : nat) :
  Forall (λ p, state p = RUNNABLE → 0 ≤ tickets p) t →
  0 ≤ runnable_total (take n t) ≤ runnable_total t.
Proof.
  intros Hpos. revert n. induction Hpos as [|p t Hp Hpos IH]; intros n.
  - by rewrite take_nil.
  - destruct n as [|n]; cbn.
    + pose proof (runnable_total_nonneg t Hpos).
      case_decide; [specialize (Hp ltac:(done))|]; lia.
    + specialize (IH n).
      case_decide; [specialize (Hp ltac:(done))|]; lia.
Qed.

(** Tickets are positive weights: when the tickets of the RUNNABLE
    records are not negative and their sum fits in an [int], no running
    sum of the pass overflows. *)
Lemma no_overflow_positive (t : list proc) :
  Forall (λ p, state p = RUNNABLE → 0 ≤ tickets p) t →
  runnable_total t ≤ INT_MAX → no_overflow t.
Proof.
  intros Hpos Hmax. apply Forall_forall. intros i _.
  pose proof (runnable_total_take t (S i) Hpos).
  unfold in_int, INT_MIN, cumulative. split; lia.
Qed.

Lemma no_overflow_sums_fit (t : list proc) : no_overflow t → sums_fit 0 t.
Proof.
  intros H j Hj. rewrite Z.add_0_l. by apply no_overflow_lt.
Qed.

Lemma tickets_sum_from_total (t : list proc) (c0 : Z) :
  sums_fit c0 t → tickets_sum_from t c0 = c0 + runnable_total t.
Proof.
  revert c0. induction t as [|p t IH]; intros c0 Hfit; cbn.
  - lia.
  - pose proof (sums_fit_tail _ _ _ Hfit) as Htl.
    destruct (decide (state p = RUNNABLE)) as [Hp|Hp].
    + rewrite (to_int_id _ (sums_fit_head _ _ _ Hfit Hp)).
      rewrite (IH _ Htl). lia.
    + rewrite Z.add_0_r in Htl. rewrite (IH _ Htl). lia.
Qed.

Section Pass.

(** The number drawn for the pass. *)
Variable winner : Z.

Lemma scheduler_scan_spec (t : list proc) (i0 : nat) (c0 : Z) (k : nat) :
  sums_fit c0 t →
  scheduler_scan winner t i0 c0 = Some k ↔
  ∃ j p, k = (i0 + j)%nat ∧ t !! j = Some p ∧ state p = RUNNABLE ∧
         winner ≤ c0 + cumulative t j ∧
         ∀ j' q, (j' < j)%nat → t !! j' = Some q → state q = RUNNABLE →
                 c0 + cumulative t j' < winner.
Proof.
  revert i0 c0 k.
  induction t as [|p t IH]; intros i0 c0 k Hfit; cbn [scheduler_scan].
  - split; [done|]. intros (j & q & _ & Hq & _). done.
  - pose proof (sums_fit_tail _ _ _ Hfit) as Htl.
    destruct (decide (state p ≠ RUNNABLE)) as [Hp|Hp].
    + rewrite decide_False in Htl by done. rewrite Z.add_0_r in Htl.
      rewrite (IH (S i0) c0 k Htl). split.
      * intros (j & q & Hk & Hq & Hst & Hw & Hlt).
        exists (S j), q. rewrite cumulative_S, decide_False by done.
        split_and!; [lia|done|done|lia|].
        intros [|j'] q' Hj' Hq' Hst'; cbn in Hq'; [congruence|].
        rewrite cumulative_S, decide_False by done.
        specialize (Hlt j' q' ltac:(lia) Hq' Hst'). lia.
      * intros (j & q & Hk & Hq & Hst & Hw & Hlt).
        destruct j as [|j]; cbn in Hq; [congruence|].
        exists j, q. rewrite cumulative_S, decide_False in Hw by done.
        split_and!; [lia|done|done|lia|].
        intros j' q' Hj' Hq' Hst'.
        specialize (Hlt (S j') q' ltac:(lia) Hq' Hst').
        rewrite cumulative_S, decide_False in Hlt by done. lia.
    + assert (state p = RUNNABLE) as Hr by (by destruct (decide (state p = RUNNABLE))).
      rewrite decide_True in Htl by done.
      rewrite (to_int_id _ (sums_fit_head _ _ _ Hfit Hr)).
      destruct (decide (c0 + tickets p < winner)) as [Hlow|Hhigh].
      * rewrite (IH (S i0) _ k Htl). split.
        -- intros (j & q & Hk & Hq & Hst & Hw & Hlt).
           exists (S j), q. rewrite cumulative_S, decide_True by done.
           split_and!; [lia|done|done|lia|].
           intros [|j'] q' Hj' Hq' Hst'; cbn in Hq'.
           ++ rewrite cumulative_0, decide_True by done. done.
           ++ rewrite cumulative_S, decide_True by done.
              specialize (Hlt j' q' ltac:(lia) Hq' Hst'). lia.
        -- intros (j & q & Hk & Hq & Hst & Hw & Hlt).
           destruct j as [|j]; cbn in Hq.
           ++ rewrite cumulative_0, decide_True in Hw by done. lia.
           ++ exists j, q. rewrite cumulative_S, decide_True in Hw by done.
              split_and!; [lia|done|done|lia|].
              intros j' q' Hj' Hq' Hst'.
              specialize (Hlt (S j') q' ltac:(lia) Hq' Hst').
              rewrite cumulative_S, decide_True in Hlt by done. lia.
      * split.
        -- intros [= <-]. exists 0%nat, p.
           rewrite cumulative_0, decide_True by done.
           split_and!; [lia|done|done|lia|]. intros; lia.
        -- intros (j & q & Hk & Hq & Hst & Hw & Hlt).
           destruct j as [|j]; [f_equal; lia|].
           specialize (Hlt 0%nat p ltac:(lia) eq_refl Hr).
           rewrite cumulative_0, decide_True in Hlt by done. lia.
Qed.

(** The scheduler only ever chooses a RUNNABLE slot, whatever the
    counters do. *)
Lemma scheduler_scan_runnable (t : list proc) (i0 : nat) (c0 : Z) (k : nat) :
  scheduler_scan winner t i0 c0 = Some k →
  ∃ j p, k = (i0 + j)%nat ∧ t !! j = Some p ∧ state p = RUNNABLE.
Proof.
  revert i0 c0. induction t as [|p t IH]; intros i0 c0; cbn [scheduler_scan]; [done|].
  destruct (decide (state p ≠ RUNNABLE)) as [Hp|Hp].
  - intros (j & q & -> & Hq & Hst)%IH. exists (S j), q. split_and!; [lia|done|done].
  - case_decide.
    + intros (j & q & -> & Hq & Hst)%IH. exists (S j), q. split_and!; [lia|done|done].
    + intros [= <-]. exists 0%nat, p. split_and!; [lia|done|].
      by destruct (decide (state p = RUNNABLE)).
Qed.

End Pass.

(** C3, as the code has it. In every pass a record in a state other
    than RUNNABLE, EMBRYO in particular, is not dispatched, and the slot
    dispatched is the one marked RUNNING. In a pass whose running sums of
    the tickets of the RUNNABLE records, in table order, fit in an [int],
    [tickets_sum] is the sum of the tickets of exactly the RUNNABLE
    records, and for the winner drawn from it the pass dispatches slot [i]
    exactly when [i] is the first RUNNABLE slot, in table order, whose
    cumulative count of RUNNABLE tickets reaches the winner. *)
Theorem scheduler_picks_first_cumulative (random_at_most : Z → Z)
    (run : nat → kstate → kstate) (s : kstate) :
  let t := ptable s in
  let winner := random_at_most (tickets_sum t) in
  (∀ i p, t !! i = Some p → state p ≠ RUNNABLE →
          (scheduler_pass random_at_most run s).1 ≠ Some i) ∧
  (∀ i, (scheduler_pass random_at_most run s).1 = Some i →
        state (slot i (ptable (upd i (set_state RUNNING) s))) = RUNNING ∧
        (scheduler_pass random_at_most run s).2 =
          upd i (λ p, set_ticks (to_int (ticks p + 1)) p)
            (run i (upd i (set_state RUNNING) s))) ∧
  (no_overflow t →
   tickets_sum t = runnable_total t ∧
   ∀ i, (scheduler_pass random_at_most run s).1 = Some i ↔
        ∃ p, t !! i = Some p ∧ state p = RUNNABLE ∧ winner ≤ cumulative t i ∧
             ∀ j q, (j < i)%nat → t !! j = Some q → state q = RUNNABLE →
                    cumulative t j < winner).
Proof.
  intros t winner.
  assert (∀ i, (scheduler_pass random_at_most run s).1 = Some i ↔
               scheduler_scan winner t 0 0 = Some i) as Hpass.
  { intros i. unfold scheduler_pass. fold t. fold winner.
    destruct (scheduler_scan winner t 0 0); cbn; done. }
  split_and!.
  - intros i p Hp Hst. rewrite Hpass.
    intros (j & q & -> & Hq & Hst')%scheduler_scan_runnable.
    cbn [Nat.add] in Hp. congruence.
  - intros i Hi. split.
    + apply Hpass in Hi.
      apply scheduler_scan_runnable in Hi as (j & q & -> & Hq & _).
      cbn [Nat.add]. unfold slot, upd. cbn [set_ptable ptable]. fold t.
      by rewrite list_lookup_alter_eq, Hq.
    + revert Hi. unfold scheduler_pass. fold t. fold winner.
      destruct (scheduler_scan winner t 0 0); cbn; [|done]. by intros [= ->].
  - intros Hno. pose proof (no_overflow_sums_fit _ Hno) as Hfit. split.
    + unfold tickets_sum. rewrite (tickets_sum_from_total _ _ Hfit). lia.
    + intros i. rewrite Hpass.
      rewrite (scheduler_scan_spec winner t 0 0 i Hfit). split.
      * intros (j & p & -> & Hp & Hst & Hw & Hlt). cbn [Nat.add]. exists p.
        split_and!; [done|done|lia|].
        intros j' q Hj' Hq Hst'. specialize (Hlt j' q Hj' Hq Hst'). lia.
      * intros (p & Hp & Hst & Hw & Hlt). exists i, p.
        split_and!; [done|done|done|lia|].
        intros j' q Hj' Hq Hst'. specialize (Hlt j' q Hj' Hq Hst'). lia.
Qed.

Lemma lottery_no_overflow : no_overflow (ptable Fixtures.lottery).
Proof.
  apply no_overflow_positive; [|by vm_compute].
  repeat constructor; by vm_compute.
Qed.

Lemma scheduler_picks_first_cumulative_witness :
  no_overflow (ptable Fixtures.lottery) ∧
  tickets_sum (ptable Fixtures.lottery) = 12 ∧
  cumulative (ptable Fixtures.lottery) 1 = 5 ∧
  cumulative (ptable Fixtures.lottery) 3 = 9 ∧
  (scheduler_pass (λ _, 9) (λ _ s, s) Fixtures.lottery).1 = Some 3%nat ∧
  (scheduler_pass (λ _, 9) (λ _ s, s) Fixtures.lottery).1 ≠ Some 2%nat.
Proof.
  destruct (scheduler_picks_first_cumulative (λ _, 9) (λ _ s, s) Fixtures.lottery)
    as (Hnot & _ & Hfit).
  destruct (Hfit lottery_no_overflow) as (Hsum & Hiff).
  split_and!.
  - exact lottery_no_overflow.
  - rewrite Hsum. reflexivity.
  - reflexivity.
  - reflexivity.
  - apply Hiff. eexists. split_and!; [reflexivity|reflexivity|by vm_compute|].
    intros [|[|[|j]]] q Hj Hq Hst; cbn in Hq; simplify_eq; try done; lia.
  - eapply Hnot; [reflexivity|done].
Defined.

(** C3, as stated, fails: the claim speaks of every pass, but the sums
    are computed in an [int] ([long] has the same 32 bits on the i386 of
    xv6). In [greedy] the four records are RUNNABLE and hold 1, 2^31 - 1,
    2^31 - 1 and 5 tickets, 4294967300 in all; [tickets_sum] answers 4, and
    for the winner 3 the pass dispatches slot 3 although slot 1 is the
    first whose cumulative count, 2^31, reaches the winner. *)
Theorem scheduler_sums_wrap :
  let t := ptable Records.greedy in
  state <$> t = [RUNNABLE; RUNNABLE; RUNNABLE; RUNNABLE] ∧
  tickets <$> t = [1; INT_MAX; INT_MAX; 5] ∧
  runnable_total t = 4294967300 ∧ tickets_sum t = 4 ∧
  cumulative t 0 = 1 ∧ cumulative t 1 = 2147483648 ∧
  (scheduler_pass (λ _, 3) (λ _ s, s) Records.greedy).1 = Some 3%nat ∧
  ¬ (∀ i, (scheduler_pass (λ _, 3) (λ _ s, s) Records.greedy).1 = Some i ↔
          ∃ p, t !! i = Some p ∧ state p = RUNNABLE ∧ 3 ≤ cumulative t i ∧
               ∀ j q, (j < i)%nat → t !! j = Some q → state q = RUNNABLE →
                      cumulative t j < 3).
Proof.
  intros t. split_and!; try (by vm_compute).
  intros H. specialize (H 1%nat). destruct H as [_ H].
  assert ((scheduler_pass (λ _, 3) (λ _ s, s) Records.greedy).1 = Some 3%nat)
    as H3 by (by vm_compute).
  rewrite H3 in H. enough (Some 3%nat = Some 1%nat) by done.
  apply H. exists (set_tickets INT_MAX (Records.spin_rec 3)).
  split_and!; [by vm_compute|done|by vm_compute|].
  intros [|j] q Hj Hq Hst; [by vm_compute|lia].
Qed.

(** ** exit *)

Section Reparenting.

(** The caller of [exit] and the root record. *)
Variables (cur : nat) (init : option nat).

Lemma reparent_state (p : proc) :
  state (reparent cur init p) = state p.
Proof. unfold reparent. by case_decide. Qed.

Lemma reparent_chan (p : proc) :
  chan (reparent cur init p) = chan p.
Proof. unfold reparent. by case_decide. Qed.

Lemma reparent_parent (p : proc) :
  parent p = Some cur → parent (reparent cur init p) = init.
Proof. intros H. unfold reparent. by rewrite decide_True. Qed.

Lemma wake_reparent (c : wchan) (p : proc) :
  reparent cur init (wake c p) = wake c (reparent cur init p).
Proof.
  unfold reparent. rewrite wake_parent.
  case_decide; [|done]. by rewrite wake_set_parent.
Qed.

Lemma wakeup1_reparent (c : wchan) (t : list proc) :
  reparent cur init <$> wakeup1 c t = wakeup1 c (reparent cur init <$> t).
Proof.
  unfold wakeup1. rewrite <- !list_fmap_compose. apply list_fmap_ext.
  intros _ p _. apply wake_reparent.
Qed.

Lemma wakeup1_zombie_child (c : wchan) (t : list proc) :
  Exists (zombie_child cur) (wakeup1 c t) ↔ Exists (zombie_child cur) t.
Proof.
  unfold wakeup1. rewrite Exists_fmap, !Exists_exists.
  apply exist_proper. intros p. unfold zombie_child. cbn.
  by rewrite wake_parent, wake_zombie.
Qed.

Lemma zombie_child_alter (f : proc → proc) (i : nat) (t : list proc) :
  (∀ p, parent (f p) = parent p) → (∀ p, state (f p) = state p) →
  Exists (zombie_child cur) (alter f i t) ↔ Exists (zombie_child cur) t.
Proof.
  intros Hpar Hst. rewrite !Exists_lookup. split.
  - intros (j & p & Hj & HP). rewrite list_lookup_alter in Hj.
    destruct (decide (i = j)) as [->|Hne]; [|eauto].
    destruct (t !! j) as [q|] eqn:Hq; [|done]. injection Hj as <-.
    exists j, q. split; [done|]. unfold zombie_child in *.
    by rewrite Hpar, Hst in HP.
  - intros (j & p & Hj & HP). destruct (decide (i = j)) as [->|Hne].
    + exists j, (f p). rewrite list_lookup_alter_eq, Hj. split; [done|].
      unfold zombie_child in *. by rewrite Hpar, Hst.
    + exists j, p. by rewrite list_lookup_alter_ne.
Qed.

Lemma exit_reparent_shift (n : nat)
    (pre suf : list proc) (x : proc) :
  exit_reparent n (S (length pre)) cur init (pre ++ x :: suf) =
  exit_reparent n (length (pre ++ [x])) cur init ((pre ++ [x]) ++ suf).
Proof.
  rewrite length_app. cbn [length]. rewrite Nat.add_1_r.
  by rewrite <- app_assoc.
Qed.

(** The loop of [exit] in closed form: every child is handed to init, and
    the sleepers on init are woken when one of the children still to be
    visited is a ZOMBIE. *)
Lemma exit_reparent_closed (n : nat) :
  ∀ pre suf, length suf = n →
  exit_reparent n (length pre) cur init (pre ++ suf) =
    if decide (Exists (zombie_child cur) suf)
    then wakeup1 (chan_of init) (pre ++ (reparent cur init <$> suf))
    else pre ++ (reparent cur init <$> suf).
Proof.
  induction n as [|n IH]; intros pre suf Hlen.
  - destruct suf; [|done]. cbn. rewrite decide_False; [done|].
    by intros H%Exists_nil.
  - destruct suf as [|p suf]; [done|]. cbn [exit_reparent].
    injection Hlen as Hlen. rewrite slot_app_r.
    destruct (decide (parent p = Some cur)) as [Hpar|Hpar].
    + rewrite alter_middle, slot_app_r.
      assert (reparent cur init p = set_parent init p) as Hrp
        by (unfold reparent; by rewrite decide_True).
      cbn [state set_parent].
      destruct (decide (state p = ZOMBIE)) as [Hz|Hz].
      * rewrite decide_True by (apply Exists_cons_hd; done).
        unfold wakeup1 at 1. rewrite fmap_app, fmap_cons.
        fold (wakeup1 (chan_of init) pre). fold (wakeup1 (chan_of init) suf).
        rewrite (cons_middle _ (wakeup1 _ pre)), app_assoc.
        assert (S (length pre) =
                length (wakeup1 (chan_of init) pre ++ [wake (chan_of init) (set_parent init p)]))
          as -> by (rewrite length_app, wakeup1_length; cbn; lia).
        rewrite IH by (by rewrite wakeup1_length).
        rewrite wakeup1_reparent.
        assert ((wakeup1 (chan_of init) pre ++ [wake (chan_of init) (set_parent init p)])
                ++ wakeup1 (chan_of init) (reparent cur init <$> suf)
                = wakeup1 (chan_of init) (pre ++ (reparent cur init <$> p :: suf))) as ->.
        { unfold wakeup1. rewrite !fmap_app, fmap_cons, Hrp.
          by rewrite <- app_assoc. }
        case_decide; [apply wakeup1_idemp|done].
      * rewrite exit_reparent_shift, IH by done.
        rewrite <- app_assoc. cbn [app fmap list_fmap]. rewrite Hrp.
        destruct (decide (Exists (zombie_child cur) suf)) as [He|He].
        -- rewrite decide_True by (by apply Exists_cons_tl). done.
        -- rewrite decide_False; [done|].
           intros [[_ H]|H]%Exists_cons; done.
    + assert (reparent cur init p = p) as Hrp
        by (unfold reparent; by rewrite decide_False).
      rewrite exit_reparent_shift, IH by done.
      rewrite <- app_assoc. cbn [app fmap list_fmap]. rewrite Hrp.
      destruct (decide (Exists (zombie_child cur) suf)) as [He|He].
      * rewrite decide_True by (by apply Exists_cons_tl). done.
      * rewrite decide_False; [done|].
        intros [[H _]|H]%Exists_cons; done.
Qed.

Lemma exit_reparent_table (t : list proc) :
  exit_reparent (length t) 0 cur init t =
    if decide (Exists (zombie_child cur) t)
    then wakeup1 (chan_of init) (reparent cur init <$> t)
    else reparent cur init <$> t.
Proof. apply (exit_reparent_closed (length t) [] t eq_refl). Qed.

Lemma exit_table_length (t : list proc) :
  length (exit_table cur init t) = length t.
Proof.
  unfold exit_table. rewrite length_alter, exit_reparent_table.
  table_len wakeup1_length.
Qed.

Lemma slot_exit_table (t : list proc) (j : nat) :
  (j < length t)%nat →
  slot j (exit_table cur init t) =
    exit_record cur init (chan_of (parent (slot cur t)))
      (bool_decide (Exists (zombie_child cur) t)) j (slot j t).
Proof.
  intros Hj. unfold exit_table, exit_record.
  set (A1 := λ p : proc, set_ofile ((λ _, 0) <$> ofile p) p).
  set (t2 := alter (set_cwd 0) cur (alter A1 cur t)).
  assert (length t2 = length t) as Hlen2 by (unfold t2; by rewrite !length_alter).
  assert (parent (slot cur t2) = parent (slot cur t)) as ->.
  { unfold t2. by rewrite !(slot_alter_proj parent). }
  set (c := chan_of (parent (slot cur t))).
  assert (Exists (zombie_child cur) (wakeup1 c t2) ↔ Exists (zombie_child cur) t) as Hz.
  { rewrite wakeup1_zombie_child. unfold t2. by rewrite !zombie_child_alter. }
  assert (slot j (reparent cur init <$> wakeup1 c t2) =
          reparent cur init (wake c (if decide (j = cur)
                                     then set_cwd 0 (A1 (slot j t)) else slot j t)))
    as Hmid.
  { rewrite slot_fmap by (by rewrite wakeup1_length, Hlen2).
    unfold wakeup1. rewrite slot_fmap by lia. do 2 f_equal. unfold t2.
    destruct (decide (j = cur)) as [->|Hne].
    - rewrite slot_alter_eq by (by rewrite length_alter).
      by rewrite slot_alter_eq.
    - by rewrite !slot_alter_ne. }
  rewrite exit_reparent_table.
  assert (slot j (if decide (Exists (zombie_child cur) (wakeup1 c t2))
                  then wakeup1 (chan_of init) (reparent cur init <$> wakeup1 c t2)
                  else reparent cur init <$> wakeup1 c t2) =
          (let p2 := reparent cur init (wake c (if decide (j = cur)
                                     then set_cwd 0 (A1 (slot j t)) else slot j t)) in
           if bool_decide (Exists (zombie_child cur) t)
           then wake (chan_of init) p2 else p2)) as Hfin.
  { cbn zeta. destruct (decide (Exists (zombie_child cur) (wakeup1 c t2))) as [He|He].
    - rewrite bool_decide_eq_true_2 by (by apply Hz).
      unfold wakeup1 at 1. rewrite slot_fmap; [by rewrite Hmid|].
      by rewrite length_fmap, wakeup1_length, Hlen2.
    - rewrite bool_decide_eq_false_2 by (by rewrite <- Hz). done. }
  destruct (decide (j = cur)) as [->|Hne].
  - rewrite slot_alter_eq; [by rewrite Hfin|].
    table_len wakeup1_length.
  - rewrite slot_alter_ne by done. by rewrite Hfin.
Qed.

End Reparenting.

Lemma exit_handoff (cur : nat) (s : kstate) :
  Some cur ≠ initproc s → (cur < length (ptable s))%nat →
  ∃ s', ptable s' = exit_table cur (initproc s) (ptable s) ∧
        nextpid s' = nextpid s ∧ initproc s' = initproc s ∧ umem s' = umem s ∧
        ∀ swtch, exit swtch cur s =
          match swtch s' with
          | Some _ => Panic "zombie exit"
          | None => Descheduled s'
          end.
Proof.
  intros Hroot Hcur.
  assert (state (slot cur (exit_table cur (initproc s) (ptable s))) ≠ RUNNING) as Hst.
  { unfold exit_table. rewrite slot_alter_eq; [done|].
    rewrite exit_reparent_table.
    table_len wakeup1_length. }
  eexists. split_and!;
    last (intros swtch; unfold exit; rewrite decide_False by done;
          unfold sched; rewrite decide_False; [reflexivity|exact Hst]).
  all: reflexivity.
Qed.

(** C5. When a process other than init calls exit: every record whose
    parent was the caller has init as its parent afterwards; if one of
    them was already a ZOMBIE, init is RUNNABLE afterwards when it was
    SLEEPING on its own address; the caller's parent is RUNNABLE afterwards
    when it was SLEEPING on its own address; the caller is a ZOMBIE; and
    exit does not return: it hands the processor to the scheduler, which
    never chooses the ZOMBIE, and what follows [sched] is a panic. *)
Theorem exit_spec (cur r : nat) (s : kstate) :
  initproc s = Some r → r ≠ cur → (cur < length (ptable s))%nat →
  ∃ s',
    (∀ swtch, exit swtch cur s =
                match swtch s' with
                | Some _ => Panic "zombie exit"
                | None => Descheduled s'
                end) ∧
    (∀ swtch v s'', exit swtch cur s ≠ Return v s'') ∧
    (∀ i p, ptable s !! i = Some p → parent p = Some cur →
            parent (slot i (ptable s')) = Some r) ∧
    ((∃ i p, ptable s !! i = Some p ∧ parent p = Some cur ∧ state p = ZOMBIE) →
     ∀ p, ptable s !! r = Some p → state p = SLEEPING → chan p = CProc r →
          state (slot r (ptable s')) = RUNNABLE) ∧
    (∀ q p, parent (slot cur (ptable s)) = Some q → q ≠ cur →
            ptable s !! q = Some p → state p = SLEEPING → chan p = CProc q →
            state (slot q (ptable s')) = RUNNABLE) ∧
    state (slot cur (ptable s')) = ZOMBIE ∧
    (∀ winner, scheduler_scan winner (ptable s') 0 0 ≠ Some cur).
Proof.
  intros Hinit Hr Hcur.
  destruct (exit_handoff cur s) as (s' & Ht & _ & _ & _ & Hexit);
    [rewrite Hinit; congruence|done|].
  exists s'. rewrite Ht, Hinit.
  assert (state (slot cur (exit_table cur (Some r) (ptable s))) = ZOMBIE) as Hz.
  { rewrite slot_exit_table by done. unfold exit_record.
    by rewrite decide_True. }
  split_and!.
  - done.
  - intros swtch v s''. rewrite Hexit. by destruct (swtch s').
  - intros i p Hp Hpar. pose proof (lookup_lt_Some _ _ _ Hp) as Hi.
    rewrite slot_exit_table by done. rewrite (slot_lookup _ _ _ Hp).
    unfold exit_record.
    assert (∀ p1, parent p1 = Some cur →
              parent (if bool_decide (Exists (zombie_child cur) (ptable s))
                      then wake (chan_of (Some r))
                             (reparent cur (Some r)
                                (wake (chan_of (parent (slot cur (ptable s)))) p1))
                      else reparent cur (Some r)
                             (wake (chan_of (parent (slot cur (ptable s)))) p1))
              = Some r) as Hgen.
    { intros p1 Hp1. destruct (bool_decide _);
        rewrite ?wake_parent, reparent_parent; by rewrite ?wake_parent. }
    destruct (decide (i = cur)); cbn; by rewrite Hgen.
  - intros (i & p & Hp & Hpar & Hst) p0 Hp0 Hst0 Hch0.
    pose proof (lookup_lt_Some _ _ _ Hp0) as Hlt.
    rewrite slot_exit_table by done. rewrite (slot_lookup _ _ _ Hp0).
    unfold exit_record. rewrite !decide_False by done.
    rewrite bool_decide_eq_true_2.
    2:{ apply Exists_lookup. exists i, p. by split. }
    cbn [chan_of].
    destruct (wake_state (chan_of (parent (slot cur (ptable s)))) p0)
      as [Hsame|(_ & _ & Hrun)].
    + apply wake_sleeper.
      * rewrite reparent_state. congruence.
      * by rewrite reparent_chan, wake_chan.
    + apply wake_runnable. by rewrite reparent_state.
  - intros q p Hq Hne Hp Hst Hch.
    pose proof (lookup_lt_Some _ _ _ Hp) as Hlt.
    rewrite slot_exit_table by done. rewrite (slot_lookup _ _ _ Hp).
    unfold exit_record. rewrite !decide_False by done.
    rewrite Hq. cbn [chan_of].
    assert (state (reparent cur (Some r) (wake (CProc q) p)) = RUNNABLE) as Hrun.
    { rewrite reparent_state. by apply wake_sleeper. }
    destruct (bool_decide _); [by apply wake_runnable|done].
  - done.
  - intros winner Hsel.
    apply scheduler_scan_runnable in Hsel as (j & p & Hj & Hp & Hst).
    cbn in Hj. subst j. rewrite (slot_lookup _ _ _ Hp) in Hz. congruence.
Qed.

Lemma exit_spec_witness :
  initproc Fixtures.leaving = Some 0%nat ∧ 0%nat ≠ 2%nat ∧
  (2 < length (ptable Fixtures.leaving))%nat ∧
  ∃ s', exit (λ _, None) 2 Fixtures.leaving = Descheduled s' ∧
        parent (slot 3 (ptable s')) = Some 0%nat ∧
        parent (slot 4 (ptable s')) = Some 0%nat ∧
        state (slot 0 (ptable s')) = RUNNABLE ∧
        state (slot 1 (ptable s')) = RUNNABLE ∧
        state (slot 2 (ptable s')) = ZOMBIE.
Proof.
  assert (2 < length (ptable Fixtures.leaving))%nat as Hlen by (cbn; lia).
  destruct (exit_spec 2 0 Fixtures.leaving eq_refl ltac:(lia) Hlen)
    as (s' & Hexit & _ & Hchild & Hroot & Hparent & Hz & _).
  split_and!; [reflexivity|lia|exact Hlen|].
  exists s'. split_and!.
  - by rewrite Hexit.
  - by eapply Hchild.
  - by eapply Hchild.
  - eapply Hroot; [|reflexivity..].
    exists 3%nat. eexists. split; [reflexivity|]. split; reflexivity.
  - eapply Hparent; [reflexivity|lia|reflexivity..].
  - exact Hz.
Defined.

(** ** wait *)

Lemma wait_scan_first (cur : nat) (t : list proc) (i0 : nat) (hk : bool)
    (j : nat) (p : proc) :
  t !! j = Some p → zombie_child cur p →
  (∀ j' q, t !! j' = Some q → (j' < j)%nat → ¬ zombie_child cur q) →
  wait_scan cur t i0 hk = (Some (i0 + j)%nat, true).
Proof.
  revert i0 hk j. induction t as [|x t IH]; intros i0 hk j Hj Hz Hfirst; [done|].
  cbn [wait_scan]. destruct j as [|j]; cbn in Hj.
  - injection Hj as ->. destruct Hz as [Hpar Hst].
    rewrite decide_False by (by intros ?). rewrite decide_True by done.
    by rewrite Nat.add_0_r.
  - assert (¬ zombie_child cur x) as Hx by (apply (Hfirst 0%nat); [done|lia]).
    assert (∀ hk', wait_scan cur t (S i0) hk' = (Some (i0 + S j)%nat, true)) as Hrec.
    { intros hk'. rewrite (IH (S i0) hk' j Hj Hz).
      - do 2 f_equal. lia.
      - intros j' q Hq Hlt. apply (Hfirst (S j')); [done|lia]. }
    destruct (decide (parent x ≠ Some cur)); [apply Hrec|].
    destruct (decide (state x = ZOMBIE)) as [Hst|Hst]; [|apply Hrec].
    exfalso. apply Hx. split; [|done]. by destruct (decide (parent x = Some cur)).
Qed.

Lemma wait_scan_none (cur : nat) (t : list proc) (i0 : nat) (hk : bool) :
  ¬ Exists (zombie_child cur) t →
  wait_scan cur t i0 hk =
    (None, hk || bool_decide (Exists (λ p, parent p = Some cur) t)).
Proof.
  revert i0 hk. induction t as [|x t IH]; intros i0 hk Hno; cbn [wait_scan].
  - rewrite bool_decide_eq_false_2 by (by intros H%Exists_nil).
    by rewrite orb_false_r.
  - assert (¬ Exists (zombie_child cur) t) as Hno' by (intros H; apply Hno; by right).
    destruct (decide (parent x ≠ Some cur)) as [Hx|Hx].
    + rewrite IH by done. do 2 f_equal. apply bool_decide_ext.
      rewrite Exists_cons. tauto.
    + assert (parent x = Some cur) as Hpar
        by (by destruct (decide (parent x = Some cur))).
      rewrite decide_False.
      2:{ intros Hst. apply Hno. left. by split. }
      rewrite IH by done. rewrite (bool_decide_eq_true_2 (Exists _ (x :: t))).
      * by rewrite orb_true_r.
      * by left.
Qed.

Lemma wait_reap_eq (i : nat) (s : kstate) (p : proc) :
  ptable s !! i = Some p →
  wait_reap i s =
    (pid p, mkK (alter wait_clear i (ptable s)) (nextpid s) (initproc s) (umem s)
                (trace s ++ [EKfree (kstack p); EFreevm (pgdir p)])).
Proof.
  intros Hp. unfold wait_reap, upd, emit, set_ptable.
  cbn [ptable nextpid initproc umem trace].
  rewrite !(slot_alter_proj pgdir) by done.
  rewrite (slot_lookup _ _ _ Hp). rewrite !list_alter_alter_eq.
  by rewrite <- app_assoc.
Qed.

(** The answer of [wait] when the first ZOMBIE child of the caller is in
    slot [i]. *)
Lemma wait_reaps (swtch : kstate → option kstate) (fuel cur : nat) (s : kstate)
    (i : nat) (p : proc) :
  ptable s !! i = Some p → zombie_child cur p →
  (∀ j q, ptable s !! j = Some q → (j < i)%nat → ¬ zombie_child cur q) →
  wait swtch fuel cur s =
    Return (pid p)
      (mkK (alter wait_clear i (ptable s)) (nextpid s) (initproc s) (umem s)
           (trace s ++ [EKfree (kstack p); EFreevm (pgdir p)])).
Proof.
  intros Hp Hz Hfirst.
  destruct fuel; cbn [wait];
    rewrite (wait_scan_first cur _ 0 false i p Hp Hz Hfirst); cbn [Nat.add];
    by rewrite (wait_reap_eq _ _ _ Hp).
Qed.

(** The answer of [wait] when the caller has no ZOMBIE child and either
    no child at all or its killed flag set. *)
Lemma wait_fails (swtch : kstate → option kstate) (fuel cur : nat) (s : kstate) :
  ¬ Exists (zombie_child cur) (ptable s) →
  ¬ Exists (λ p, parent p = Some cur) (ptable s) ∨ killed (slot cur (ptable s)) ≠ 0 →
  wait swtch fuel cur s = Return (-1) s.
Proof.
  intros Hno Hwhy.
  destruct fuel; cbn [wait]; rewrite (wait_scan_none _ _ _ _ Hno); cbn [orb];
    (rewrite decide_True; [done|]);
    (destruct Hwhy as [Hk|Hk]; [left; by apply bool_decide_eq_false_2|by right]).
Qed.

Lemma wait_clear_not_child (cur : nat) (p : proc) :
  parent (wait_clear p) ≠ Some cur.
Proof. done. Qed.

(** C4, as the code has it. If the caller has a ZOMBIE child, wait
    reclaims the first one in table order: it frees the kernel stack and
    the address space; in the slot, pid becomes 0, parent the null
    pointer, name the empty string, killed 0, the kernel stack 0 and the
    state UNUSED, each other field being as it was; no other record
    changes, and wait answers the pid. The reclaimed slot is no longer a
    child, so when it was the only one the next wait answers -1. If the
    caller has no ZOMBIE child and either no child at all or its killed
    flag set, wait answers -1 and changes nothing. *)
Theorem wait_spec (swtch : kstate → option kstate) (fuel cur : nat) (s : kstate) :
  (Exists (zombie_child cur) (ptable s) →
   ∃ i p q s',
     ptable s !! i = Some p ∧ zombie_child cur p ∧
     (∀ j r, ptable s !! j = Some r → (j < i)%nat → ¬ zombie_child cur r) ∧
     wait swtch fuel cur s = Return (pid p) s' ∧
     trace s' = trace s ++ [EKfree (kstack p); EFreevm (pgdir p)] ∧
     ptable s' !! i = Some q ∧
     pid q = 0 ∧ parent q = None ∧ name q = EmptyString ∧ killed q = 0 ∧
     state q = UNUSED ∧ kstack q = 0 ∧ Records.others_kept p q ∧
     (∀ j, j ≠ i → ptable s' !! j = ptable s !! j) ∧
     length (ptable s') = length (ptable s) ∧
     nextpid s' = nextpid s ∧ initproc s' = initproc s ∧ umem s' = umem s ∧
     ((∀ j r, ptable s !! j = Some r → j ≠ i → parent r ≠ Some cur) →
      wait swtch fuel cur s' = Return (-1) s')) ∧
  (¬ Exists (zombie_child cur) (ptable s) →
   ¬ Exists (λ p, parent p = Some cur) (ptable s) ∨
     killed (slot cur (ptable s)) ≠ 0 →
   wait swtch fuel cur s = Return (-1) s).
Proof.
  split; [|apply wait_fails].
  intros He.
  destruct (first_such (zombie_child cur) (ptable s) He) as (i & p & Hp & Hz & Hfirst).
  exists i, p, (wait_clear p),
    (mkK (alter wait_clear i (ptable s)) (nextpid s) (initproc s) (umem s)
         (trace s ++ [EKfree (kstack p); EFreevm (pgdir p)])).
  cbn [ptable nextpid initproc umem trace].
  split_and!; [done|done|done|by apply wait_reaps|done|..]; try reflexivity.
  - by rewrite list_lookup_alter_eq, Hp.
  - unfold Records.others_kept. by cbn.
  - intros j Hj. by rewrite list_lookup_alter_ne.
  - by rewrite length_alter.
  - intros Honly.
    assert (¬ Exists (λ q, parent q = Some cur) (alter wait_clear i (ptable s)))
      as Hnone.
    { rewrite Exists_lookup. intros (j & q & Hq & Hpar).
      rewrite list_lookup_alter in Hq. destruct (decide (i = j)) as [->|Hne].
      - rewrite Hp in Hq. injection Hq as <-. done.
      - by apply (Honly j q). }
    apply wait_fails; cbn [ptable]; [|by left].
    intros He'. apply Hnone. rewrite Exists_lookup in He' |- *.
    destruct He' as (j & q & Hq & Hpar & _). eauto.
Qed.

Lemma wait_spec_witness :
  Exists (zombie_child 1) (ptable Records.busy) ∧
  (∃ q s',
    ptable Records.busy !! 5%nat = Some Records.grep_rec ∧
    name Records.grep_rec ≠ EmptyString ∧ killed Records.grep_rec = 1 ∧
    wait (λ _, None) 0 1 Records.busy = Return 6 s' ∧
    trace s' = [EKfree 7600; EFreevm 600] ∧
    ptable s' !! 5%nat = Some q ∧
    pid q = 0 ∧ parent q = None ∧ name q = EmptyString ∧ killed q = 0 ∧
    state q = UNUSED ∧ kstack q = 0 ∧ pgdir q = 600 ∧
    ptable s' !! 1%nat = Some Records.sh_rec ∧
    wait (λ _, None) 0 1 s' = Return (-1) s') ∧
  ¬ Exists (zombie_child 3) (ptable Records.busy) ∧
  ¬ Exists (λ p, parent p = Some 3%nat) (ptable Records.busy) ∧
  wait (λ _, None) 0 3 Records.busy = Return (-1) Records.busy.
Proof.
  assert (Exists (zombie_child 1) (ptable Records.busy)) as Hz.
  { apply Exists_lookup. exists 5%nat. eexists. split; [reflexivity|].
    split; reflexivity. }
  assert (¬ Exists (λ p, parent p = Some 3%nat) (ptable Records.busy)) as Hnc.
  { apply Forall_Exists_neg. repeat constructor; by vm_compute. }
  assert (¬ Exists (zombie_child 3) (ptable Records.busy)) as Hnz.
  { intros He. apply Hnc. apply Exists_exists in He as (p & Hin & Hp & _).
    apply Exists_exists. eauto. }
  assert (∀ (i : nat) (p : proc), ptable Records.busy !! i = Some p →
            zombie_child 1 p → i = 5%nat) as Hat.
  { intros [|[|[|[|[|[|i]]]]]] p Hp [Hpar Hst]; cbn in Hp;
      [injection Hp as <-; discriminate..|done|done]. }
  split_and!; [exact Hz| |exact Hnz|exact Hnc|].
  - destruct (proj1 (wait_spec (λ _, None) 0 1 Records.busy) Hz)
      as (i & p & q & s' & Hp & Hzp & _ & Hw & Htr & Hq & H1 & H2 & H3 & H4 &
          H5 & H6 & Hrest & Hothers & _ & _ & _ & _ & Honce).
    pose proof (Hat i p Hp Hzp) as ->. injection Hp as <-.
    exists q, s'.
    split_and!; [reflexivity|discriminate|reflexivity|exact Hw|exact Htr|exact Hq|
                 exact H1|exact H2|exact H3|exact H4|exact H5|exact H6| | |].
    + exact (proj1 (proj2 Hrest)).
    + rewrite Hothers by done. reflexivity.
    + apply Honce.
      intros [|[|[|[|[|[|j]]]]]] r Hr Hj; cbn in Hr; try done;
        injection Hr as <-; discriminate.
  - exact (proj2 (wait_spec (λ _, None) 0 3 Records.busy) Hnz (or_introl Hnc)).
Defined.

(** C4, as stated, fails: a caller whose killed flag is set and who has a
    ZOMBIE child gets the pid of the child, not -1. *)
Lemma wait_killed_caller_still_reaps :
  killed (slot 1 (ptable Fixtures.killed_parent)) = 1 ∧
  (∃ s', wait (λ _, None) 0 1 Fixtures.killed_parent = Return 5 s') ∧
  (∀ s', wait (λ _, None) 0 1 Fixtures.killed_parent ≠ Return (-1) s').
Proof. split_and!; [reflexivity|eexists; reflexivity|]. intros s'. by vm_compute. Qed.

(** ** join *)

Lemma join_scan_first (cur : nat) (pg : Z) (t : list proc) (i0 : nat)
    (hk : bool) (j : nat) (p : proc) :
  t !! j = Some p → thread_of cur pg p ∧ state p = ZOMBIE →
  (∀ j' q, t !! j' = Some q → (j' < j)%nat →
           ¬ (thread_of cur pg q ∧ state q = ZOMBIE)) →
  join_scan cur pg t i0 hk = (Some (i0 + j)%nat, true).
Proof.
  revert i0 hk j. induction t as [|x t IH]; intros i0 hk j Hj Hz Hfirst; [done|].
  cbn [join_scan]. destruct j as [|j]; cbn in Hj.
  - injection Hj as ->. destruct Hz as [[Hpar Hpg] Hst].
    rewrite decide_False by (intros [?|?]; done). rewrite decide_True by done.
    by rewrite Nat.add_0_r.
  - assert (¬ (thread_of cur pg x ∧ state x = ZOMBIE)) as Hx
      by (apply (Hfirst 0%nat); [done|lia]).
    assert (∀ hk', join_scan cur pg t (S i0) hk' = (Some (i0 + S j)%nat, true)) as Hrec.
    { intros hk'. rewrite (IH (S i0) hk' j Hj Hz).
      - do 2 f_equal. lia.
      - intros j' q Hq Hlt. apply (Hfirst (S j')); [done|lia]. }
    destruct (decide (parent x ≠ Some cur ∨ pgdir x ≠ pg)) as [Hc|Hc]; [apply Hrec|].
    destruct (decide (state x = ZOMBIE)) as [Hst|Hst]; [|apply Hrec].
    exfalso. apply Hx. split; [|done]. unfold thread_of.
    destruct (decide (parent x = Some cur)), (decide (pgdir x = pg)); tauto.
Qed.

Lemma join_scan_none (cur : nat) (pg : Z) (t : list proc) (i0 : nat) (hk : bool) :
  ¬ Exists (λ p, thread_of cur pg p ∧ state p = ZOMBIE) t →
  join_scan cur pg t i0 hk =
    (None, hk || bool_decide (Exists (thread_of cur pg) t)).
Proof.
  revert i0 hk. induction t as [|x t IH]; intros i0 hk Hno; cbn [join_scan].
  - rewrite bool_decide_eq_false_2 by (by intros H%Exists_nil).
    by rewrite orb_false_r.
  - assert (¬ Exists (λ p, thread_of cur pg p ∧ state p = ZOMBIE) t) as Hno'
      by (intros H; apply Hno; by right).
    destruct (decide (parent x ≠ Some cur ∨ pgdir x ≠ pg)) as [Hx|Hx].
    + rewrite IH by done. do 2 f_equal. apply bool_decide_ext.
      rewrite Exists_cons. unfold thread_of at 2. tauto.
    + assert (thread_of cur pg x) as Hth.
      { unfold thread_of.
        destruct (decide (parent x = Some cur)), (decide (pgdir x = pg)); tauto. }
      rewrite decide_False.
      2:{ intros Hst. apply Hno. left. by split. }
      rewrite IH by done. rewrite (bool_decide_eq_true_2 (Exists _ (x :: t))).
      * by rewrite orb_true_r.
      * by left.
Qed.

Lemma join_reap_eq (stack : Z) (i : nat) (s : kstate) (p : proc) :
  ptable s !! i = Some p →
  join_reap stack i s =
    (pid p, threadstack p,
     mkK (alter join_clear i (ptable s)) (nextpid s) (initproc s) (umem s)
         (trace s ++ [EKfree (kstack p)])).
Proof.
  intros Hp. unfold join_reap, upd, emit, set_ptable.
  cbn [ptable nextpid initproc umem trace].
  rewrite !(slot_alter_proj threadstack) by done.
  rewrite (slot_lookup _ _ _ Hp). by rewrite !list_alter_alter_eq.
Qed.

(** What [join] does when the first exited thread of the caller is in
    slot [i]: it frees the kernel stack of the thread and nothing else (no
    address space), clears the slot and answers the pid. User memory is
    what it was: the cell [stack] points to is not written. *)
Lemma join_reaps (swtch : kstate → option kstate) (fuel : nat) (stack : Z)
    (cur : nat) (s : kstate) (i : nat) (p : proc) :
  ptable s !! i = Some p →
  thread_of cur (pgdir (slot cur (ptable s))) p ∧ state p = ZOMBIE →
  (∀ j q, ptable s !! j = Some q → (j < i)%nat →
          ¬ (thread_of cur (pgdir (slot cur (ptable s))) q ∧ state q = ZOMBIE)) →
  join swtch fuel stack cur s =
    Return (pid p)
      (mkK (alter join_clear i (ptable s)) (nextpid s) (initproc s) (umem s)
           (trace s ++ [EKfree (kstack p)])).
Proof.
  intros Hp Hz Hfirst.
  destruct fuel; cbn [join];
    rewrite (join_scan_first cur _ _ 0 false i p Hp Hz Hfirst); cbn [Nat.add];
    by rewrite (join_reap_eq _ _ _ _ Hp).
Qed.

(** [join] does not reclaim a child that has an address space of its
    own, ZOMBIE or not: without a thread it answers -1 and changes
    nothing. *)
Lemma join_ignores_children (swtch : kstate → option kstate) (fuel : nat)
    (stack : Z) (cur : nat) (s : kstate) :
  ¬ Exists (thread_of cur (pgdir (slot cur (ptable s)))) (ptable s) →
  join swtch fuel stack cur s = Return (-1) s.
Proof.
  intros Hno.
  assert (¬ Exists (λ p, thread_of cur (pgdir (slot cur (ptable s))) p ∧
                         state p = ZOMBIE) (ptable s)) as Hnz.
  { intros He. apply Hno. rewrite Exists_exists in He |- *.
    destruct He as (p & Hin & Hth & _). eauto. }
  destruct fuel; cbn [join]; rewrite (join_scan_none _ _ _ _ _ Hnz); cbn [orb];
    (rewrite decide_True; [done|]); left; by apply bool_decide_eq_false_2.
Qed.

(** C1. The caller in slot 1 of [thread_done] joins its exited thread,
    pid 6, whose user stack is at 12288, and passes 12272, the address of
    its variable. [join] answers 6, frees the kernel stack 7000 and no
    address space, and leaves the child process in slot 3 alone. The
    variable still holds 0: the stack handle does not reach the caller, and
    the slot no longer has it either. *)
Theorem join_loses_stack_handle :
  ∃ s', join (λ _, None) 0 12272 1 Fixtures.thread_done = Return 6 s' ∧
        trace s' = [EKfree 7000] ∧
        threadstack (slot 2 (ptable Fixtures.thread_done)) = 12288 ∧
        (join_reap 12272 2 Fixtures.thread_done).1.2 = 12288 ∧
        umem s' !! (200, 12272) = Some 0 ∧
        umem s' = umem Fixtures.thread_done ∧
        threadstack (slot 2 (ptable s')) = 0 ∧
        slot 3 (ptable s') = slot 3 (ptable Fixtures.thread_done).
Proof. eexists. split; [reflexivity|]. split_and!; reflexivity. Qed.

(** ** Allocation and its failures *)

Lemma allocproc_full (k : Z) (s : kstate) :
  Forall (λ p, state p ≠ UNUSED) (ptable s) → allocproc k s = (None, s).
Proof.
  intros H. unfold allocproc.
  assert (list_find (λ p, state p = UNUSED) (ptable s) = None) as ->; [|done].
  by apply list_find_None.
Qed.

Lemma allocproc_found (s : kstate) (i : nat) (p : proc) :
  ptable s !! i = Some p → state p = UNUSED →
  (∀ j q, ptable s !! j = Some q → (j < i)%nat → state q ≠ UNUSED) →
  list_find (λ p, state p = UNUSED) (ptable s) = Some (i, p).
Proof. intros Hp Hst Hfirst. by apply first_found. Qed.

(** No page for the kernel stack: the slot is UNUSED again, without a
    kernel stack; it keeps the pid it was given. *)
Lemma allocproc_no_page (s : kstate) (i : nat) (p : proc) :
  ptable s !! i = Some p → state p = UNUSED →
  (∀ j q, ptable s !! j = Some q → (j < i)%nat → state q ≠ UNUSED) →
  allocproc 0 s =
    (None, mkK (alter (rolled_back (nextpid s)) i (ptable s))
               (to_int (nextpid s + 1)) (initproc s) (umem s) (trace s)).
Proof.
  intros Hp Hst Hfirst. unfold allocproc.
  rewrite (allocproc_found _ _ _ Hp Hst Hfirst). rewrite decide_True by done.
  unfold upd, set_nextpid, set_ptable. cbn [ptable nextpid initproc umem trace].
  by rewrite !list_alter_alter_eq.
Qed.

Lemma allocproc_ok (k : Z) (s : kstate) (i : nat) (p : proc) :
  k ≠ 0 → ptable s !! i = Some p → state p = UNUSED →
  (∀ j q, ptable s !! j = Some q → (j < i)%nat → state q ≠ UNUSED) →
  allocproc k s =
    (Some i, mkK (alter (embryo (nextpid s) k) i (ptable s))
                 (to_int (nextpid s + 1)) (initproc s) (umem s) (trace s)).
Proof.
  intros Hk Hp Hst Hfirst. unfold allocproc.
  rewrite (allocproc_found _ _ _ Hp Hst Hfirst). rewrite decide_False by done.
  unfold upd, set_nextpid, set_ptable. cbn [ptable nextpid initproc umem trace].
  by rewrite !list_alter_alter_eq.
Qed.

(** [fork] when the address space cannot be copied: the kernel stack goes
    back to the allocator and the slot is UNUSED again. *)
Lemma fork_no_address_space (k : Z) (cur : nat) (s : kstate) (i : nat) (p : proc) :
  k ≠ 0 → ptable s !! i = Some p → state p = UNUSED →
  (∀ j q, ptable s !! j = Some q → (j < i)%nat → state q ≠ UNUSED) →
  fork k 0 cur s =
    (-1, mkK (alter (λ q, set_state UNUSED (set_kstack 0 (set_pgdir 0
                            (embryo (nextpid s) k q)))) i (ptable s))
             (to_int (nextpid s + 1)) (initproc s) (umem s)
             (trace s ++ [EKfree k])).
Proof.
  intros Hk Hp Hst Hfirst. unfold fork.
  rewrite (allocproc_ok k s i p Hk Hp Hst Hfirst). rewrite decide_True by done.
  unfold upd, emit, set_ptable. cbn [ptable nextpid initproc umem trace].
  rewrite !list_alter_alter_eq.
  rewrite slot_alter_eq by (by eapply lookup_lt_Some). done.
Qed.

(** The failures of [allocproc] and [fork] release what was taken: the
    answer is the failure value, the slot that was tried is UNUSED without
    a kernel stack, the stack [fork] had obtained is freed, and every other
    record, the caller's included, is what it was. *)
Lemma alloc_failures_release (k c : Z) (cur : nat) (s : kstate) :
  state (slot cur (ptable s)) ≠ UNUSED →
  (Forall (λ p, state p ≠ UNUSED) (ptable s) →
     allocproc k s = (None, s) ∧ fork k c cur s = (-1, s)) ∧
  (∀ i p, ptable s !! i = Some p → state p = UNUSED →
     (∀ j q, ptable s !! j = Some q → (j < i)%nat → state q ≠ UNUSED) →
     let a := allocproc 0 s in
     let f0 := fork 0 c cur s in
     let f := fork k 0 cur s in
     a.1 = None ∧ f0.1 = -1 ∧ f0.2 = a.2 ∧
     state (slot i (ptable a.2)) = UNUSED ∧ kstack (slot i (ptable a.2)) = 0 ∧
     trace a.2 = trace s ∧
     (∀ j, j ≠ i → ptable a.2 !! j = ptable s !! j) ∧
     slot cur (ptable a.2) = slot cur (ptable s) ∧
     (k ≠ 0 →
      f.1 = -1 ∧
      state (slot i (ptable f.2)) = UNUSED ∧ kstack (slot i (ptable f.2)) = 0 ∧
      trace f.2 = trace s ++ [EKfree k] ∧
      (∀ j, j ≠ i → ptable f.2 !! j = ptable s !! j) ∧
      slot cur (ptable f.2) = slot cur (ptable s))).
Proof.
  intros Hcur. split.
  - intros Hfull. unfold fork. by rewrite !(allocproc_full _ _ Hfull).
  - intros i p Hp Hst Hfirst a f0 f.
    pose proof (lookup_lt_Some _ _ _ Hp) as Hlt.
    assert (cur ≠ i) as Hne.
    { intros ->. by rewrite (slot_lookup _ _ _ Hp) in Hcur. }
    assert (a = (None, mkK (alter (rolled_back (nextpid s)) i (ptable s))
               (to_int (nextpid s + 1)) (initproc s) (umem s) (trace s))) as Ha
      by (by apply allocproc_no_page with p).
    assert (f0 = (-1, a.2)) as Hf0.
    { unfold f0, fork. fold a. by rewrite Ha. }
    rewrite Hf0, Ha. cbn [fst snd ptable trace].
    split_and!; try done.
    + by rewrite slot_alter_eq.
    + by rewrite slot_alter_eq.
    + intros j Hj. by rewrite list_lookup_alter_ne.
    + by rewrite slot_alter_ne.
    + intros Hk. unfold f.
      rewrite (fork_no_address_space k cur s i p Hk Hp Hst Hfirst).
      cbn [fst snd ptable trace]. split_and!; try done.
      * by rewrite slot_alter_eq.
      * by rewrite slot_alter_eq.
      * intros j Hj. by rewrite list_lookup_alter_ne.
      * by rewrite slot_alter_ne.
Qed.

Lemma clone_alloc_fails (k : Z) (ok : bool) (fcn arg1 arg2 stack : Z)
    (cur : nat) (s : kstate) :
  (allocproc k s).1 = None →
  (clone k ok fcn arg1 arg2 stack cur s).1 = -1 ∧
  ((clone k ok fcn arg1 arg2 stack cur s).2 = s ∨
   (clone k ok fcn arg1 arg2 stack cur s).2 = (allocproc k s).2).
Proof.
  intros Ha. unfold clone. repeat case_decide; cbn; try (split; [done|by left]).
  destruct (allocproc k s) as [[np|] s1]; [done|]. cbn. split; [done|by right].
Qed.

(** [clone] when the frame cannot be copied out: the answer is -1, and
    the slot stays an EMBRYO with its kernel stack, which nobody frees. *)
Lemma clone_copyout_fails (k fcn arg1 arg2 stack : Z) (cur : nat) (s : kstate)
    (i : nat) (p : proc) :
  to_uint stack mod PGSIZE = 0 →
  to_uint (PGSIZE + to_uint stack) ≤ sz (slot cur (ptable s)) →
  k ≠ 0 → ptable s !! i = Some p → state p = UNUSED →
  (∀ j q, ptable s !! j = Some q → (j < i)%nat → state q ≠ UNUSED) →
  let r := clone k false fcn arg1 arg2 stack cur s in
  r.1 = -1 ∧ state (slot i (ptable r.2)) = EMBRYO ∧
  kstack (slot i (ptable r.2)) = k ∧ trace r.2 = trace s.
Proof.
  intros Hal Hsz Hk Hp Hst Hfirst r.
  pose proof (lookup_lt_Some _ _ _ Hp) as Hlt.
  unfold r, clone. rewrite decide_False by (intros H; by apply H).
  rewrite decide_False by lia.
  rewrite (allocproc_ok k s i p Hk Hp Hst Hfirst).
  cbn [negb fst snd]. unfold assign, upd, set_ptable.
  cbn [ptable nextpid initproc umem trace].
  rewrite !list_alter_alter_eq. rewrite !slot_alter_eq by done.
  done.
Qed.

(** C2. The caller in slot 1 of [cloner] calls [clone] with a stack
    inside its address space; slot 2 is free, the allocator gives the page
    7000 for the kernel stack, and the frame cannot be copied out. [clone]
    answers -1 and slot 2 is left an EMBRYO holding the kernel stack, which
    is not freed. [fork], when the address space cannot be copied, frees
    the stack and marks the slot UNUSED. *)
Theorem clone_copyout_failure_leaks :
  let r := clone 7000 false 4096 11 22 8192 1 Fixtures.cloner in
  let f := fork 7000 0 1 Fixtures.cloner in
  r.1 = -1 ∧ state (slot 2 (ptable r.2)) = EMBRYO ∧
  kstack (slot 2 (ptable r.2)) = 7000 ∧ trace r.2 = [] ∧
  f.1 = -1 ∧ state (slot 2 (ptable f.2)) = UNUSED ∧
  kstack (slot 2 (ptable f.2)) = 0 ∧ trace f.2 = [EKfree 7000].
Proof. cbv zeta. split_and!; reflexivity. Qed.

(** ** settickets and the arguments of clone *)

Lemma settickets_rejects (tks : Z) (cur : nat) (s : kstate) :
  tks < 1 → settickets tks cur s = (-1, s).
Proof. intros H. unfold settickets. by rewrite decide_True. Qed.

(** A ticket count of at least 1 becomes the caller's, and [getpinfo]
    reports it in the caller's row. *)
Lemma settickets_sets (tks : Z) (cur : nat) (s : kstate) :
  1 ≤ tks → (cur < length (ptable s))%nat →
  (settickets tks cur s).1 = 0 ∧
  tickets (slot cur (ptable (settickets tks cur s).2)) = tks ∧
  ps_tickets <$> (getpinfo (settickets tks cur s).2).2 !! cur = Some tks ∧
  (∀ j, j ≠ cur →
        ptable (settickets tks cur s).2 !! j = ptable s !! j).
Proof.
  intros Ht Hcur. unfold settickets. rewrite decide_False by lia.
  cbn [fst snd upd set_ptable ptable getpinfo]. split_and!.
  - done.
  - by rewrite slot_alter_eq.
  - rewrite list_lookup_fmap, list_lookup_alter_eq, (lookup_slot _ _ Hcur). done.
  - intros j Hj. by rewrite list_lookup_alter_ne.
Qed.

Lemma clone_rejects_misaligned (k : Z) (ok : bool) (fcn arg1 arg2 stack : Z)
    (cur : nat) (s : kstate) :
  to_uint stack mod PGSIZE ≠ 0 →
  clone k ok fcn arg1 arg2 stack cur s = (-1, s).
Proof. intros H. unfold clone. by rewrite decide_True. Qed.

(** A page that ends beyond the caller's size is rejected, provided its
    end does not pass the top of the 32-bit address range. *)
Lemma clone_rejects_outside (k : Z) (ok : bool) (fcn arg1 arg2 stack : Z)
    (cur : nat) (s : kstate) :
  0 ≤ stack → stack + PGSIZE < 2 ^ 32 →
  sz (slot cur (ptable s)) < stack + PGSIZE →
  clone k ok fcn arg1 arg2 stack cur s = (-1, s).
Proof.
  intros H0 Htop Hsz. unfold clone. case_decide; [done|].
  rewrite decide_True; [done|].
  unfold to_uint, PGSIZE in *. rewrite (Z.mod_small stack) by lia.
  rewrite Z.mod_small by lia. lia.
Qed.

(** C7. The caller in slot 1 of [cloner], whose address space is 16384
    bytes, calls [clone] with the page-aligned stack 4294963200, the last
    page of the 32-bit range. The page lies outside the address space, but
    [PGSIZE + (uint) stack] wraps to 0 and the test against the size
    passes: [clone] goes on to [allocproc], which takes slot 2. When the
    frame cannot be copied out the answer is -1 with the table changed;
    when it can, a thread with pid 3 is made RUNNABLE. *)
Theorem clone_accepts_wrapping_stack :
  let stack := 4294963200 in
  let r := clone 7000 false 4096 11 22 stack 1 Fixtures.cloner in
  let r' := clone 7000 true 4096 11 22 stack 1 Fixtures.cloner in
  stack mod PGSIZE = 0 ∧
  sz (slot 1 (ptable Fixtures.cloner)) < stack + PGSIZE ∧
  to_uint (PGSIZE + to_uint stack) = 0 ∧
  r.1 = -1 ∧ ptable r.2 ≠ ptable Fixtures.cloner ∧
  state (slot 2 (ptable Fixtures.cloner)) = UNUSED ∧
  state (slot 2 (ptable r.2)) = EMBRYO ∧ pid (slot 2 (ptable r.2)) = 3 ∧
  r'.1 = 3 ∧ state (slot 2 (ptable r'.2)) = RUNNABLE.
Proof. cbv zeta. split_and!; try reflexivity. by vm_compute. Qed.

(** ** Ticket lock *)

Import TicketLock TicketInv.

Lemma pc_of_insert (l : ticketlock) (th : gmap nat pc) (e : list Z)
    (t t' : nat) (c : pc) :
  pc_of t' (mkSys l (<[t := c]> th) e) =
    if decide (t = t') then c else default Outside (th !! t').
Proof. unfold pc_of. cbn. rewrite lookup_insert. by case_decide. Qed.

Lemma pc_of_woken (l : ticketlock) (th : gmap nat pc) (e : list Z) (t' : nat) :
  pc_of t' (mkSys l (woken <$> th) e) = woken (default Outside (th !! t')).
Proof. unfold pc_of. cbn. rewrite lookup_fmap. by destruct (th !! t'). Qed.

Lemma pc_of_holding (t : nat) (s : sys) (k : Z) :
  pc_of t s = Holding k ↔ threads s !! t = Some (Holding k).
Proof.
  unfold pc_of. destruct (threads s !! t) as [c|]; cbn; [|done].
  split; congruence.
Qed.

Lemma ticket_of_woken (c : pc) : ticket_of (woken c) = ticket_of c.
Proof. by destruct c. Qed.

Lemma woken_holding (c : pc) (k : Z) : woken c = Holding k ↔ c = Holding k.
Proof. by destruct c. Qed.

Lemma holder_or_free (s : sys) :
  (∃ t k, pc_of t s = Holding k) ∨ (∀ t k, pc_of t s ≠ Holding k).
Proof.
  destruct (decide (map_Exists (λ _ c, is_holding c) (threads s))) as [He|Hn].
  - left. destruct He as (t & c & Hc & Hh). destruct c; try done.
    exists t, myTicket. by apply pc_of_holding.
  - right. intros t k Hh%pc_of_holding. apply Hn. by exists t, (Holding k).
Qed.

Lemma seqZ_snoc (k : Z) : 0 ≤ k → seqZ 0 (k + 1) = seqZ 0 k ++ [k].
Proof. intros Hk. by rewrite seqZ_app by lia. Qed.

Lemma draws_cons (a : action) (l : list action) :
  draws (a :: l) = draws [a] + draws l.
Proof. destruct a; cbn; lia. Qed.

Lemma draws_nonneg (l : list action) : 0 ≤ draws l.
Proof. induction l as [|a l IH]; [done|]. destruct a; cbn; lia. Qed.

Lemma inv_init : Inv 0 init.
Proof.
  split; cbn; try done.
  intros (t & k & H). done.
Qed.

Section Steps.

(** A state that satisfies the invariant after [n] draws. *)
Variables (n : Z) (s : sys).
Hypothesis HI : Inv n s.

(** A step that keeps the counters, the log, the tickets and the holder
    keeps the invariant. *)
Lemma inv_transfer (s' : sys) :
  lk s' = lk s → entered s' = entered s →
  (∀ t, ticket_of (pc_of t s') = ticket_of (pc_of t s)) →
  (∀ t k, pc_of t s' = Holding k ↔ pc_of t s = Holding k) →
  Inv n s'.
Proof.
  intros Hlk Hlog Htk Hh. destruct HI.
  split; rewrite ?Hlk, ?Hlog; try done.
  - intros t k. rewrite Htk. eauto.
  - intros t t' k. rewrite !Htk. eauto.
  - intros t k. rewrite Hh. eauto.
  - intros Hfree. apply inv_log_free0. intros t k. rewrite <- Hh. apply Hfree.
  - intros (t & k & H). apply inv_log_held0. exists t, k. by apply Hh.
Qed.

(** Moving a thread between two positions that carry the same ticket and
    are not [Holding]. *)
Lemma inv_move (t : nat) (c c' : pc) :
  pc_of t s = c → ticket_of c' = ticket_of c →
  (∀ k, c ≠ Holding k) → (∀ k, c' ≠ Holding k) →
  Inv n (mkSys (lk s) (<[t := c']> (threads s)) (entered s)).
Proof.
  intros Hc Htk Hn Hn'. apply inv_transfer; [done|done|..].
  - intros t'. index_cases pc_of_insert; [|done]. by rewrite Htk.
  - intros t' k. index_cases pc_of_insert; [|done].
    split; intros H; [by apply Hn' in H|by apply Hn in H].
Qed.

Lemma inv_draw (t : nat) :
  pc_of t s = Outside → n + 1 ≤ INT_MAX → Inv (n + 1) (acquire_t_draw t s).
Proof.
  intros Hout Hn. destruct HI. unfold acquire_t_draw, fetch_and_add.
  rewrite inv_next0, to_int_id by (unfold in_int, INT_MIN; lia).
  split; cbn [lk threads entered next_ticket current_turn].
  - lia.
  - done.
  - lia.
  - intros t' k. index_cases pc_of_insert.
    + intros [= <-]. lia.
    + intros H'. apply inv_range0 in H'. lia.
  - intros t1 t2 k. index_cases pc_of_insert.
    + done.
    + intros [= <-] H'. apply inv_range0 in H'. lia.
    + intros H' [= <-]. apply inv_range0 in H'. lia.
    + apply inv_uniq0.
  - intros t' k. index_cases pc_of_insert; [done|]. apply inv_hold0.
  - intros Hfree. apply inv_log_free0. intros t' k Hh.
    apply (Hfree t' k). index_cases pc_of_insert; [congruence|done].
  - intros (t' & k & Hh). apply inv_log_held0. exists t', k.
    rewrite pc_of_insert in Hh. by case_decide.
Qed.

Lemma inv_test (t : nat) (k : Z) :
  pc_of t s = Testing k → Inv n (acquire_t_test t k s).
Proof.
  intros Ht. unfold acquire_t_test. case_decide as Hk.
  - by apply (inv_move t (Testing k) (Failed k)).
  - assert (current_turn (lk s) = k) as Hturn
      by (by destruct (decide (current_turn (lk s) = k))).
    assert (∀ t' k', pc_of t' s ≠ Holding k') as Hfree.
    { intros t' k' Hh. pose proof (inv_hold _ _ HI _ _ Hh) as ->.
      assert (t = t') as <-.
      { apply (inv_uniq _ _ HI t t' k); [by rewrite Ht|].
        by rewrite Hh, Hturn. }
      congruence. }
    destruct HI. split; cbn [lk threads entered]; try done.
    + intros t' k'. rewrite pc_of_insert. case_decide.
      * subst t'. intros [= <-]. apply (inv_range0 t). by rewrite Ht.
      * apply inv_range0.
    + intros t1 t2 k'. rewrite !pc_of_insert.
      assert (ticket_of (Holding k) = ticket_of (pc_of t s)) as Heq by (by rewrite Ht).
      repeat case_decide; subst; rewrite ?Heq; try done; apply inv_uniq0.
    + intros t' k'. rewrite pc_of_insert. case_decide; [|apply inv_hold0].
      by intros [= <-].
    + intros Hno. exfalso. apply (Hno t k). rewrite pc_of_insert.
      by rewrite decide_True.
    + intros _. rewrite (inv_log_free0 Hfree), Hturn.
      rewrite seqZ_snoc; [done|lia].
Qed.

Lemma pc_of_add (h t : nat) (s0 : sys) :
  pc_of t (release_t_add h s0) = if decide (h = t) then Releasing else pc_of t s0.
Proof. unfold release_t_add, fetch_and_add. by rewrite pc_of_insert. Qed.

Lemma pc_of_wakeup (h t : nat) (s0 : sys) :
  pc_of t (release_t_wakeup h s0) =
    woken (if decide (h = t) then Outside else pc_of t s0).
Proof.
  unfold release_t_wakeup. rewrite pc_of_woken.
  rewrite lookup_insert. by case_decide.
Qed.

(** The first statement of [release_t], by the holder. *)
Lemma inv_release_add (t : nat) (k : Z) :
  pc_of t s = Holding k → Inv n (release_t_add t s).
Proof.
  intros Ht. pose proof (inv_hold _ _ HI _ _ Ht) as Hk.
  assert (ticket_of (pc_of t s) = Some (current_turn (lk s))) as Htk
    by (by rewrite Ht, Hk).
  pose proof (inv_range _ _ HI _ _ Htk) as Hrange.
  assert (lk (release_t_add t s) =
          mkLock (next_ticket (lk s)) (current_turn (lk s) + 1)) as Hlk.
  { unfold release_t_add, fetch_and_add. cbn [lk]. f_equal.
    destruct HI. apply to_int_id. unfold in_int, INT_MIN. lia. }
  assert (∀ t' k', pc_of t' (release_t_add t s) ≠ Holding k') as Hnone.
  { intros t' k'. rewrite pc_of_add. case_decide; [done|].
    intros Hh. pose proof (inv_hold _ _ HI _ _ Hh) as ->.
    assert (t = t'); [|done].
    apply (inv_uniq _ _ HI t t' (current_turn (lk s))); [done|by rewrite Hh]. }
  destruct HI. split; rewrite ?Hlk; cbn [next_ticket current_turn]; try done.
  - lia.
  - intros t' k'. rewrite pc_of_add. case_decide; [done|].
    intros H'. pose proof (inv_range0 _ _ H').
    assert (k' ≠ current_turn (lk s)); [|lia].
    intros ->. by apply (inv_uniq0 t t') in H'.
  - intros t1 t2 k'. rewrite !pc_of_add.
    repeat case_decide; try done. apply inv_uniq0.
  - intros t' k' Hh. by apply Hnone in Hh.
  - intros _. unfold release_t_add, fetch_and_add. cbn [entered].
    apply inv_log_held0. eauto.
  - intros (t' & k' & Hh). by apply Hnone in Hh.
Qed.

(** The second statement of [release_t]. *)
Lemma inv_release_wakeup (t : nat) :
  pc_of t s = Releasing → Inv n (release_t_wakeup t s).
Proof.
  intros Ht. apply inv_transfer; [done|done|..].
  - intros t'. rewrite pc_of_wakeup, ticket_of_woken.
    case_decide; [subst; by rewrite Ht|done].
  - intros t' k. rewrite pc_of_wakeup, woken_holding.
    case_decide; [subst; by rewrite Ht|done].
Qed.

(** Every step keeps the invariant, a draw counting for one. *)
Lemma inv_step (a : action) (s' : sys) :
  step a s = Some s' → n + draws [a] ≤ INT_MAX → Inv (n + draws [a]) s'.
Proof.
  intros Hstep Hn. destruct a as [t|t|t|t|t|t]; cbn in Hstep, Hn |- *;
    destruct (pc_of t s) as [|k|k|k|k|] eqn:Hpc; simplify_eq;
    rewrite ?Z.add_0_r.
  - apply inv_draw; [done|lia].
  - by apply inv_test.
  - by apply (inv_move t (Failed k) (Asleep k)).
  - by apply (inv_move t (Asleep k) (Testing k)).
  - by apply (inv_release_add t k).
  - by apply inv_release_wakeup.
Qed.

End Steps.

Lemma inv_run (l : list action) (n : Z) (s s' : sys) :
  run l s = Some s' → n + draws l ≤ INT_MAX → Inv n s → Inv (n + draws l) s'.
Proof.
  revert n s. induction l as [|a l IH]; intros n s Hrun Hn HI.
  - cbn in *. injection Hrun as <-. by rewrite Z.add_0_r.
  - cbn [run] in Hrun. destruct (step a s) as [s1|] eqn:Hstep; [|done].
    rewrite draws_cons in Hn |- *. pose proof (draws_nonneg l).
    rewrite Z.add_assoc. apply (IH _ s1); [done|lia|].
    apply (inv_step n s HI a); [done|lia].
Qed.

Lemma inv_log_seq (n : Z) (s : sys) :
  Inv n s → ∃ L, entered s = seqZ 0 L.
Proof.
  intros HI. destruct (holder_or_free s) as [Hh|Hf].
  - eexists. by apply (inv_log_held _ _ HI).
  - eexists. by apply (inv_log_free _ _ HI).
Qed.

Lemma run_app (l1 l2 : list action) (s : sys) :
  run (l1 ++ l2) s = run l1 s ≫= run l2.
Proof.
  revert s. induction l1 as [|a l1 IH]; intros s; [done|].
  cbn [app run]. destruct (step a s); [apply IH|done].
Qed.

(** C9, as the code has it. In every interleaving of the steps of
    [acquire_t] and [release_t], threads running between the two
    statements of [release_t] included, in which [release_t] is called by
    the thread that went past [acquire_t], and that draws no more tickets
    than an [int] counts: the tickets of the threads inside [acquire_t] or
    past it are distinct and not behind [current_turn]; a thread past
    [acquire_t] has the ticket [current_turn]; a thread at the test of the
    loop leaves [acquire_t] when its ticket is [current_turn] and goes to
    sleep otherwise; two threads are never past [acquire_t] together;
    [release_t] adds exactly one to [current_turn] and leaves
    [next_ticket], and its wakeup leaves both; and the tickets leave
    [acquire_t] in the order 0, 1, 2, ..., so of two tickets the smaller
    one enters first. *)
Theorem ticket_lock_fifo (l : list action) (s : sys) :
  run l init = Some s → draws l ≤ INT_MAX →
  (∀ t t' k, ticket_of (pc_of t s) = Some k →
             ticket_of (pc_of t' s) = Some k → t = t') ∧
  (∀ t k, ticket_of (pc_of t s) = Some k →
          current_turn (lk s) ≤ k < next_ticket (lk s)) ∧
  (∀ t k, pc_of t s = Holding k → k = current_turn (lk s)) ∧
  (∀ t k, pc_of t s = Testing k →
     ∃ s', step (Test t) s = Some s' ∧
           (k = current_turn (lk s) → pc_of t s' = Holding k) ∧
           (k ≠ current_turn (lk s) → pc_of t s' = Failed k)) ∧
  (∀ t t' k k', pc_of t s = Holding k → pc_of t' s = Holding k' → t = t') ∧
  (∀ t s', step (Release t) s = Some s' →
     current_turn (lk s') = current_turn (lk s) + 1 ∧
     next_ticket (lk s') = next_ticket (lk s)) ∧
  (∀ t s', step (Broadcast t) s = Some s' → lk s' = lk s) ∧
  (∀ j b, entered s !! j = Some b → b = Z.of_nat j) ∧
  (∀ i j a b, entered s !! i = Some a → entered s !! j = Some b →
              a < b → (i < j)%nat).
Proof.
  intros Hrun Hn.
  assert (Inv (draws l) s) as HI.
  { rewrite <- (Z.add_0_l (draws l)). apply (inv_run l 0 init); [done|lia|].
    apply inv_init. }
  destruct (inv_log_seq _ _ HI) as [L HL].
  assert (∀ j b, entered s !! j = Some b → b = Z.of_nat j) as Hpos.
  { intros j b. rewrite HL. intros [-> _]%lookup_seqZ. lia. }
  split_and!.
  - apply (inv_uniq _ _ HI).
  - rewrite (inv_next _ _ HI). apply (inv_range _ _ HI).
  - apply (inv_hold _ _ HI).
  - intros t k Ht. cbn [step]. rewrite Ht. eexists. split; [done|].
    unfold acquire_t_test. split; intros Hk.
    + rewrite decide_False by (intros H; by apply H).
      rewrite pc_of_insert. by rewrite decide_True.
    + rewrite decide_True by (intros H; by apply Hk).
      rewrite pc_of_insert. by rewrite decide_True.
  - intros t t' k k' Ht Ht'.
    pose proof (inv_hold _ _ HI _ _ Ht) as ->.
    pose proof (inv_hold _ _ HI _ _ Ht') as ->.
    apply (inv_uniq _ _ HI t t' (current_turn (lk s))); [by rewrite Ht|by rewrite Ht'].
  - intros t s'. cbn [step]. destruct (pc_of t s) as [|k|k|k|k|] eqn:Ht; try done.
    intros [= <-]. unfold release_t_add, fetch_and_add.
    cbn [lk current_turn next_ticket].
    split; [|done]. apply to_int_id.
    pose proof (inv_hold _ _ HI _ _ Ht) as ->.
    assert (ticket_of (pc_of t s) = Some (current_turn (lk s))) as Htk by (by rewrite Ht).
    pose proof (inv_range _ _ HI _ _ Htk). pose proof (inv_n _ _ HI).
    pose proof (inv_turn _ _ HI). unfold in_int, INT_MIN. lia.
  - intros t s'. cbn [step]. destruct (pc_of t s); try done. by intros [= <-].
  - done.
  - intros i j a b Ha Hb Hlt. apply Hpos in Ha, Hb. lia.
Qed.

Lemma ticket_lock_fifo_witness :
  ∃ s, run Fixtures.two_threads init = Some s ∧
       draws Fixtures.two_threads ≤ INT_MAX ∧
       entered s = [0; 1] ∧
       (∀ j b, entered s !! j = Some b → b = Z.of_nat j) ∧
       (∀ t k, pc_of t s = Holding k → k = current_turn (lk s)).
Proof.
  eexists. split; [by vm_compute|].
  assert (draws Fixtures.two_threads ≤ INT_MAX) as Hd by (by vm_compute).
  split; [exact Hd|]. split; [by vm_compute|].
  match goal with
  | |- context [entered ?s] =>
      destruct (ticket_lock_fifo Fixtures.two_threads s)
        as (_ & _ & Hh & _ & _ & _ & _ & Hpos & _);
        [by vm_compute|exact Hd|]
  end.
  split; [exact Hpos|exact Hh].
Defined.

(** ** The counters at the end of the range of an [int] *)

Lemma step_draw (t : nat) (s : sys) :
  pc_of t s = Outside → step (Draw t) s = Some (acquire_t_draw t s).
Proof. intros H. cbn [step]. by rewrite H. Qed.

Lemma step_test (t : nat) (k : Z) (s : sys) :
  pc_of t s = Testing k → step (Test t) s = Some (acquire_t_test t k s).
Proof. intros H. cbn [step]. by rewrite H. Qed.

Lemma step_release (t : nat) (k : Z) (s : sys) :
  pc_of t s = Holding k → step (Release t) s = Some (release_t_add t s).
Proof. intros H. cbn [step]. by rewrite H. Qed.

Lemma step_broadcast (t : nat) (s : sys) :
  pc_of t s = Releasing → step (Broadcast t) s = Some (release_t_wakeup t s).
Proof. intros H. cbn [step]. by rewrite H. Qed.

Lemma run_cons (a : action) (l : list action) (s s1 : sys) :
  step a s = Some s1 → run (a :: l) s = run l s1.
Proof. intros H. cbn [run]. by rewrite H. Qed.

(** One round of a thread alone, from an idle lock. *)
Lemma round_alone (t : nat) (k : Z) (s : sys) :
  idle_at k s →
  ∃ s', run [Draw t; Test t; Release t; Broadcast t] s = Some s' ∧
        idle_at (to_int (k + 1)) s' ∧ entered s' = entered s ++ [k].
Proof.
  intros [Hlk Hout].
  set (s1 := acquire_t_draw t s).
  assert (lk s1 = mkLock (to_int (k + 1)) k ∧ entered s1 = entered s ∧
          ∀ t', pc_of t' s1 = if decide (t = t') then Testing k else Outside)
    as (Hlk1 & He1 & Hpc1).
  { unfold s1, acquire_t_draw, fetch_and_add. rewrite Hlk. cbn [next_ticket
      current_turn lk entered]. split_and!; [done|done|].
    intros t'. rewrite pc_of_insert. case_decide; [done|]. apply (Hout t'). }
  set (s2 := acquire_t_test t k s1).
  assert (lk s2 = mkLock (to_int (k + 1)) k ∧ entered s2 = entered s ++ [k] ∧
          ∀ t', pc_of t' s2 = if decide (t = t') then Holding k else Outside)
    as (Hlk2 & He2 & Hpc2).
  { unfold s2, acquire_t_test. rewrite Hlk1. cbn [current_turn].
    rewrite decide_False by (intros H; by apply H). cbn [lk entered].
    rewrite He1. split_and!; [done|done|].
    intros t'. rewrite pc_of_insert. case_decide; [done|].
    specialize (Hpc1 t'). rewrite decide_False in Hpc1 by done. exact Hpc1. }
  set (s3 := release_t_add t s2).
  assert (lk s3 = mkLock (to_int (k + 1)) (to_int (k + 1)) ∧
          entered s3 = entered s ++ [k] ∧
          ∀ t', pc_of t' s3 = if decide (t = t') then Releasing else Outside)
    as (Hlk3 & He3 & Hpc3).
  { split_and!.
    - unfold s3, release_t_add, fetch_and_add. rewrite Hlk2. done.
    - unfold s3, release_t_add, fetch_and_add. cbn [entered]. exact He2.
    - intros t'. unfold s3. rewrite pc_of_add. case_decide; [done|].
      specialize (Hpc2 t'). rewrite decide_False in Hpc2 by done. exact Hpc2. }
  set (s4 := release_t_wakeup t s3).
  exists s4. split; [|split; [split|]].
  - rewrite (run_cons _ _ s s1) by (apply step_draw, Hout).
    rewrite (run_cons _ _ s1 s2).
    2:{ apply step_test. by rewrite Hpc1, decide_True. }
    rewrite (run_cons _ _ s2 s3).
    2:{ apply (step_release t k). by rewrite Hpc2, decide_True. }
    rewrite (run_cons _ _ s3 s4).
    2:{ apply step_broadcast. by rewrite Hpc3, decide_True. }
    reflexivity.
  - exact Hlk3.
  - intros t'. unfold s4. rewrite pc_of_wakeup. case_decide; [done|].
    by rewrite Hpc3, decide_False.
  - exact He3.
Qed.

(** [n] rounds from an idle lock at [k], as long as the counters stay in
    range. *)
Lemma rounds_alone (n : nat) (k : Z) (s : sys) :
  idle_at k s → 0 ≤ k → k + Z.of_nat n ≤ INT_MAX →
  ∃ s', run (Schedules.alone n) s = Some s' ∧
        idle_at (k + Z.of_nat n) s' ∧
        entered s' = entered s ++ seqZ k (Z.of_nat n).
Proof.
  revert k s. induction n as [|n IH]; intros k s Hidle Hk Hmax.
  - exists s. change (Z.of_nat 0) with 0. rewrite Z.add_0_r.
    split; [reflexivity|]. split; [exact Hidle|].
    change (seqZ k 0) with (@nil Z). by rewrite app_nil_r.
  - destruct (round_alone 0 k s Hidle) as (s1 & Hrun1 & Hidle1 & He1).
    rewrite to_int_id in Hidle1 by (unfold in_int, INT_MIN, INT_MAX in *; lia).
    destruct (IH (k + 1) s1 Hidle1) as (s' & Hrun & Hidle' & He'); [lia|lia|].
    exists s'. split; [|split].
    + change (Schedules.alone (S n))
        with ([Draw 0; Test 0; Release 0; Broadcast 0] ++ Schedules.alone n).
      rewrite run_app, Hrun1. exact Hrun.
    + replace (k + Z.of_nat (S n)) with (k + 1 + Z.of_nat n) by lia. exact Hidle'.
    + rewrite He', He1, <- app_assoc. f_equal.
      replace (Z.of_nat (S n)) with (1 + Z.of_nat n) by lia.
      rewrite (seqZ_app k 1 (Z.of_nat n)) by lia. reflexivity.
Qed.

Lemma draws_app (l1 l2 : list action) : draws (l1 ++ l2) = draws l1 + draws l2.
Proof.
  induction l1 as [|a l1 IH]; [done|].
  rewrite <- app_comm_cons, (draws_cons a), (draws_cons a l1), IH. lia.
Qed.

Lemma draws_alone (n : nat) : draws (Schedules.alone n) = Z.of_nat n.
Proof.
  induction n as [|n IH]; [done|].
  change (Schedules.alone (S n))
    with ([Draw 0; Test 0; Release 0; Broadcast 0] ++ Schedules.alone n).
  rewrite draws_app, IH. change (draws [Draw 0; Test 0; Release 0; Broadcast 0]) with 1.
  lia.
Qed.

(** Two threads at a lock whose counters have reached the largest
    [int]. *)
Lemma wrap_tail (s : sys) :
  idle_at INT_MAX s →
  ∃ s', run [Draw 0; Draw 1; Test 0; Release 0; Broadcast 0; Test 1] s = Some s' ∧
        entered s' = entered s ++ [INT_MAX; INT_MIN] ∧
        pc_of 1 s' = Holding INT_MIN ∧
        lk s' = mkLock (INT_MIN + 1) INT_MIN.
Proof.
  intros [Hlk Hout].
  assert (to_int (INT_MAX + 1) = INT_MIN) as Hwrap by reflexivity.
  assert (to_int (INT_MIN + 1) = INT_MIN + 1) as Hnext by reflexivity.
  set (s1 := acquire_t_draw 0 s).
  assert (lk s1 = mkLock INT_MIN INT_MAX ∧ entered s1 = entered s ∧
          pc_of 0 s1 = Testing INT_MAX ∧ pc_of 1 s1 = Outside)
    as (Hlk1 & He1 & Hp01 & Hp11).
  { unfold s1, acquire_t_draw, fetch_and_add. rewrite Hlk.
    cbn [next_ticket current_turn lk entered]. rewrite Hwrap.
    split_and!; [done|done|..]; rewrite pc_of_insert.
    - by rewrite decide_True.
    - rewrite decide_False by done. apply (Hout 1%nat). }
  set (s2 := acquire_t_draw 1 s1).
  assert (lk s2 = mkLock (INT_MIN + 1) INT_MAX ∧ entered s2 = entered s ∧
          pc_of 0 s2 = Testing INT_MAX ∧ pc_of 1 s2 = Testing INT_MIN)
    as (Hlk2 & He2 & Hp02 & Hp12).
  { unfold s2, acquire_t_draw, fetch_and_add. rewrite Hlk1.
    cbn [next_ticket current_turn lk entered]. rewrite Hnext.
    split_and!; [done|done|..]; rewrite pc_of_insert.
    - rewrite decide_False by done. exact Hp01.
    - by rewrite decide_True. }
  set (s3 := acquire_t_test 0 INT_MAX s2).
  assert (lk s3 = mkLock (INT_MIN + 1) INT_MAX ∧
          entered s3 = entered s ++ [INT_MAX] ∧
          pc_of 0 s3 = Holding INT_MAX ∧ pc_of 1 s3 = Testing INT_MIN)
    as (Hlk3 & He3 & Hp03 & Hp13).
  { unfold s3, acquire_t_test. rewrite Hlk2. cbn [current_turn].
    rewrite decide_False by (intros H; by apply H). cbn [lk entered].
    rewrite He2. split_and!; [done|done|..]; rewrite pc_of_insert.
    - by rewrite decide_True.
    - rewrite decide_False by done. exact Hp12. }
  set (s4 := release_t_add 0 s3).
  assert (lk s4 = mkLock (INT_MIN + 1) INT_MIN ∧
          entered s4 = entered s ++ [INT_MAX] ∧
          pc_of 0 s4 = Releasing ∧ pc_of 1 s4 = Testing INT_MIN)
    as (Hlk4 & He4 & Hp04 & Hp14).
  { split_and!.
    - unfold s4, release_t_add, fetch_and_add. rewrite Hlk3.
      cbn [next_ticket current_turn lk]. by rewrite Hwrap.
    - unfold s4, release_t_add, fetch_and_add. cbn [entered]. exact He3.
    - unfold s4. rewrite pc_of_add. by rewrite decide_True.
    - unfold s4. rewrite pc_of_add. rewrite decide_False by done. exact Hp13. }
  set (s5 := release_t_wakeup 0 s4).
  assert (lk s5 = mkLock (INT_MIN + 1) INT_MIN ∧
          entered s5 = entered s ++ [INT_MAX] ∧ pc_of 1 s5 = Testing INT_MIN)
    as (Hlk5 & He5 & Hp15).
  { split_and!; [exact Hlk4|exact He4|].
    unfold s5. rewrite pc_of_wakeup, decide_False by done. by rewrite Hp14. }
  set (s6 := acquire_t_test 1 INT_MIN s5).
  exists s6. split_and!.
  - rewrite (run_cons _ _ s s1) by (apply step_draw, Hout).
    rewrite (run_cons _ _ s1 s2) by (by apply step_draw).
    rewrite (run_cons _ _ s2 s3) by (by apply step_test).
    rewrite (run_cons _ _ s3 s4) by (by apply (step_release 0 INT_MAX)).
    rewrite (run_cons _ _ s4 s5) by (by apply step_broadcast).
    rewrite (run_cons _ _ s5 s6) by (by apply step_test).
    reflexivity.
  - unfold s6, acquire_t_test. rewrite Hlk5. cbn [current_turn].
    rewrite decide_False by (intros H; by apply H). cbn [entered].
    rewrite He5, <- app_assoc. reflexivity.
  - unfold s6, acquire_t_test. rewrite Hlk5. cbn [current_turn].
    rewrite decide_False by (intros H; by apply H).
    by rewrite pc_of_insert, decide_True.
  - unfold s6, acquire_t_test. rewrite Hlk5. cbn [current_turn].
    rewrite decide_False by (intros H; by apply H). reflexivity.
Qed.

(** C9, as stated, fails: [fetch_and_add] on an [int] wraps. After
    2^31 - 1 acquisitions both counters are at the largest [int].
    Thread 0 then draws the ticket 2^31 - 1 and thread 1 the ticket -2^31;
    thread 0 enters first and thread 1 after it. The acquirer that drew
    the smaller ticket has entered second, and [next_ticket] has gone
    down. The schedule draws 2^31 + 1 tickets. *)
Theorem ticket_order_wraps :
  ∃ (s : sys) (i j : nat),
    run Schedules.wrap_around init = Some s ∧
    draws Schedules.wrap_around = INT_MAX + 2 ∧
    entered s !! i = Some INT_MAX ∧ entered s !! j = Some INT_MIN ∧
    (i < j)%nat ∧ INT_MIN < INT_MAX ∧
    pc_of 1 s = Holding INT_MIN ∧
    lk s = mkLock (INT_MIN + 1) INT_MIN.
Proof.
  assert (0 ≤ INT_MAX) as Hpos by (by unfold INT_MAX).
  assert (Z.of_nat (Z.to_nat INT_MAX) = INT_MAX) as Hn by (by apply Z2Nat.id).
  assert (idle_at 0 init) as Hinit by (split; [done|intros t; done]).
  destruct (rounds_alone (Z.to_nat INT_MAX) 0 init Hinit (Z.le_refl 0))
    as (s1 & Hrun1 & Hidle1 & He1).
  { rewrite Hn. apply Z.le_refl. }
  rewrite Hn in Hidle1, He1. change (0 + INT_MAX) with INT_MAX in Hidle1.
  destruct (wrap_tail s1 Hidle1) as (s2 & Hrun2 & He2 & Hp & Hlk).
  rewrite He1 in He2. change (entered init) with (@nil Z) in He2.
  rewrite app_nil_l in He2.
  exists s2, (length (seqZ 0 INT_MAX)), (S (length (seqZ 0 INT_MAX))).
  split; [|split; [|split; [|split; [|split; [|split; [|split]]]]]].
  - unfold Schedules.wrap_around. rewrite run_app, Hrun1. exact Hrun2.
  - unfold Schedules.wrap_around. rewrite draws_app, draws_alone, Hn.
    reflexivity.
  - rewrite He2. by apply list_lookup_middle.
  - rewrite He2.
    change (seqZ 0 INT_MAX ++ [INT_MAX; INT_MIN])
      with (seqZ 0 INT_MAX ++ [INT_MAX] ++ [INT_MIN]).
    rewrite app_assoc. apply list_lookup_middle.
    rewrite length_app. change (length [INT_MAX]) with 1%nat.
    symmetry. apply Nat.add_1_r.
  - apply Nat.lt_succ_diag_r.
  - reflexivity.
  - exact Hp.
  - exact Hlk.
Qed.

(** * Further properties *)

Import Rest Scenarios.

(** ** More on the lottery *)

Lemma runnable_total_none (t : list proc) :
  Forall (λ p, state p ≠ RUNNABLE) t → runnable_total t = 0.
Proof.
  induction 1 as [|p t Hp _ IH]; cbn; [done|].
  rewrite decide_False by done. lia.
Qed.

Lemma tickets_sum_from_none (t : list proc) (c0 : Z) :
  Forall (λ p, state p ≠ RUNNABLE) t → tickets_sum_from t c0 = c0.
Proof.
  induction 1 as [|p t Hp _ IH]; cbn; [done|].
  by rewrite decide_False.
Qed.

Lemma scheduler_scan_none (winner : Z) (t : list proc) (i0 : nat) (c0 : Z) :
  Forall (λ p, state p ≠ RUNNABLE) t → scheduler_scan winner t i0 c0 = None.
Proof.
  intros H. revert i0. induction H as [|p t Hp _ IH]; intros i0; cbn; [done|].
  by rewrite decide_True.
Qed.

(** X1. A pass over a table without a RUNNABLE record counts 0 tickets,
    dispatches nobody and leaves the kernel state as it was, whatever
    number is drawn: the scheduler idles, it does not fail. *)
Theorem scheduler_idles (random_at_most : Z → Z) (run : nat → kstate → kstate)
    (s : kstate) :
  Forall (λ p, state p ≠ RUNNABLE) (ptable s) →
  tickets_sum (ptable s) = 0 ∧
  scheduler_pass random_at_most run s = (None, s).
Proof.
  intros H. split.
  - by apply tickets_sum_from_none.
  - unfold scheduler_pass. by rewrite scheduler_scan_none.
Qed.

Lemma scheduler_idles_witness :
  Forall (λ p, state p ≠ RUNNABLE) (ptable Fixtures.sleepers) ∧
  tickets_sum (ptable Fixtures.sleepers) = 0 ∧
  scheduler_pass (λ _, 0) (λ _ s, s) Fixtures.sleepers = (None, Fixtures.sleepers).
Proof.
  assert (Forall (λ p, state p ≠ RUNNABLE) (ptable Fixtures.sleepers)) as H
    by (repeat constructor; by vm_compute).
  split; [exact H|].
  exact (scheduler_idles (λ _, 0) (λ _ s, s) Fixtures.sleepers H).
Defined.

Lemma scheduler_scan_reaches (winner : Z) (t : list proc) (i0 : nat) (c0 : Z) :
  sums_fit c0 t → Exists (λ p, state p = RUNNABLE) t →
  winner ≤ c0 + runnable_total t →
  is_Some (scheduler_scan winner t i0 c0).
Proof.
  revert i0 c0. induction t as [|p t IH]; intros i0 c0 Hfit Hex Hw.
  - by apply Exists_nil in Hex.
  - pose proof (sums_fit_tail _ _ _ Hfit) as Htl.
    cbn [scheduler_scan runnable_total] in *.
    destruct (decide (state p ≠ RUNNABLE)) as [Hp|Hp].
    + rewrite decide_False in Htl, Hw by done. rewrite Z.add_0_r in Htl.
      apply IH; [done| |lia].
      apply Exists_cons in Hex as [Hex|Hex]; done.
    + assert (state p = RUNNABLE) as Hr
        by (by destruct (decide (state p = RUNNABLE))).
      rewrite decide_True in Htl, Hw by done.
      rewrite (to_int_id _ (sums_fit_head _ _ _ Hfit Hr)).
      case_decide as Hlow; [|done].
      apply IH; [done| |lia].
      destruct (decide (Exists (λ p, state p = RUNNABLE) t)) as [He|He]; [done|].
      apply not_Exists_Forall in He; [|apply _].
      rewrite (runnable_total_none t) in Hw; [lia|].
      eapply Forall_impl; [exact He|]. done.
Qed.

(** X2. When some record is RUNNABLE and the number drawn is not above
    the total of the RUNNABLE tickets, which is what [random_at_most]
    promises, the pass does dispatch a process, and a RUNNABLE one: the
    inner loop does not run off the table. *)
Theorem scheduler_dispatches (random_at_most : Z → Z)
    (run : nat → kstate → kstate) (s : kstate) :
  no_overflow (ptable s) →
  Exists (λ p, state p = RUNNABLE) (ptable s) →
  random_at_most (tickets_sum (ptable s)) ≤ tickets_sum (ptable s) →
  ∃ i p, (scheduler_pass random_at_most run s).1 = Some i ∧
         ptable s !! i = Some p ∧ state p = RUNNABLE.
Proof.
  intros Hno Hex Hw. pose proof (no_overflow_sums_fit _ Hno) as Hfit.
  assert (tickets_sum (ptable s) = runnable_total (ptable s)) as Hsum.
  { unfold tickets_sum. rewrite (tickets_sum_from_total _ _ Hfit). lia. }
  destruct (scheduler_scan_reaches
              (random_at_most (tickets_sum (ptable s))) (ptable s) 0 0 Hfit Hex)
    as [i Hi]; [lia|].
  destruct (scheduler_scan_runnable _ _ _ _ _ Hi) as (j & p & -> & Hp & Hst).
  exists j, p. unfold scheduler_pass. rewrite Hi. done.
Qed.

Lemma scheduler_dispatches_witness :
  no_overflow (ptable Fixtures.lottery) ∧
  Exists (λ p, state p = RUNNABLE) (ptable Fixtures.lottery) ∧
  ∃ i p, (scheduler_pass (λ total, total) (λ _ s, s) Fixtures.lottery).1 = Some i ∧
         ptable Fixtures.lottery !! i = Some p ∧ state p = RUNNABLE.
Proof.
  assert (Exists (λ p, state p = RUNNABLE) (ptable Fixtures.lottery)) as Hex.
  { apply Exists_cons_tl, Exists_cons_hd. reflexivity. }
  split; [exact lottery_no_overflow|]. split; [exact Hex|].
  apply (scheduler_dispatches (λ total, total) (λ _ s, s) Fixtures.lottery
           lottery_no_overflow Hex).
  cbv beta. lia.
Defined.

Lemma runnable_total_app (u v : list proc) :
  runnable_total (u ++ v) = runnable_total u + runnable_total v.
Proof. induction u as [|p u IH]; cbn; [done|]. rewrite IH. lia. Qed.

(** The last RUNNABLE record of a table has all the RUNNABLE tickets at or
    before it. *)
Lemma last_runnable (u : list proc) :
  Exists (λ p, state p = RUNNABLE) u →
  ∃ j q, u !! j = Some q ∧ state q = RUNNABLE ∧ cumulative u j = runnable_total u.
Proof.
  induction u as [|x u IH] using rev_ind; [by intros H%Exists_nil|].
  intros Hex. destruct (decide (state x = RUNNABLE)) as [Hx|Hx].
  - exists (length u), x. split_and!; [by apply list_lookup_middle|done|].
    apply cumulative_last. rewrite length_app. cbn. lia.
  - apply Exists_app in Hex as [Hex|Hex].
    2:{ apply Exists_cons in Hex as [Hex|Hex]; [done|by apply Exists_nil in Hex]. }
    destruct (IH Hex) as (j & q & Hj & Hq & Hcum).
    pose proof (lookup_lt_Some _ _ _ Hj) as Hlt.
    exists j, q. split_and!; [by apply lookup_app_l_Some|done|].
    unfold cumulative in *. rewrite take_app_le by lia.
    rewrite Hcum, runnable_total_app. cbn. rewrite decide_False by done. lia.
Qed.

(** With tickets that are not negative, the records before slot [i] have
    all let the winner pass exactly when the winner is above their
    total. *)
Lemma earlier_below (u : list proc) (w : Z) :
  Forall (λ p, state p = RUNNABLE → 0 ≤ tickets p) u →
  (∀ j q, u !! j = Some q → state q = RUNNABLE → cumulative u j < w) ↔
  (Exists (λ p, state p = RUNNABLE) u → runnable_total u < w).
Proof.
  intros Hpos. split.
  - intros Hall Hex. destruct (last_runnable u Hex) as (j & q & Hj & Hq & <-).
    by apply (Hall j q).
  - intros Htot j q Hj Hq.
    pose proof (runnable_total_take u (S j) Hpos) as Hle.
    assert (Exists (λ p, state p = RUNNABLE) u) as Hex.
    { apply Exists_exists. exists q. split; [|done].
      apply list_elem_of_lookup. eauto. }
    specialize (Htot Hex). unfold cumulative. lia.
Qed.

(** X3. With tickets that are not negative and sums that fit in an
    [int], a RUNNABLE record in slot [i] is the one dispatched exactly when
    the winner is at most the cumulative count at [i] and, if a RUNNABLE
    record comes before it, above that count less the tickets of [i]: each
    record after the first RUNNABLE one wins for exactly as many values of
    the winner as it has tickets, and the first RUNNABLE one wins for every
    value up to its tickets, 0 included. *)
Theorem lottery_share (random_at_most : Z → Z) (run : nat → kstate → kstate)
    (s : kstate) (i : nat) (p : proc) :
  no_overflow (ptable s) →
  Forall (λ p, state p = RUNNABLE → 0 ≤ tickets p) (ptable s) →
  ptable s !! i = Some p → state p = RUNNABLE →
  let t := ptable s in
  let winner := random_at_most (tickets_sum t) in
  (scheduler_pass random_at_most run s).1 = Some i ↔
  winner ≤ cumulative t i ∧
  (Exists (λ q, state q = RUNNABLE) (take i t) →
   cumulative t i - tickets p < winner).
Proof.
  intros Hno Hpos Hp Hst t winner.
  pose proof (no_overflow_sums_fit _ Hno) as Hfit.
  assert ((scheduler_pass random_at_most run s).1 = Some i ↔
          scheduler_scan winner t 0 0 = Some i) as ->.
  { unfold scheduler_pass. fold t. fold winner.
    destruct (scheduler_scan winner t 0 0); cbn; done. }
  rewrite (scheduler_scan_spec winner t 0 0 i Hfit).
  assert (cumulative t i - tickets p = runnable_total (take i t)) as ->.
  { unfold cumulative. rewrite (take_S_r t i p Hp), runnable_total_app. cbn.
    rewrite decide_True by done. lia. }
  rewrite <- (earlier_below (take i t) winner) by (by apply Forall_take).
  assert (∀ j, (j < i)%nat → cumulative (take i t) j = cumulative t j) as Hcum.
  { intros j Hj. unfold cumulative. rewrite take_take. f_equal. f_equal. lia. }
  split.
  - intros (j & q & Hij & Hq & _ & Hw & Hlt). cbn in Hij. subst j.
    split; [lia|]. intros j q' [Hq' Hj]%lookup_take_Some Hst'.
    rewrite Hcum by done. specialize (Hlt j q' Hj Hq' Hst'). lia.
  - intros [Hw Hlt]. exists i, p. split_and!; [done|done|done|lia|].
    intros j q Hj Hq Hst'. rewrite Z.add_0_l, <- Hcum by done.
    apply (Hlt j q); [|done]. by apply lookup_take_Some.
Qed.

Lemma lottery_share_witness :
  no_overflow (ptable Fixtures.lottery) ∧
  Forall (λ p, state p = RUNNABLE → 0 ≤ tickets p) (ptable Fixtures.lottery) ∧
  cumulative (ptable Fixtures.lottery) 3 = 9 ∧
  ((scheduler_pass (λ _, 5) (λ _ s, s) Fixtures.lottery).1 = Some 3%nat ↔
   5 ≤ 9 ∧ (Exists (λ q, state q = RUNNABLE) (take 3 (ptable Fixtures.lottery)) →
            9 - 4 < 5)) ∧
  ((scheduler_pass (λ _, 6) (λ _ s, s) Fixtures.lottery).1 = Some 3%nat ↔
   6 ≤ 9 ∧ (Exists (λ q, state q = RUNNABLE) (take 3 (ptable Fixtures.lottery)) →
            9 - 4 < 6)).
Proof.
  assert (Forall (λ p, state p = RUNNABLE → 0 ≤ tickets p) (ptable Fixtures.lottery))
    as Hpos by (repeat constructor; by vm_compute).
  split_and!; [exact lottery_no_overflow|exact Hpos|reflexivity|..].
  - exact (lottery_share (λ _, 5) (λ _ s, s) Fixtures.lottery 3 _
             lottery_no_overflow Hpos eq_refl eq_refl).
  - exact (lottery_share (λ _, 6) (λ _ s, s) Fixtures.lottery 3 _
             lottery_no_overflow Hpos eq_refl eq_refl).
Defined.

(** ** Going to sleep in wait and coming back *)

Lemma asleep_slot (cur : nat) (c : wchan) (s : kstate) :
  (cur < length (ptable s))%nat →
  slot cur (ptable (asleep cur c s)) =
    set_state SLEEPING (set_chan c (slot cur (ptable s))).
Proof.
  intros Hlt. unfold asleep, upd, set_ptable. cbn [ptable].
  rewrite !slot_alter_eq; [done|done|by rewrite length_alter].
Qed.

Lemma asleep_other (cur : nat) (c : wchan) (s : kstate) (j : nat) :
  j ≠ cur → ptable (asleep cur c s) !! j = ptable s !! j.
Proof.
  intros Hj. unfold asleep, upd, set_ptable. cbn [ptable].
  by rewrite !list_lookup_alter_ne.
Qed.

Lemma asleep_length (cur : nat) (c : wchan) (s : kstate) :
  length (ptable (asleep cur c s)) = length (ptable s).
Proof. unfold asleep, upd, set_ptable. cbn [ptable]. by rewrite !length_alter. Qed.

(** What [wait] does once its scan found children but no ZOMBIE among
    them and the caller is not killed. *)
Lemma wait_goes_to_sleep (swtch : kstate → option kstate) (fuel cur : nat)
    (s : kstate) :
  (cur < length (ptable s))%nat →
  ¬ Exists (zombie_child cur) (ptable s) →
  Exists (λ p, parent p = Some cur) (ptable s) →
  killed (slot cur (ptable s)) = 0 →
  wait swtch fuel cur s =
    match swtch (asleep cur (CProc cur) s) with
    | None => Descheduled (asleep cur (CProc cur) s)
    | Some s' =>
        match fuel with
        | O => Descheduled (upd cur (set_chan CNull) s')
        | S fuel' => wait swtch fuel' cur (upd cur (set_chan CNull) s')
        end
    end.
Proof.
  intros Hlt Hno Hkids Hk.
  pose proof (asleep_slot cur (CProc cur) s Hlt) as Hsl.
  destruct fuel; cbn [wait]; rewrite (wait_scan_none _ _ _ _ Hno);
    rewrite (bool_decide_eq_true_2 _ Hkids); cbn [orb];
    (rewrite decide_False by (intros [?|?]; done));
    unfold sleep, sched; fold (asleep cur (CProc cur) s);
    rewrite Hsl; cbn [state set_state];
    (rewrite decide_False by done); done.
Qed.

(** X4. A caller of wait that has children, none of them a ZOMBIE, and
    is not killed goes to sleep on its own slot: its record is SLEEPING
    with its own address as channel when the processor is handed over, no
    other record has changed and nothing was released. If it is never
    dispatched again wait does not return; when it is, wait clears the
    channel and scans the table again. *)
Theorem wait_sleeps (swtch : kstate → option kstate) (fuel cur : nat)
    (s : kstate) :
  (cur < length (ptable s))%nat →
  ¬ Exists (zombie_child cur) (ptable s) →
  Exists (λ p, parent p = Some cur) (ptable s) →
  killed (slot cur (ptable s)) = 0 →
  let s1 := asleep cur (CProc cur) s in
  state (slot cur (ptable s1)) = SLEEPING ∧
  chan (slot cur (ptable s1)) = CProc cur ∧
  (∀ j, j ≠ cur → ptable s1 !! j = ptable s !! j) ∧
  trace s1 = trace s ∧
  (swtch s1 = None → wait swtch fuel cur s = Descheduled s1) ∧
  (∀ s', swtch s1 = Some s' →
         wait swtch (S fuel) cur s =
           wait swtch fuel cur (upd cur (set_chan CNull) s')).
Proof.
  intros Hlt Hno Hkids Hk s1.
  split_and!.
  - unfold s1. by rewrite asleep_slot.
  - unfold s1. by rewrite asleep_slot.
  - intros j Hj. by apply asleep_other.
  - done.
  - intros Hsw. rewrite wait_goes_to_sleep by done. fold s1. by rewrite Hsw.
  - intros s' Hsw. rewrite wait_goes_to_sleep by done. fold s1. by rewrite Hsw.
Qed.

Lemma one_child_waits :
  let s := Fixtures.one_child in
  (0 < length (ptable s))%nat ∧
  ¬ Exists (zombie_child 0) (ptable s) ∧
  Exists (λ p, parent p = Some 0%nat) (ptable s) ∧
  killed (slot 0 (ptable s)) = 0.
Proof.
  split_and!; [cbn; lia| |by right; left|done].
  apply (bool_decide_unpack _). by vm_compute.
Qed.

Lemma wait_sleeps_witness :
  let s := Fixtures.one_child in
  (0 < length (ptable s))%nat ∧
  ¬ Exists (zombie_child 0) (ptable s) ∧
  Exists (λ p, parent p = Some 0%nat) (ptable s) ∧
  killed (slot 0 (ptable s)) = 0 ∧
  state (slot 0 (ptable (asleep 0 (CProc 0) s))) = SLEEPING ∧
  wait (λ _, None) 3 0 s = Descheduled (asleep 0 (CProc 0) s).
Proof.
  destruct one_child_waits as (H1 & H2 & H3 & H4).
  split_and!; [done..| |].
  - exact (proj1 (wait_sleeps (λ _, None) 3 0 Fixtures.one_child H1 H2 H3 H4)).
  - exact (proj1 (proj2 (proj2 (proj2 (proj2
      (wait_sleeps (λ _, None) 3 0 Fixtures.one_child H1 H2 H3 H4))))) eq_refl).
Defined.

(** The records [exit] leaves, field by field. *)
Lemma exit_record_fields (cur : nat) (init : option nat) (c : wchan) (z : bool)
    (j : nat) (p : proc) :
  pid (exit_record cur init c z j p) = pid p ∧
  kstack (exit_record cur init c z j p) = kstack p ∧
  pgdir (exit_record cur init c z j p) = pgdir p ∧
  killed (exit_record cur init c z j p) = killed p ∧
  (parent p ≠ Some cur → parent (exit_record cur init c z j p) = parent p) ∧
  (parent p = Some cur → parent (exit_record cur init c z j p) = init) ∧
  (j = cur → state (exit_record cur init c z j p) = ZOMBIE) ∧
  (j ≠ cur → state (exit_record cur init c z j p) = ZOMBIE ↔ state p = ZOMBIE).
Proof.
  unfold exit_record, reparent, wake. destruct z;
    repeat case_decide; cbn in *; split_and!; intros; try done;
    try tauto; split; intros; destruct_and?; congruence.
Qed.

Lemma exit_record_wakes (cur : nat) (init : option nat) (c : wchan) (z : bool)
    (j : nat) (p : proc) :
  j ≠ cur → state p = SLEEPING → chan p = c →
  state (exit_record cur init c z j p) = RUNNABLE.
Proof.
  intros Hj Hst Hc. unfold exit_record.
  rewrite !decide_False by done.
  assert (state (reparent cur init (wake c p)) = RUNNABLE) as Hr.
  { rewrite reparent_state. by apply wake_sleeper. }
  destruct z; [by apply wake_runnable|done].
Qed.

Lemma asleep_slot_other (cur : nat) (c : wchan) (s : kstate) (j : nat) :
  j ≠ cur → slot j (ptable (asleep cur c s)) = slot j (ptable s).
Proof. intros Hj. unfold slot. by rewrite asleep_other. Qed.

(** The table a woken process works on: its own record RUNNING with the
    channel cleared, the others as they were. *)
Lemma resumed_lookup (q : nat) (s : kstate) (j : nat) :
  ptable (upd q (set_chan CNull) (dispatched q s)) !! j =
    if decide (j = q)
    then (λ p, set_chan CNull (set_state RUNNING p)) <$> ptable s !! j
    else ptable s !! j.
Proof.
  unfold dispatched, upd, set_ptable. cbn [ptable].
  rewrite list_alter_alter_eq. case_decide as Hj.
  - subst j. by rewrite list_lookup_alter_eq.
  - by rewrite list_lookup_alter_ne.
Qed.

(** X5. A parent asleep in wait and a child that exits meet: the exit
    of the child leaves the child a ZOMBIE and the parent RUNNABLE, and
    when the parent is dispatched from that state its wait reclaims the
    child and answers the pid of the child. (When the parent is init
    itself, the child must not leave ZOMBIE children of its own, which
    init would find first if they come earlier in the table.) *)
Theorem exit_wakes_wait (swtch : kstate → option kstate) (fuel q c r : nat)
    (s : kstate) :
  initproc s = Some r → r ≠ c → q ≠ c →
  (q < length (ptable s))%nat → (c < length (ptable s))%nat →
  parent (slot c (ptable s)) = Some q →
  ¬ Exists (zombie_child q) (ptable s) →
  (r = q → ¬ Exists (zombie_child c) (ptable s)) →
  killed (slot q (ptable s)) = 0 →
  ∃ s2,
    exit (λ _, None) c (asleep q (CProc q) s) = Descheduled s2 ∧
    state (slot q (ptable s2)) = RUNNABLE ∧
    state (slot c (ptable s2)) = ZOMBIE ∧
    (swtch (asleep q (CProc q) s) = Some (dispatched q s2) →
     ∃ s3,
       wait swtch (S fuel) q s = Return (pid (slot c (ptable s))) s3 ∧
       state (slot c (ptable s3)) = UNUSED ∧
       trace s3 = trace s2 ++ [EKfree (kstack (slot c (ptable s)));
                               EFreevm (pgdir (slot c (ptable s)))]).
Proof.
  intros Hinit Hrc Hqc Hq Hc Hpar Hno Hgrand Hk.
  set (s1 := asleep q (CProc q) s).
  assert (length (ptable s1) = length (ptable s)) as Hlen by apply asleep_length.
  assert (initproc s1 = Some r) as Hinit1 by done.
  assert (slot c (ptable s1) = slot c (ptable s)) as Hc1
    by (apply asleep_slot_other; done).
  destruct (exit_handoff c s1) as (s2 & Htab & _ & _ & _ & Hexit).
  { rewrite Hinit1. congruence. }
  { by rewrite Hlen. }
  rewrite Hinit1 in Htab.
  assert (∀ j, (j < length (ptable s))%nat →
            slot j (ptable s2) =
              exit_record c (Some r) (CProc q)
                (bool_decide (Exists (zombie_child c) (ptable s1))) j
                (slot j (ptable s1))) as Hrec.
  { intros j Hj. rewrite Htab, slot_exit_table by (by rewrite Hlen).
    by rewrite Hc1, Hpar. }
  set (z := bool_decide (Exists (zombie_child c) (ptable s1))) in Hrec.
  exists s2. split_and!.
  - by rewrite Hexit.
  - rewrite Hrec by done. apply exit_record_wakes; [done|..];
      unfold s1; by rewrite asleep_slot.
  - rewrite Hrec by done.
    by apply (proj1 (proj2 (proj2 (proj2 (proj2 (proj2 (proj2
         (exit_record_fields c (Some r) (CProc q) z c (slot c (ptable s1)))))))))).
  - intros Hsw.
    assert (Exists (λ p, parent p = Some q) (ptable s)) as Hkids.
    { apply Exists_lookup. exists c, (slot c (ptable s)).
      split; [by apply lookup_slot|done]. }
    rewrite wait_goes_to_sleep by done. fold s1. rewrite Hsw.
    set (s2' := upd q (set_chan CNull) (dispatched q s2)).
    assert (length (ptable s2) = length (ptable s)) as Hlen2.
    { by rewrite Htab, exit_table_length. }
    assert (ptable s2' !! c = Some (slot c (ptable s2))) as Hc2.
    { unfold s2'. rewrite resumed_lookup, decide_False by done.
      apply lookup_slot. by rewrite Hlen2. }
    pose proof (exit_record_fields c (Some r) (CProc q) z c (slot c (ptable s1)))
      as (Hpid & Hks & Hpg & _ & Hkeep & _ & Hz & _).
    rewrite <- Hrec in Hpid, Hks, Hpg, Hkeep, Hz by done.
    rewrite Hc1 in Hpid, Hks, Hpg, Hkeep.
    eexists. split_and!.
    + rewrite (wait_reaps swtch fuel q s2' c _ Hc2).
      * by rewrite Hpid.
      * split; [|by apply Hz]. rewrite Hkeep; [done|].
        rewrite Hpar. by intros [= ->].
      * intros j x Hx Hjc [Hxpar Hxst]. unfold s2' in Hx.
        rewrite resumed_lookup in Hx.
        assert (j < length (ptable s2))%nat as Hj.
        { destruct (decide (j = q)); [subst; by rewrite Hlen2|].
          by apply lookup_lt_Some in Hx. }
        rewrite (lookup_slot _ _ Hj) in Hx.
        case_decide as Hjq; cbn in Hx; injection Hx as <-; [done|].
        rewrite Hlen2 in Hj. rewrite Hrec in Hxpar, Hxst by done.
        unfold s1 in Hxpar, Hxst.
        rewrite asleep_slot_other in Hxpar, Hxst by done.
        pose proof (exit_record_fields c (Some r) (CProc q) z j
                      (slot j (ptable s)))
          as (_ & _ & _ & _ & Hkeep' & Hmove & _ & Hzz).
        apply Hzz in Hxst; [|lia].
        destruct (decide (parent (slot j (ptable s)) = Some c)) as [Hpc|Hpc].
        -- rewrite Hmove in Hxpar by done. injection Hxpar as ->.
           apply Hgrand; [done|]. apply Exists_lookup.
           exists j, (slot j (ptable s)). split; [by apply lookup_slot|done].
        -- rewrite Hkeep' in Hxpar by done.
           apply Hno. apply Exists_lookup.
           exists j, (slot j (ptable s)). split; [by apply lookup_slot|done].
    + cbn [ptable]. rewrite slot_alter_eq; [done|].
      by apply lookup_lt_Some in Hc2.
    + cbn [trace]. by rewrite Hks, Hpg.
Qed.

Lemma exit_wakes_wait_witness :
  initproc family = Some 0%nat ∧ 0%nat ≠ 2%nat ∧ 1%nat ≠ 2%nat ∧
  parent (slot 2 (ptable family)) = Some 1%nat ∧
  ¬ Exists (zombie_child 1) (ptable family) ∧
  killed (slot 1 (ptable family)) = 0 ∧
  ∃ s3, wait (exit_meanwhile 2 1) 1 1 family = Return 3 s3 ∧
        state (slot 2 (ptable s3)) = UNUSED ∧
        trace s3 = [EIput 0; EKfree 7000; EFreevm 300].
Proof.
  assert (¬ Exists (zombie_child 1) (ptable family)) as Hno
    by (apply (bool_decide_unpack _); by vm_compute).
  split_and!; [done..|].
  destruct (exit_wakes_wait (exit_meanwhile 2 1) 0 1 2 0 family)
    as (s2 & Hexit & _ & _ & Hwait); [done|lia|lia|cbn; lia|cbn; lia|done|done|lia|done|].
  destruct Hwait as (s3 & Hw & Hst & Htr).
  { unfold exit_meanwhile. by rewrite Hexit. }
  exists s3. split_and!; [done|done|].
  rewrite Htr. f_equal. vm_compute in Hexit. by injection Hexit as <-.
Defined.

Lemma kill_mark_fields (p : proc) :
  killed (kill_mark p) = 1 ∧ parent (kill_mark p) = parent p ∧
  pid (kill_mark p) = pid p ∧
  (state p = SLEEPING → state (kill_mark p) = RUNNABLE) ∧
  (state p ≠ SLEEPING → state (kill_mark p) = state p).
Proof. rewrite kill_mark_eq. case_decide; cbn; split_and!; done. Qed.

(** X6. Killing a process that sleeps in wait ends its wait: kill marks
    the record and makes it RUNNABLE, and when the process is dispatched
    from that state, with still no ZOMBIE among its children, wait answers
    -1 without reclaiming anything; the children keep their records and
    their parent. *)
Theorem kill_ends_wait (swtch : kstate → option kstate) (fuel q : nat)
    (s : kstate) :
  (q < length (ptable s))%nat →
  ¬ Exists (zombie_child q) (ptable s) →
  Exists (λ p, parent p = Some q) (ptable s) →
  killed (slot q (ptable s)) = 0 →
  (∀ j x, ptable s !! j = Some x → (j < q)%nat → pid x ≠ pid (slot q (ptable s))) →
  let s1 := asleep q (CProc q) s in
  let k := kill (pid (slot q (ptable s))) s1 in
  k.1 = 0 ∧
  state (slot q (ptable k.2)) = RUNNABLE ∧ killed (slot q (ptable k.2)) = 1 ∧
  (swtch s1 = Some (dispatched q k.2) →
   ∃ s3, wait swtch (S fuel) q s = Return (-1) s3 ∧
         killed (slot q (ptable s3)) = 1 ∧
         trace s3 = trace s ∧
         ∀ j, j ≠ q → ptable s3 !! j = ptable s !! j).
Proof.
  intros Hq Hno Hkids Hk Hfirst s1 k.
  assert (length (ptable s1) = length (ptable s)) as Hlen by apply asleep_length.
  assert (ptable s1 !! q = Some (slot q (ptable s1))) as Hq1
    by (apply lookup_slot; by rewrite Hlen).
  assert (slot q (ptable s1) =
          set_state SLEEPING (set_chan (CProc q) (slot q (ptable s)))) as Hsl
    by (by apply asleep_slot).
  assert (k = (0, upd q kill_mark s1)) as Hkill.
  { apply (kill_found _ s1 q _ Hq1); [by rewrite Hsl|].
    intros j x Hx Hj. unfold s1 in Hx. rewrite asleep_other in Hx by lia.
    by apply (Hfirst j). }
  assert (slot q (ptable k.2) = kill_mark (slot q (ptable s1))) as Hq2.
  { rewrite Hkill. unfold upd, set_ptable. cbn [snd ptable]. apply slot_alter_eq. by rewrite Hlen. }
  pose proof (kill_mark_fields (slot q (ptable s1))) as (Hkd & _ & _ & Hwoke & _).
  split_and!.
  - by rewrite Hkill.
  - rewrite Hq2. apply Hwoke. by rewrite Hsl.
  - by rewrite Hq2.
  - intros Hsw. rewrite wait_goes_to_sleep by done. fold s1. rewrite Hsw.
    set (s3 := upd q (set_chan CNull) (dispatched q k.2)).
    assert (∀ j, j ≠ q → ptable s3 !! j = ptable s !! j) as Hother.
    { intros j Hj. unfold s3. rewrite resumed_lookup, decide_False by done.
      rewrite Hkill. unfold upd, set_ptable. cbn [snd ptable]. rewrite list_lookup_alter_ne by done.
      by apply asleep_other. }
    assert (ptable s3 !! q =
            Some (set_chan CNull (set_state RUNNING (slot q (ptable k.2))))) as Hq3.
    { unfold s3. rewrite resumed_lookup, decide_True by done.
      rewrite (lookup_slot (ptable k.2) q); [done|].
      rewrite Hkill. unfold upd, set_ptable. cbn [snd ptable]. by rewrite length_alter, Hlen. }
    exists s3. split_and!; [|by rewrite (slot_lookup _ _ _ Hq3), Hq2|unfold s3; by rewrite Hkill|done].
    apply wait_fails.
    + intros (j & x & Hx & Hxpar & Hxst)%Exists_lookup.
      destruct (decide (j = q)) as [->|Hj].
      * rewrite Hq3 in Hx. by injection Hx as <-.
      * rewrite Hother in Hx by done. apply Hno, Exists_lookup.
        exists j, x. by split.
    + right. rewrite (slot_lookup _ _ _ Hq3), Hq2. cbn [killed set_chan set_state].
      by rewrite Hkd.
Qed.

Lemma kill_ends_wait_witness :
  ¬ Exists (zombie_child 0) (ptable Fixtures.one_child) ∧
  Exists (λ p, parent p = Some 0%nat) (ptable Fixtures.one_child) ∧
  killed (slot 0 (ptable Fixtures.one_child)) = 0 ∧
  ∃ s3, wait (kill_meanwhile 1 0) 1 0 Fixtures.one_child = Return (-1) s3 ∧
        killed (slot 0 (ptable s3)) = 1.
Proof.
  destruct one_child_waits as (H1 & H2 & H3 & H4).
  split_and!; [done..|].
  destruct (kill_ends_wait (kill_meanwhile 1 0) 0 0 Fixtures.one_child H1 H2 H3 H4)
    as (_ & _ & _ & Hwait); [intros j x _ Hj; lia|].
  destruct Hwait as (s3 & Hw & Hkd & _); [done|].
  by exists s3.
Defined.

(** ** fork and clone when they succeed *)

Lemma dup_files_closed (from to : list Z) :
  length from = length to → Forall (λ f, f = 0) to → dup_files from to = from.
Proof.
  revert to. induction from as [|f from IH]; intros [|g to] Hlen Hz; try done.
  cbn [dup_files]. apply Forall_cons in Hz as [-> Hz].
  rewrite IH by (cbn in Hlen; done || lia). by case_decide; subst.
Qed.

Lemma inherit_files_eq (np cur : nat) (s : kstate) (par : proc) :
  np ≠ cur → ptable s !! cur = Some par →
  inherit_files np cur s =
    mkK (alter (λ p, set_name (name par) (set_cwd (cwd par)
                  (set_ofile (dup_files (ofile par) (ofile p)) p))) np (ptable s))
        (nextpid s) (initproc s) (umem s)
        (trace s ++ (EFiledup <$> open_files (ofile par)) ++ [EIdup (cwd par)]).
Proof.
  intros Hne Hpar. unfold inherit_files, assign, emit, upd, set_ptable.
  cbn [ptable nextpid initproc umem trace].
  rewrite !slot_alter_ne by done. rewrite (slot_lookup _ _ _ Hpar).
  rewrite !list_alter_alter_eq. by rewrite <- app_assoc.
Qed.

Lemma fork_eq (k c : Z) (cur : nat) (s : kstate) (i : nat) (p par : proc) :
  k ≠ 0 → c ≠ 0 → ptable s !! i = Some p → state p = UNUSED →
  (∀ j q, ptable s !! j = Some q → (j < i)%nat → state q ≠ UNUSED) →
  ptable s !! cur = Some par → state par ≠ UNUSED →
  fork k c cur s =
    (nextpid s,
     mkK (alter (forked (nextpid s) k c cur par) i (ptable s))
         (to_int (nextpid s + 1)) (initproc s) (umem s)
         (trace s ++ (EFiledup <$> open_files (ofile par)) ++ [EIdup (cwd par)])).
Proof.
  intros Hk Hc Hp Hst Hfirst Hpar Hlive.
  assert (i ≠ cur) as Hne by (intros ->; congruence).
  pose proof (lookup_lt_Some _ _ _ Hp) as Hi.
  unfold fork. rewrite (allocproc_ok k s i p Hk Hp Hst Hfirst).
  rewrite decide_False by done.
  unfold assign, upd, set_ptable. cbn [ptable nextpid initproc umem trace].
  rewrite !slot_alter_ne by done. rewrite (slot_lookup _ _ _ Hpar).
  rewrite !list_alter_alter_eq.
  erewrite inherit_files_eq; [|done|cbn [ptable]; by rewrite list_lookup_alter_ne].
  cbn [ptable nextpid initproc umem trace].
  rewrite !list_alter_alter_eq.
  rewrite slot_alter_eq by done. rewrite (slot_lookup _ _ _ Hp).
  done.
Qed.

(** X7. fork, when there is a free slot, a page for the kernel stack and
    a copy of the address space: the caller gets the pid of the child,
    which is the value of [nextpid] before the call; the child sits in the
    first UNUSED slot, RUNNABLE, with the caller as parent and with the
    caller's tickets, size, name, working directory and registers, except
    that its [eax] is 0; it has the caller's descriptors when those of the
    slot were closed; the flag [killed] of the slot is not reset. Every
    open descriptor and the working directory are duplicated once, and no
    other record changes. *)
Theorem fork_child (k c : Z) (cur : nat) (s : kstate) (i : nat) (p par : proc) :
  k ≠ 0 → c ≠ 0 → ptable s !! i = Some p → state p = UNUSED →
  (∀ j q, ptable s !! j = Some q → (j < i)%nat → state q ≠ UNUSED) →
  ptable s !! cur = Some par → state par ≠ UNUSED →
  let r := fork k c cur s in
  let child := slot i (ptable r.2) in
  r.1 = nextpid s ∧ pid child = nextpid s ∧
  nextpid r.2 = to_int (nextpid s + 1) ∧
  child = forked (nextpid s) k c cur par p ∧
  state child = RUNNABLE ∧ parent child = Some cur ∧
  tickets child = tickets par ∧ sz child = sz par ∧ pgdir child = c ∧
  kstack child = k ∧ name child = name par ∧ cwd child = cwd par ∧
  tf child = set_eax 0 (tf par) ∧ killed child = killed p ∧
  (length (ofile par) = length (ofile p) → Forall (λ f, f = 0) (ofile p) →
   ofile child = ofile par) ∧
  trace r.2 = trace s ++ (EFiledup <$> open_files (ofile par)) ++ [EIdup (cwd par)] ∧
  (∀ j, j ≠ i → ptable r.2 !! j = ptable s !! j).
Proof.
  intros Hk Hc Hp Hst Hfirst Hpar Hlive r child.
  pose proof (lookup_lt_Some _ _ _ Hp) as Hi.
  assert (child = forked (nextpid s) k c cur par p) as Hchild.
  { unfold child, r. rewrite (fork_eq k c cur s i p par) by done.
    cbn [snd ptable]. rewrite slot_alter_eq by done.
    by rewrite (slot_lookup _ _ _ Hp). }
  unfold r. rewrite (fork_eq k c cur s i p par) by done.
  rewrite Hchild. cbn [fst snd ptable nextpid trace].
  split_and!; try done.
  - intros Hlen Hz. cbn. by apply dup_files_closed.
  - intros j Hj. by rewrite list_lookup_alter_ne.
Qed.

Lemma fork_child_witness :
  let r := fork 7000 900 1 Fixtures.cloner in
  r.1 = 3 ∧ state (slot 2 (ptable r.2)) = RUNNABLE ∧
  parent (slot 2 (ptable r.2)) = Some 1%nat ∧
  tickets (slot 2 (ptable r.2)) = 7 ∧
  eax (tf (slot 2 (ptable r.2))) = 0.
Proof.
  pose proof (fork_child 7000 900 1 Fixtures.cloner 2 proc0
                (slot 1 (ptable Fixtures.cloner))) as H.
  destruct H as (H1 & _ & _ & H4 & H5 & H6 & H7 & _ & _ & _ & _ & _ & H13 & _);
    [done|done|done|done| |done|done|].
  { intros [|[|j]] q Hq Hj; [by injection Hq as <-..|lia]. }
  cbn zeta. rewrite H1, H5, H6, H7, H13. done.
Defined.

(** X8. kill does not look at the state of the record it marks, and
    allocproc does not reset [killed]: after kill(0) has found a slot that
    was never allocated, the next fork that takes this slot makes a child
    that is RUNNABLE and already marked as killed. *)
Theorem kill_zero_marks_next_child (k c : Z) (cur : nat) (s : kstate) (i : nat)
    (p par : proc) :
  k ≠ 0 → c ≠ 0 →
  ptable s !! i = Some p → state p = UNUSED → pid p = 0 →
  (∀ j q, ptable s !! j = Some q → (j < i)%nat → state q ≠ UNUSED ∧ pid q ≠ 0) →
  ptable s !! cur = Some par → state par ≠ UNUSED →
  let s1 := (kill 0 s).2 in
  let r := fork k c cur s1 in
  (kill 0 s).1 = 0 ∧
  r.1 = nextpid s ∧
  state (slot i (ptable r.2)) = RUNNABLE ∧
  pid (slot i (ptable r.2)) = nextpid s ∧
  killed (slot i (ptable r.2)) = 1.
Proof.
  intros Hk Hc Hp Hst Hpid Hfirst Hpar Hlive s1 r.
  assert (i ≠ cur) as Hne by (intros ->; congruence).
  assert (kill 0 s = (0, upd i kill_mark s)) as Hkill.
  { apply (kill_found 0 s i p Hp Hpid). intros j q Hq Hj.
    by apply (Hfirst j q). }
  pose proof (kill_mark_fields p) as (Hkd & _ & _ & _ & Hkeep).
  assert (ptable s1 !! i = Some (kill_mark p)) as Hp1.
  { unfold s1. rewrite Hkill. unfold upd, set_ptable. cbn [snd ptable].
    by rewrite list_lookup_alter_eq, Hp. }
  assert (∀ j, j ≠ i → ptable s1 !! j = ptable s !! j) as Hother.
  { intros j Hj. unfold s1. rewrite Hkill. unfold upd, set_ptable.
    cbn [snd ptable]. by rewrite list_lookup_alter_ne. }
  assert (r = fork k c cur s1) as Hr by done.
  rewrite (fork_eq k c cur s1 i (kill_mark p) par) in Hr.
  - rewrite Hr. cbn [fst snd ptable].
    rewrite slot_alter_eq by (by apply lookup_lt_Some in Hp1).
    rewrite (slot_lookup _ _ _ Hp1).
    split_and!; [by rewrite Hkill|by unfold s1; rewrite Hkill|done|
                 by unfold s1; rewrite Hkill|done].
  - done.
  - done.
  - done.
  - rewrite Hkeep by (by rewrite Hst). done.
  - intros j q Hq Hj. rewrite Hother in Hq by lia. by apply (Hfirst j q).
  - by rewrite Hother.
  - done.
Qed.

Lemma kill_zero_marks_next_child_witness :
  ptable Fixtures.cloner !! 2%nat = Some proc0 ∧
  let r := fork 7000 900 1 (kill 0 Fixtures.cloner).2 in
  r.1 = 3 ∧ state (slot 2 (ptable r.2)) = RUNNABLE ∧
  killed (slot 2 (ptable r.2)) = 1.
Proof.
  split; [done|].
  pose proof (kill_zero_marks_next_child 7000 900 1 Fixtures.cloner 2 proc0
                (slot 1 (ptable Fixtures.cloner))) as H.
  destruct H as (_ & H2 & H3 & _ & H5); [done..| |done|done|].
  { intros [|[|j]] q Hq Hj; [by injection Hq as <-..|lia]. }
  cbn zeta. by rewrite H2, H3, H5.
Defined.


(** The assignments on a state written out. *)
Lemma upd_mk (i : nat) (f : proc → proc) (t : list proc) (n : Z)
    (ip : option nat) (m : gmap (Z * Z) Z) (tr : list event) :
  upd i f (mkK t n ip m tr) = mkK (alter f i t) n ip m tr.
Proof. done. Qed.

Lemma assign_mk (i : nat) (f : kstate → proc → proc) (t : list proc) (n : Z)
    (ip : option nat) (m : gmap (Z * Z) Z) (tr : list event) :
  assign i f (mkK t n ip m tr) = mkK (alter (f (mkK t n ip m tr)) i t) n ip m tr.
Proof. done. Qed.

Lemma set_umem_mk (m' : gmap (Z * Z) Z) (t : list proc) (n : Z)
    (ip : option nat) (m : gmap (Z * Z) Z) (tr : list event) :
  set_umem m' (mkK t n ip m tr) = mkK t n ip m' tr.
Proof. done. Qed.

Lemma clone_eq (k fcn arg1 arg2 stack : Z) (cur : nat) (s : kstate) (i : nat)
    (p par : proc) :
  to_uint stack mod PGSIZE = 0 →
  to_uint (PGSIZE + to_uint stack) ≤ sz par →
  k ≠ 0 → ptable s !! i = Some p → state p = UNUSED →
  (∀ j q, ptable s !! j = Some q → (j < i)%nat → state q ≠ UNUSED) →
  ptable s !! cur = Some par → state par ≠ UNUSED →
  clone k true fcn arg1 arg2 stack cur s =
    (nextpid s,
     mkK (alter (cloned (nextpid s) k fcn stack cur par) i (ptable s))
         (to_int (nextpid s + 1)) (initproc s)
         (copyout3 (pgdir par) (stack_top stack) (to_uint (-1)) (to_uint arg1)
                   (to_uint arg2) (umem s))
         (trace s ++ (EFiledup <$> open_files (ofile par)) ++ [EIdup (cwd par)])).
Proof.
  intros Hal Hin Hk Hp Hst Hfirst Hpar Hlive.
  assert (i ≠ cur) as Hne by (intros ->; congruence).
  pose proof (lookup_lt_Some _ _ _ Hp) as Hi.
  unfold clone. rewrite (slot_lookup _ _ _ Hpar).
  rewrite decide_False by (intros H; by apply H).
  rewrite decide_False by lia.
  rewrite (allocproc_ok k s i p Hk Hp Hst Hfirst). cbn [negb].
  fold (stack_top stack).
  cbv zeta.
  repeat (first [rewrite upd_mk | rewrite assign_mk | rewrite set_umem_mk];
          cbn [ptable umem];
          rewrite ?slot_alter_ne by done; rewrite ?(slot_lookup _ _ _ Hpar);
          rewrite ?list_alter_alter_eq).
  erewrite inherit_files_eq; [|done|cbn [ptable]; by rewrite list_lookup_alter_ne].
  cbn [ptable nextpid initproc umem trace].
  rewrite upd_mk, !list_alter_alter_eq. cbn [ptable].
  rewrite !slot_alter_eq by done. rewrite (slot_lookup _ _ _ Hp).
  done.
Qed.

(** X9. clone, when the stack is page aligned and inside the caller's
    memory, there is a free slot and a page for the kernel stack, and the
    frame can be written: the caller gets the pid of the thread; the thread
    is RUNNABLE in the first UNUSED slot, with the caller as parent, in the
    caller's address space and with the caller's size; it starts at [fcn]
    with its stack and base pointers 12 bytes below the top of the page,
    where the frame holds the return address 0xffffffff and the two
    arguments; the slot remembers the stack; the thread has 1 ticket,
    whatever the caller has. No other record changes. *)
Theorem clone_thread (k fcn arg1 arg2 stack : Z) (cur : nat) (s : kstate)
    (i : nat) (p par : proc) :
  to_uint stack mod PGSIZE = 0 →
  to_uint (PGSIZE + to_uint stack) ≤ sz par →
  k ≠ 0 → ptable s !! i = Some p → state p = UNUSED →
  (∀ j q, ptable s !! j = Some q → (j < i)%nat → state q ≠ UNUSED) →
  ptable s !! cur = Some par → state par ≠ UNUSED →
  let r := clone k true fcn arg1 arg2 stack cur s in
  let th := slot i (ptable r.2) in
  let top := stack_top stack in
  r.1 = nextpid s ∧ pid th = nextpid s ∧
  th = cloned (nextpid s) k fcn stack cur par p ∧
  state th = RUNNABLE ∧ parent th = Some cur ∧
  pgdir th = pgdir par ∧ sz th = sz par ∧ tickets th = 1 ∧
  threadstack th = stack ∧
  eip (tf th) = to_uint fcn ∧ esp (tf th) = top ∧ ebp (tf th) = top ∧
  eax (tf th) = 0 ∧
  umem r.2 !! (pgdir par, top) = Some 4294967295 ∧
  umem r.2 !! (pgdir par, top + 4) = Some (to_uint arg1) ∧
  umem r.2 !! (pgdir par, top + 8) = Some (to_uint arg2) ∧
  (∀ j, j ≠ i → ptable r.2 !! j = ptable s !! j).
Proof.
  intros Hal Hin Hk Hp Hst Hfirst Hpar Hlive r th top.
  pose proof (lookup_lt_Some _ _ _ Hp) as Hi.
  assert (r = clone k true fcn arg1 arg2 stack cur s) as Hr by done.
  rewrite (clone_eq k fcn arg1 arg2 stack cur s i p par) in Hr by done.
  assert (th = cloned (nextpid s) k fcn stack cur par p) as Hth.
  { unfold th. rewrite Hr. cbn [snd ptable]. rewrite slot_alter_eq by done.
    by rewrite (slot_lookup _ _ _ Hp). }
  rewrite Hth, Hr. cbn [fst snd ptable umem]. fold top.
  split_and!; try done.
  - unfold copyout3. rewrite lookup_insert_ne by (intros [=]; lia).
    rewrite lookup_insert_ne by (intros [=]; lia). by rewrite lookup_insert_eq.
  - unfold copyout3. rewrite lookup_insert_ne by (intros [=]; lia).
    by rewrite lookup_insert_eq.
  - unfold copyout3. by rewrite lookup_insert_eq.
  - intros j Hj. by rewrite list_lookup_alter_ne.
Qed.

Lemma clone_thread_witness :
  let r := clone 7000 true 4096 11 22 8192 1 Fixtures.cloner in
  r.1 = 3 ∧ state (slot 2 (ptable r.2)) = RUNNABLE ∧
  pgdir (slot 2 (ptable r.2)) = 200 ∧ tickets (slot 2 (ptable r.2)) = 1 ∧
  esp (tf (slot 2 (ptable r.2))) = 12276 ∧
  umem r.2 !! (200, 12276 + 4) = Some 11.
Proof.
  pose proof (clone_thread 7000 4096 11 22 8192 1 Fixtures.cloner 2 proc0
                (slot 1 (ptable Fixtures.cloner))) as H.
  destruct H as (H1 & _ & _ & H4 & _ & H6 & _ & H8 & _ & _ & H11 & _ & _ & _ & H15 & _);
    [done|by vm_compute|done|done|done| |done|done|].
  { intros [|[|j]] q Hq Hj; [by injection Hq as <-..|lia]. }
  cbn zeta. split_and!; [exact H1|exact H4|exact H6|exact H8|exact H11|exact H15].
Defined.

(** ** What exit gives back and what it keeps *)

Lemma exit_record_self (cur : nat) (init : option nat) (c : wchan) (z : bool)
    (p : proc) :
  ofile (exit_record cur init c z cur p) = replicate (length (ofile p)) 0 ∧
  cwd (exit_record cur init c z cur p) = 0.
Proof.
  unfold exit_record, reparent, wake.
  destruct z; repeat case_decide; try done; cbn; (split; [|done]);
    by apply const_fmap.
Qed.

(** X10. A process other than init that calls exit closes each of its
    open descriptors once, in the order of the descriptor table, and then
    drops its working directory; its descriptor table and working directory
    are cleared. It frees neither its kernel stack nor its address space,
    on which it is still running, and keeps its pid: these are for the
    parent to reclaim. The counter of pids and user memory stay as they
    are. *)
Theorem exit_releases (cur : nat) (s : kstate) :
  Some cur ≠ initproc s → (cur < length (ptable s))%nat →
  let me := slot cur (ptable s) in
  ∃ s',
    (∀ swtch, exit swtch cur s =
                match swtch s' with
                | Some _ => Panic "zombie exit"
                | None => Descheduled s'
                end) ∧
    trace s' = trace s ++ (EFileclose <$> open_files (ofile me)) ++ [EIput (cwd me)] ∧
    ofile (slot cur (ptable s')) = replicate (length (ofile me)) 0 ∧
    cwd (slot cur (ptable s')) = 0 ∧
    state (slot cur (ptable s')) = ZOMBIE ∧
    kstack (slot cur (ptable s')) = kstack me ∧
    pgdir (slot cur (ptable s')) = pgdir me ∧
    pid (slot cur (ptable s')) = pid me ∧
    nextpid s' = nextpid s ∧ umem s' = umem s.
Proof.
  intros Hroot Hcur me.
  assert (state (slot cur (exit_table cur (initproc s) (ptable s))) ≠ RUNNING) as Hst.
  { rewrite slot_exit_table by done.
    by rewrite (proj1 (proj2 (proj2 (proj2 (proj2 (proj2 (proj2
         (exit_record_fields cur (initproc s) _ _ cur _))))))) eq_refl). }
  eexists. split; [|split].
  - intros swtch. unfold exit. rewrite decide_False by done.
    unfold sched. rewrite decide_False; [reflexivity|exact Hst].
  - unfold upd, wakeup, emit, set_ptable. cbn [trace ptable].
    rewrite (slot_alter_proj cwd) by done. by rewrite <- app_assoc.
  - unfold upd, wakeup, emit, set_ptable.
    cbn [trace ptable nextpid initproc umem].
    fold (exit_table cur (initproc s) (ptable s)).
    rewrite slot_exit_table by done. fold me.
    pose proof (exit_record_fields cur (initproc s)
                  (chan_of (parent me))
                  (bool_decide (Exists (zombie_child cur) (ptable s))) cur me)
      as (Hpid & Hks & Hpg & _ & _ & _ & Hz & _).
    split_and!; try done; try (by apply Hz).
    + apply exit_record_self.
    + apply exit_record_self.
Qed.

Lemma exit_releases_witness :
  Some 2%nat ≠ initproc Fixtures.leaving ∧
  ∃ s', exit (λ _, None) 2 Fixtures.leaving = Descheduled s' ∧
        trace s' = [EFileclose 3; EFileclose 4; EIput 9] ∧
        ofile (slot 2 (ptable s')) = [0; 0; 0] ∧
        pgdir (slot 2 (ptable s')) = 300.
Proof.
  split; [done|].
  destruct (exit_releases 2 Fixtures.leaving) as (s' & Hex & Htr & Hof & _ & _ & _ & Hpg & _);
    [done|cbn; lia|].
  exists s'. split_and!; [by rewrite Hex|exact Htr|exact Hof|exact Hpg].
Defined.

(** ** Threads: join, and wait on a thread *)



(** X12. wait does not tell threads from child processes. When the
    first ZOMBIE child of the caller is a thread, wait reclaims it like a
    process: it hands the address space of the thread, which is the one the
    caller runs in, to [freevm], while the caller's record still points to
    it; and the thread is no longer there for join, which answers -1 when
    this was the caller's only thread. *)
Theorem wait_reclaims_thread (swtch : kstate → option kstate) (fuel : nat)
    (stack : Z) (cur : nat) (s : kstate) (i : nat) (p : proc) :
  i ≠ cur →
  ptable s !! i = Some p → thread_of cur (pgdir (slot cur (ptable s))) p →
  state p = ZOMBIE →
  (∀ j q, ptable s !! j = Some q → (j < i)%nat → ¬ zombie_child cur q) →
  ∃ s',
    wait swtch fuel cur s = Return (pid p) s' ∧
    trace s' = trace s ++ [EKfree (kstack p);
                           EFreevm (pgdir (slot cur (ptable s)))] ∧
    slot cur (ptable s') = slot cur (ptable s) ∧
    ((∀ j q, ptable s !! j = Some q → j ≠ i →
             ¬ thread_of cur (pgdir (slot cur (ptable s))) q) →
     join swtch fuel stack cur s' = Return (-1) s').
Proof.
  intros Hne Hp [Hpar Hpg] Hz Hfirst.
  eexists. split_and!.
  - by apply (wait_reaps swtch fuel cur s i p).
  - cbn [trace]. by rewrite Hpg.
  - cbn [ptable]. by rewrite slot_alter_ne.
  - intros Honly. apply join_ignores_children. cbn [ptable].
    rewrite slot_alter_ne by done.
    intros (j & q & Hq & Hth)%Exists_lookup.
    rewrite list_lookup_alter in Hq. destruct (decide (i = j)) as [->|Hj].
    + rewrite Hp in Hq. injection Hq as <-. by destruct Hth.
    + by apply (Honly j q).
Qed.

Lemma wait_reclaims_thread_witness :
  let s := Fixtures.thread_done in
  thread_of 1 (pgdir (slot 1 (ptable s))) (slot 2 (ptable s)) ∧
  ∃ s', wait (λ _, None) 0 1 s = Return 6 s' ∧
        trace s' = [EKfree 7000; EFreevm 200] ∧
        pgdir (slot 1 (ptable s')) = 200 ∧
        join (λ _, None) 0 12272 1 s' = Return (-1) s'.
Proof.
  split; [done|].
  destruct (wait_reclaims_thread (λ _, None) 0 12272 1 Fixtures.thread_done 2
              (slot 2 (ptable Fixtures.thread_done)))
    as (s' & Hw & Htr & Hme & Hjoin); [done|done|done|done| |].
  { intros [|[|j]] q Hq Hj; [injection Hq as <-; by intros [? ?]..|lia]. }
  exists s'. split_and!; [done|done|by rewrite Hme|].
  apply Hjoin. intros [|[|[|[|[|j]]]]] q Hq Hj; try done;
    injection Hq as <-; by intros [? ?].
Defined.

(** X13. A thread round trip. After a successful clone, when the thread
    has exited, join by the caller answers the pid that clone answered and
    leaves the slot of the thread UNUSED, as it was before clone; the
    kernel stack that allocproc took goes back to the allocator. *)
Theorem clone_exit_join (swtch : kstate → option kstate) (fuel : nat)
    (k fcn arg1 arg2 stack stack' : Z) (cur r : nat) (s : kstate) (i : nat)
    (p par : proc) :
  to_uint stack mod PGSIZE = 0 →
  to_uint (PGSIZE + to_uint stack) ≤ sz par →
  k ≠ 0 → ptable s !! i = Some p → state p = UNUSED →
  (∀ j q, ptable s !! j = Some q → (j < i)%nat → state q ≠ UNUSED) →
  ptable s !! cur = Some par → state par ≠ UNUSED →
  initproc s = Some r → r ≠ i → r ≠ cur →
  ¬ Exists (λ q, thread_of cur (pgdir par) q ∧ state q = ZOMBIE) (ptable s) →
  let c := clone k true fcn arg1 arg2 stack cur s in
  ∃ s2 s3,
    exit (λ _, None) i c.2 = Descheduled s2 ∧
    join swtch fuel stack' cur s2 = Return c.1 s3 ∧
    state (slot i (ptable s3)) = UNUSED ∧
    threadstack (slot i (ptable s3)) = 0 ∧
    trace s3 = trace s2 ++ [EKfree k].
Proof.
  intros Hal Hin Hk Hp Hst Hfirst Hpar Hlive Hinit Hri Hrc Hno c.
  assert (i ≠ cur) as Hne by (intros ->; congruence).
  pose proof (lookup_lt_Some _ _ _ Hp) as Hi.
  pose proof (lookup_lt_Some _ _ _ Hpar) as Hcur.
  assert (c = clone k true fcn arg1 arg2 stack cur s) as Hc by done.
  rewrite (clone_eq k fcn arg1 arg2 stack cur s i p par) in Hc by done.
  set (th := cloned (nextpid s) k fcn stack cur par p) in Hc.
  assert (length (ptable c.2) = length (ptable s)) as Hlen
    by (rewrite Hc; cbn [snd ptable]; by rewrite length_alter).
  assert (slot i (ptable c.2) = th) as Hth.
  { rewrite Hc. cbn [snd ptable]. rewrite slot_alter_eq by done.
    by rewrite (slot_lookup _ _ _ Hp). }
  assert (∀ j, j ≠ i → slot j (ptable c.2) = slot j (ptable s)) as Hother.
  { intros j Hj. rewrite Hc. cbn [snd ptable]. by rewrite slot_alter_ne. }
  destruct (exit_handoff i c.2) as (s2 & Htab & _ & _ & _ & Hexit).
  { rewrite Hc. cbn [snd initproc]. congruence. }
  { by rewrite Hlen. }
  assert (initproc c.2 = Some r) as Hinit2 by (by rewrite Hc).
  rewrite Hinit2 in Htab.
  assert (length (ptable s2) = length (ptable s)) as Hlen2
    by (by rewrite Htab, exit_table_length).
  set (ch := chan_of (parent (slot i (ptable c.2)))).
  set (z := bool_decide (Exists (zombie_child i) (ptable c.2))).
  assert (∀ j, (j < length (ptable s))%nat →
            slot j (ptable s2) = exit_record i (Some r) ch z j (slot j (ptable c.2)))
    as Hrec.
  { intros j Hj. rewrite Htab. apply slot_exit_table. by rewrite Hlen. }
  assert (pgdir (slot cur (ptable s2)) = pgdir par) as Hpg.
  { rewrite Hrec, Hother by done. rewrite (slot_lookup _ _ _ Hpar).
    apply exit_record_fields. }
  pose proof (exit_record_fields i (Some r) ch z i th)
    as (Hpid & Hks & Hpgt & _ & Hkeep & _ & Hz & _).
  rewrite <- Hth, <- Hrec in Hpid, Hks, Hpgt, Hkeep, Hz by done.
  rewrite Hth in Hpid, Hks, Hpgt, Hkeep.
  exists s2. eexists. split_and!.
  - by rewrite Hexit.
  - rewrite (join_reaps swtch fuel stack' cur s2 i (slot i (ptable s2))).
    + rewrite Hpid, Hc. reflexivity.
    + apply lookup_slot. by rewrite Hlen2.
    + rewrite Hpg. split; [split|by apply Hz].
      * rewrite Hkeep; [done|]. cbn. congruence.
      * by rewrite Hpgt.
    + intros j x Hx Hj [[Hxpar Hxpg] Hxst].
      pose proof (lookup_lt_Some _ _ _ Hx) as Hjlen.
      apply slot_lookup in Hx. subst x. rewrite Hlen2 in Hjlen.
      rewrite Hpg in Hxpg.
      rewrite Hrec, Hother in Hxpar, Hxpg, Hxst by (done || lia).
      pose proof (exit_record_fields i (Some r) ch z j (slot j (ptable s)))
        as (_ & _ & Hpg' & _ & Hkeep' & Hmove & _ & Hzz).
      rewrite Hpg' in Hxpg. apply Hzz in Hxst; [|lia].
      destruct (decide (parent (slot j (ptable s)) = Some i)) as [Hpi|Hpi].
      * rewrite Hmove in Hxpar by done. congruence.
      * rewrite Hkeep' in Hxpar by done. apply Hno, Exists_lookup.
        exists j, (slot j (ptable s)). split; [by apply lookup_slot|done].
  - cbn [ptable]. rewrite slot_alter_eq by (by rewrite Hlen2). done.
  - cbn [ptable]. rewrite slot_alter_eq by (by rewrite Hlen2). done.
  - cbn [trace]. by rewrite Hks.
Qed.

Lemma clone_exit_join_witness :
  let c := clone 7000 true 4096 11 22 8192 1 Fixtures.cloner in
  c.1 = 3 ∧
  ∃ s2 s3, exit (λ _, None) 2 c.2 = Descheduled s2 ∧
           join (λ _, None) 0 12272 1 s2 = Return 3 s3 ∧
           state (slot 2 (ptable s3)) = UNUSED.
Proof.
  split; [done|].
  destruct (clone_exit_join (λ _, None) 0 7000 4096 11 22 8192 12272 1 0
              Fixtures.cloner 2 proc0 (slot 1 (ptable Fixtures.cloner)))
    as (s2 & s3 & Hex & Hj & Hst & _);
    [done|by vm_compute|done|done|done| |done|done|done|lia|lia| |].
  { intros [|[|j]] q Hq Hj; [by injection Hq as <-..|lia]. }
  { apply (bool_decide_unpack _). by vm_compute. }
  exists s2, s3. by split_and!.
Defined.

(** ** sleep, wakeup and yield *)

Lemma wakeup_slot (c : wchan) (s : kstate) (i : nat) :
  (i < length (ptable s))%nat →
  slot i (ptable (wakeup c s)) = wake c (slot i (ptable s)).
Proof. intros Hi. unfold wakeup, set_ptable. cbn [ptable]. by apply slot_fmap. Qed.

(** X14. sleep and wakeup fit together. A process that calls sleep on
    a channel is SLEEPING on it when the processor is handed over; a wakeup
    on any other channel leaves its record as it is, a wakeup on its
    channel makes it RUNNABLE; and when it is dispatched after that, sleep
    goes on with the channel cleared and the rest of the record as before
    the call. If it is never dispatched, sleep does not return. *)
Theorem sleep_wakeup {A : Type} (swtch : kstate → option kstate) (cur : nat)
    (c : wchan) (s : kstate) (k : kstate → outcome A) :
  (cur < length (ptable s))%nat →
  let s1 := asleep cur c s in
  let s2 := upd cur (set_chan CNull) (dispatched cur (wakeup c s1)) in
  state (slot cur (ptable s1)) = SLEEPING ∧ chan (slot cur (ptable s1)) = c ∧
  (∀ c', c' ≠ c → slot cur (ptable (wakeup c' s1)) = slot cur (ptable s1)) ∧
  state (slot cur (ptable (wakeup c s1))) = RUNNABLE ∧
  slot cur (ptable s2) = set_chan CNull (set_state RUNNING (slot cur (ptable s))) ∧
  (swtch s1 = Some (dispatched cur (wakeup c s1)) →
   sleep swtch cur c s k = k s2) ∧
  (swtch s1 = None → sleep swtch cur c s k = Descheduled s1).
Proof.
  intros Hcur s1 s2.
  assert (length (ptable s1) = length (ptable s)) as Hlen by apply asleep_length.
  assert (slot cur (ptable s1) = set_state SLEEPING (set_chan c (slot cur (ptable s))))
    as Hsl by (by apply asleep_slot).
  assert (sleep swtch cur c s k =
          match swtch s1 with
          | Some s' => k (upd cur (set_chan CNull) s')
          | None => Descheduled s1
          end) as Hsleep.
  { unfold sleep, sched. fold (asleep cur c s). fold s1.
    rewrite Hsl. cbn [state set_state]. by rewrite decide_False. }
  split_and!.
  - by rewrite Hsl.
  - by rewrite Hsl.
  - intros c' Hc'. rewrite wakeup_slot by (by rewrite Hlen).
    unfold wake. rewrite decide_False; [done|].
    rewrite Hsl. cbn. intros [_ ?]. congruence.
  - rewrite wakeup_slot by (by rewrite Hlen). apply wake_sleeper; by rewrite Hsl.
  - unfold s2, slot. rewrite resumed_lookup, decide_True by done.
    rewrite (lookup_slot (ptable (wakeup c s1)) cur).
    2:{ unfold wakeup, set_ptable. cbn [ptable]. by rewrite wakeup1_length, Hlen. }
    rewrite wakeup_slot by (by rewrite Hlen). rewrite Hsl.
    unfold wake. by rewrite decide_True.
  - intros Hsw. by rewrite Hsleep, Hsw.
  - intros Hsw. by rewrite Hsleep, Hsw.
Qed.

Lemma sleep_wakeup_witness :
  let s := Fixtures.sleepers in
  let s1 := asleep 1 (CAddr 7) s in
  state (slot 1 (ptable s1)) = SLEEPING ∧
  state (slot 1 (ptable (wakeup (CAddr 8) s1))) = SLEEPING ∧
  state (slot 1 (ptable (wakeup (CAddr 7) s1))) = RUNNABLE ∧
  sleep (λ s', Some (dispatched 1 (wakeup (CAddr 7) s'))) 1 (CAddr 7) s
        (λ s', Return (state (slot 1 (ptable s')), chan (slot 1 (ptable s'))) s') =
    Return (RUNNING, CNull)
           (upd 1 (set_chan CNull) (dispatched 1 (wakeup (CAddr 7) s1))).
Proof.
  pose proof (sleep_wakeup (λ s', Some (dispatched 1 (wakeup (CAddr 7) s'))) 1
                (CAddr 7) Fixtures.sleepers
                (λ s', Return (state (slot 1 (ptable s')), chan (slot 1 (ptable s'))) s'))
    as H.
  destruct H as (H1 & _ & H3 & H4 & H5 & H6 & _); [cbn; lia|].
  cbn zeta. split_and!; [exact H1| |exact H4|].
  - by rewrite (H3 (CAddr 8)).
  - rewrite H6 by done. by rewrite H5.
Defined.



(** ** Failure paths *)

(** X16. The three ways fork fails. With no UNUSED slot, fork answers
    -1 and changes nothing. With a free slot but no page for the kernel
    stack, or no copy of the address space, it answers -1 and the slot is
    UNUSED again without a kernel stack; the stack that was obtained is
    handed back to the allocator, and nothing else is released; every
    other record is untouched. The failed attempt has still used up a pid:
    [nextpid] has advanced and the UNUSED slot carries that pid. *)
Theorem fork_failure (k c : Z) (cur : nat) (s : kstate) :
  let r := fork k c cur s in
  (Forall (λ p, state p ≠ UNUSED) (ptable s) → r = (-1, s)) ∧
  (∀ i p, ptable s !! i = Some p → state p = UNUSED →
     (∀ j q, ptable s !! j = Some q → (j < i)%nat → state q ≠ UNUSED) →
     k = 0 ∨ c = 0 →
     r.1 = -1 ∧
     state (slot i (ptable r.2)) = UNUSED ∧ kstack (slot i (ptable r.2)) = 0 ∧
     pid (slot i (ptable r.2)) = nextpid s ∧
     nextpid r.2 = to_int (nextpid s + 1) ∧
     trace r.2 = trace s ++ (if decide (k = 0) then [] else [EKfree k]) ∧
     (∀ j, j ≠ i → ptable r.2 !! j = ptable s !! j)).
Proof.
  intros r. split.
  - intros Hfull. unfold r, fork. by rewrite allocproc_full.
  - intros i p Hp Hst Hfirst Hwhy.
    pose proof (lookup_lt_Some _ _ _ Hp) as Hi.
    destruct (decide (k = 0)) as [->|Hk].
    + assert (r = (-1, (allocproc 0 s).2)) as ->.
      { unfold r, fork. by rewrite (allocproc_no_page s i p). }
      rewrite (allocproc_no_page s i p) by done.
      cbn [fst snd ptable nextpid trace]. rewrite slot_alter_eq by done.
      split_and!; try done.
      * by rewrite app_nil_r.
      * intros j Hj. by rewrite list_lookup_alter_ne.
    + destruct Hwhy as [? | ->]; [done|].
      unfold r. rewrite (fork_no_address_space k cur s i p) by done.
      cbn [fst snd ptable nextpid trace]. rewrite slot_alter_eq by done.
      split_and!; try done.
      intros j Hj. by rewrite list_lookup_alter_ne.
Qed.

Lemma fork_failure_witness :
  let r := fork 0 900 1 Fixtures.cloner in
  let r' := fork 7000 0 1 Fixtures.cloner in
  r.1 = -1 ∧ state (slot 2 (ptable r.2)) = UNUSED ∧ pid (slot 2 (ptable r.2)) = 3 ∧
  nextpid r.2 = 4 ∧ trace r.2 = [] ∧
  r'.1 = -1 ∧ kstack (slot 2 (ptable r'.2)) = 0 ∧ trace r'.2 = [EKfree 7000].
Proof.
  assert (∀ j q, ptable Fixtures.cloner !! j = Some q → (j < 2)%nat →
                 state q ≠ UNUSED) as Hfirst.
  { intros [|[|j]] q Hq Hj; [by injection Hq as <-..|lia]. }
  destruct (proj2 (fork_failure 0 900 1 Fixtures.cloner) 2%nat proc0
              eq_refl eq_refl Hfirst (or_introl eq_refl))
    as (H1 & H2 & _ & H4 & H5 & H6 & _).
  destruct (proj2 (fork_failure 7000 0 1 Fixtures.cloner) 2%nat proc0
              eq_refl eq_refl Hfirst (or_intror eq_refl))
    as (H1' & _ & H3' & _ & _ & H6' & _).
  cbn zeta. split_and!; [exact H1|exact H2|exact H4|exact H5|exact H6|
                         exact H1'|exact H3'|exact H6'].
Defined.

(** X17. What clone refuses at once. A stack that is not page aligned,
    or whose page ends beyond the caller's size, makes clone answer -1
    before it allocates anything: no record, no pid and no memory cell
    changes. The exception is the last page of the 32-bit address range,
    for which the end of the page wraps to 0: the theorem does not cover
    it. *)
Theorem clone_rejects_bad_stack (k : Z) (ok : bool) (fcn arg1 arg2 stack : Z)
    (cur : nat) (s : kstate) :
  0 ≤ stack < 2 ^ 32 →
  stack mod PGSIZE ≠ 0 ∨
    (stack ≠ 2 ^ 32 - PGSIZE ∧ sz (slot cur (ptable s)) < stack + PGSIZE) →
  clone k ok fcn arg1 arg2 stack cur s = (-1, s).
Proof.
  intros Hrange Hbad.
  assert (to_uint stack = stack) as Hu
    by (unfold to_uint; apply Z.mod_small; lia).
  destruct (decide (stack mod PGSIZE = 0)) as [Hal|Hal].
  - destruct Hbad as [?|[Hlast Hsz]]; [done|].
    apply clone_rejects_outside; [lia| |done].
    unfold PGSIZE in *.
    pose proof (Z.div_mod stack 4096 ltac:(lia)) as Hdm.
    rewrite Hal, Z.add_0_r in Hdm. lia.
  - apply clone_rejects_misaligned. by rewrite Hu.
Qed.

Lemma clone_rejects_bad_stack_witness :
  clone 7000 true 4096 11 22 8200 1 Fixtures.cloner = (-1, Fixtures.cloner) ∧
  clone 7000 true 4096 11 22 16384 1 Fixtures.cloner = (-1, Fixtures.cloner).
Proof.
  split.
  - apply clone_rejects_bad_stack; [lia|]. left. by vm_compute.
  - apply clone_rejects_bad_stack; [lia|]. right. split; [unfold PGSIZE; lia|]. by vm_compute.
Defined.

(** X18. settickets and getpinfo. A count below 1 is refused and
    nothing changes. Otherwise the count becomes the caller's and nothing
    else changes; getpinfo then has one row per slot, in table order, the
    caller's row shows the new count, and every row shows the pid and the
    ticks of its slot and whether the slot is in use. *)
Theorem settickets_getpinfo (tks : Z) (cur : nat) (s : kstate) :
  (cur < length (ptable s))%nat →
  let r := settickets tks cur s in
  let rows := (getpinfo r.2).2 in
  (tks < 1 → r = (-1, s)) ∧
  (1 ≤ tks →
   r.1 = 0 ∧
   ptable r.2 = alter (set_tickets tks) cur (ptable s) ∧
   nextpid r.2 = nextpid s ∧ trace r.2 = trace s ∧ umem r.2 = umem s ∧
   ps_tickets <$> rows !! cur = Some tks) ∧
  (getpinfo r.2).1 = 0 ∧
  length rows = length (ptable s) ∧
  (∀ j p, ptable s !! j = Some p →
     ∃ row, rows !! j = Some row ∧
            ps_pid row = pid p ∧ ps_ticks row = ticks p ∧
            (ps_inuse row = 0 ↔ state p = UNUSED) ∧
            (ps_inuse row = 0 ∨ ps_inuse row = 1) ∧
            (j ≠ cur → ps_tickets row = tickets p)).
Proof.
  intros Hcur r rows.
  assert (r = if decide (tks < 1) then (-1, s) else (0, upd cur (set_tickets tks) s))
    as Hr by done.
  split_and!.
  - intros Hlow. by rewrite Hr, decide_True.
  - intros Hok. unfold rows. rewrite Hr, decide_False by lia.
    cbn [fst snd upd set_ptable ptable nextpid trace umem getpinfo].
    split_and!; try done.
    by rewrite list_lookup_fmap, list_lookup_alter_eq, (lookup_slot _ _ Hcur).
  - done.
  - unfold rows. rewrite Hr. case_decide; cbn; rewrite length_fmap; [done|].
    by rewrite length_alter.
  - intros j p Hp. unfold rows. rewrite Hr.
    assert (∀ q, ps_inuse (pstat_of q) = 0 ↔ state q = UNUSED) as Hin.
    { intros q. unfold pstat_of. cbn.
      destruct (decide (state q = UNUSED)); split; intros; first [done|congruence]. }
    assert (∀ q, ps_inuse (pstat_of q) = 0 ∨ ps_inuse (pstat_of q) = 1) as Hbit.
    { intros q. unfold pstat_of. cbn.
      destruct (decide (state q = UNUSED)); tauto. }
    case_decide; cbn [snd getpinfo upd set_ptable ptable].
    + exists (pstat_of p). rewrite list_lookup_fmap, Hp.
      split_and!; try done; first [apply Hin|apply Hbit].
    + rewrite list_lookup_fmap, list_lookup_alter.
      destruct (decide (cur = j)) as [->|Hj]; rewrite Hp; cbn.
      * eexists. split; [done|]. split_and!; try done;
          first [apply (Hin (set_tickets tks p))|apply (Hbit (set_tickets tks p))].
      * exists (pstat_of p). split_and!; try done; first [apply Hin|apply Hbit].
Qed.

Lemma settickets_getpinfo_witness :
  let r := settickets 9 1 Fixtures.lottery in
  r.1 = 0 ∧ ps_tickets <$> (getpinfo r.2).2 !! 1%nat = Some 9 ∧
  length (getpinfo r.2).2 = 5%nat ∧
  settickets 0 1 Fixtures.lottery = (-1, Fixtures.lottery).
Proof.
  destruct (settickets_getpinfo 9 1 Fixtures.lottery) as (_ & H2 & _ & H4 & _);
    [cbn; lia|].
  destruct H2 as (H1 & _ & _ & _ & _ & Hrow); [lia|].
  cbn zeta. split_and!; [exact H1|exact Hrow|exact H4|].
  apply (settickets_getpinfo 0 1 Fixtures.lottery); [cbn; lia|lia].
Defined.

(** ** Pids stay distinct *)

Import Pids.

Lemma keeps_pids_refl (s : kstate) : keeps_pids s s.
Proof. split; [done|]. intros i q Hq Hst. by exists q. Qed.

Lemma keeps_pids_trans (s1 s2 s3 : kstate) :
  keeps_pids s1 s2 → keeps_pids s2 s3 → keeps_pids s1 s3.
Proof.
  intros [Hn1 H1] [Hn2 H2]. split; [congruence|].
  intros i q3 Hq3 Hst3. destruct (H2 i q3 Hq3 Hst3) as (q2 & Hq2 & Hst2 & Hpid2).
  destruct (H1 i q2 Hq2 Hst2) as (q1 & Hq1 & Hst1 & Hpid1).
  exists q1. split_and!; [done|done|congruence].
Qed.

Lemma pids_fresh_keeps (s s' : kstate) :
  pids_fresh s → keeps_pids s s' → pids_fresh s'.
Proof.
  intros [Hnext Hrange Hdist] [Hn Hk]. split.
  - by rewrite Hn.
  - intros i p Hp Hst. destruct (Hk i p Hp Hst) as (q & Hq & Hstq & <-).
    rewrite Hn. by apply (Hrange i q).
  - intros i j p q Hp Hq Hstp Hstq Hpid.
    destruct (Hk i p Hp Hstp) as (p0 & Hp0 & Hstp0 & Hpid0).
    destruct (Hk j q Hq Hstq) as (q0 & Hq0 & Hstq0 & Hpid1).
    apply (Hdist i j p0 q0); [done..|congruence].
Qed.

Lemma keeps_pids_upd (s0 s : kstate) (i : nat) (f : proc → proc) :
  quiet f → keeps_pids s0 s → keeps_pids s0 (upd i f s).
Proof.
  intros Hf Hk. apply (keeps_pids_trans s0 s); [done|].
  split; [done|]. intros j q' Hq' Hst. unfold upd, set_ptable in Hq'.
  cbn [ptable] in Hq'. rewrite list_lookup_alter in Hq'.
  destruct (decide (i = j)) as [->|Hne]; [|by exists q'].
  destruct (ptable s !! j) as [q|] eqn:Hq; [|done].
  injection Hq' as <-. exists q. destruct (Hf q Hst) as [? ?]. done.
Qed.

Lemma keeps_pids_wakeup (s0 s : kstate) (c : wchan) :
  keeps_pids s0 s → keeps_pids s0 (wakeup c s).
Proof.
  intros Hk. apply (keeps_pids_trans s0 s); [done|].
  split; [done|]. intros j q' Hq' Hst. unfold wakeup, set_ptable in Hq'.
  cbn [ptable] in Hq'. rewrite wakeup1_lookup in Hq'.
  destruct (ptable s !! j) as [q|] eqn:Hq; [|done].
  injection Hq' as <-. exists q. split; [done|].
  unfold wake in *. case_decide as Hw; [|done].
  destruct Hw as [Hsl _]. split; [by rewrite Hsl|done].
Qed.

(** The same for an assignment to a slot that is in use. *)
Lemma keeps_pids_upd_live (s0 s : kstate) (i : nat) (f : proc → proc) :
  (∀ p, pid (f p) = pid p) → state (slot i (ptable s)) ≠ UNUSED →
  keeps_pids s0 s → keeps_pids s0 (upd i f s).
Proof.
  intros Hf Hlive Hk. apply (keeps_pids_trans s0 s); [done|].
  split; [done|]. intros j q' Hq' Hst. unfold upd, set_ptable in Hq'.
  cbn [ptable] in Hq'. rewrite list_lookup_alter in Hq'.
  destruct (decide (i = j)) as [->|Hne]; [|by exists q'].
  destruct (ptable s !! j) as [q|] eqn:Hq; [|done].
  injection Hq' as <-. exists q. rewrite (slot_lookup _ _ _ Hq) in Hlive. done.
Qed.

Lemma keeps_pids_kill (pid0 : Z) (s : kstate) : keeps_pids s (kill pid0 s).2.
Proof.
  unfold kill. destruct (list_find _ _) as [[i p]|]; cbn [snd];
    [|apply keeps_pids_refl].
  apply keeps_pids_upd; [|apply keeps_pids_refl].
  intros q Hst. rewrite kill_mark_eq in *. by case_decide as Hs; [rewrite Hs|].
Qed.

Lemma keeps_pids_settickets (tks : Z) (cur : nat) (s : kstate) :
  keeps_pids s (settickets tks cur s).2.
Proof.
  unfold settickets. case_decide; cbn [snd]; [apply keeps_pids_refl|].
  apply keeps_pids_upd; [by intros q Hst|apply keeps_pids_refl].
Qed.

Lemma keeps_pids_asleep (cur : nat) (c : wchan) (s : kstate) :
  state (slot cur (ptable s)) ≠ UNUSED → keeps_pids s (asleep cur c s).
Proof.
  intros Hlive. unfold asleep.
  apply keeps_pids_upd_live; [done| |].
  - unfold upd, set_ptable. cbn [ptable]. by rewrite (slot_alter_proj state).
  - apply keeps_pids_upd; [by intros q Hst|apply keeps_pids_refl].
Qed.

Lemma keeps_pids_exit (cur : nat) (s s' : kstate) :
  (cur < length (ptable s))%nat → state (slot cur (ptable s)) ≠ UNUSED →
  ptable s' = exit_table cur (initproc s) (ptable s) → nextpid s' = nextpid s →
  keeps_pids s s'.
Proof.
  intros Hcur Hlive Htab Hn. split; [done|]. intros j q' Hq' Hst.
  pose proof (lookup_lt_Some _ _ _ Hq') as Hj.
  rewrite Htab, exit_table_length in Hj.
  apply slot_lookup in Hq'. rewrite Htab, slot_exit_table in Hq' by done.
  exists (slot j (ptable s)). split; [by apply lookup_slot|].
  subst q'. split; [|symmetry; apply exit_record_fields].
  destruct (decide (j = cur)) as [->|Hne]; [done|].
  revert Hst. unfold exit_record, reparent, wake. rewrite !decide_False by done.
  destruct (bool_decide _); repeat case_decide; cbn; try done;
    intros ? ?; destruct_and?; cbn in *; congruence.
Qed.

Lemma keeps_pids_wait_reap (i : nat) (s : kstate) (p : proc) :
  ptable s !! i = Some p → keeps_pids s (wait_reap i s).2.
Proof.
  intros Hp. rewrite (wait_reap_eq _ _ _ Hp). cbn [snd].
  fold (upd i wait_clear s). split; [done|]. cbn [ptable].
  intros j q' Hq' Hst. rewrite list_lookup_alter in Hq'.
  destruct (decide (i = j)) as [->|Hne]; [|by exists q'].
  rewrite Hp in Hq'. by injection Hq' as <-.
Qed.

Lemma keeps_pids_join_reap (stack : Z) (i : nat) (s : kstate) (p : proc) :
  ptable s !! i = Some p → keeps_pids s (join_reap stack i s).2.
Proof.
  intros Hp. rewrite (join_reap_eq _ _ _ _ Hp). cbn [snd].
  split; [done|]. cbn [ptable].
  intros j q' Hq' Hst. rewrite list_lookup_alter in Hq'.
  destruct (decide (i = j)) as [->|Hne]; [|by exists q'].
  rewrite Hp in Hq'. by injection Hq' as <-.
Qed.

Lemma wait_scan_found (cur : nat) (t : list proc) (i0 : nat) (hk : bool)
    (i : nat) (b : bool) :
  wait_scan cur t i0 hk = (Some i, b) → ∃ j p, i = (i0 + j)%nat ∧ t !! j = Some p.
Proof.
  revert i0 hk. induction t as [|x t IH]; intros i0 hk; cbn [wait_scan]; [done|].
  assert (∀ hk', wait_scan cur t (S i0) hk' = (Some i, b) →
                 ∃ j p, i = (i0 + j)%nat ∧ (x :: t) !! j = Some p) as Hrec.
  { intros hk' (j & p & -> & Hp)%IH. exists (S j), p. split; [lia|done]. }
  repeat case_decide; [by apply Hrec| |by apply Hrec].
  intros [= <- <-]. exists 0%nat, x. split; [lia|done].
Qed.

Lemma join_scan_found (cur : nat) (pg : Z) (t : list proc) (i0 : nat) (hk : bool)
    (i : nat) (b : bool) :
  join_scan cur pg t i0 hk = (Some i, b) →
  ∃ j p, i = (i0 + j)%nat ∧ t !! j = Some p.
Proof.
  revert i0 hk. induction t as [|x t IH]; intros i0 hk; cbn [join_scan]; [done|].
  assert (∀ hk', join_scan cur pg t (S i0) hk' = (Some i, b) →
                 ∃ j p, i = (i0 + j)%nat ∧ (x :: t) !! j = Some p) as Hrec.
  { intros hk' (j & p & -> & Hp)%IH. exists (S j), p. split; [lia|done]. }
  repeat case_decide; [by apply Hrec| |by apply Hrec].
  intros [= <- <-]. exists 0%nat, x. split; [lia|done].
Qed.

Lemma pids_fresh_took (s s' : kstate) :
  pids_fresh s → nextpid s < INT_MAX → took_slot s s' → pids_fresh s'.
Proof.
  intros Hf Hmax [->|(i & p & g & Hp & Hst & Hpid & Htab & Hn)]; [done|].
  destruct Hf as [Hnext Hrange Hdist].
  assert (to_int (nextpid s + 1) = nextpid s + 1) as Hto.
  { apply to_int_id. unfold in_int, INT_MIN, INT_MAX in *. lia. }
  assert (∀ j q', ptable s' !! j = Some q' → state q' ≠ UNUSED →
            (j = i ∧ pid q' = nextpid s) ∨
            (j ≠ i ∧ ptable s !! j = Some q' ∧ 0 < pid q' < nextpid s)) as Hcase.
  { intros j q' Hq' Hstq. rewrite Htab, list_lookup_alter in Hq'.
    destruct (decide (i = j)) as [->|Hne].
    - left. rewrite Hp in Hq'. by injection Hq' as <-.
    - right. split_and!; [done|done|by apply (Hrange j)..]. }
  split.
  - rewrite Hn, Hto. lia.
  - intros j q' Hq' Hstq. rewrite Hn, Hto.
    destruct (Hcase j q' Hq' Hstq) as [[_ ->]|(_ & _ & ?)]; lia.
  - intros j1 j2 q1 q2 Hq1 Hq2 Hst1 Hst2 Heq.
    destruct (Hcase j1 q1 Hq1 Hst1) as [[-> E1]|(N1 & L1 & R1)];
      destruct (Hcase j2 q2 Hq2 Hst2) as [[-> E2]|(N2 & L2 & R2)];
      [done|lia|lia|by apply (Hdist j1 j2 q1 q2)].
Qed.

(** Where [allocproc] looks: either no slot is UNUSED or there is a
    first one. *)
Lemma free_slot_cases (t : list proc) :
  Forall (λ p, state p ≠ UNUSED) t ∨
  ∃ i p, t !! i = Some p ∧ state p = UNUSED ∧
         ∀ j q, t !! j = Some q → (j < i)%nat → state q ≠ UNUSED.
Proof.
  destruct (decide (Exists (λ p, state p = UNUSED) t)) as [He|He].
  - right. destruct (first_such (λ p, state p = UNUSED) t He)
      as (i & p & Hp & Hst & Hfirst). exists i, p. done.
  - left. apply not_Exists_Forall in He; [|apply _]. done.
Qed.

Lemma allocproc_took (k : Z) (s : kstate) : took_slot s (allocproc k s).2.
Proof.
  destruct (free_slot_cases (ptable s)) as [Hfull|(i & p & Hp & Hst & Hfirst)].
  - left. by rewrite allocproc_full.
  - right. exists i, p. destruct (decide (k = 0)) as [->|Hk].
    + exists (rolled_back (nextpid s)). rewrite (allocproc_no_page s i p) by done.
      done.
    + exists (embryo (nextpid s) k). rewrite (allocproc_ok k s i p) by done.
      done.
Qed.

Lemma fork_took (k c : Z) (cur : nat) (s : kstate) (par : proc) :
  ptable s !! cur = Some par → state par ≠ UNUSED →
  took_slot s (fork k c cur s).2 ∧
  ((fork k c cur s).1 = -1 ∨ (fork k c cur s).1 = nextpid s).
Proof.
  intros Hpar Hlive.
  destruct (free_slot_cases (ptable s)) as [Hfull|(i & p & Hp & Hst & Hfirst)].
  - unfold fork. rewrite allocproc_full by done. split; [by left|by left].
  - destruct (decide (k = 0)) as [->|Hk]; [|destruct (decide (c = 0)) as [->|Hc]].
    + unfold fork. rewrite (allocproc_no_page s i p) by done.
      split; [|by left]. right. exists i, p, (rolled_back (nextpid s)). done.
    + rewrite (fork_no_address_space k cur s i p) by done.
      split; [|by left]. right. exists i, p. eexists. cbn [snd ptable nextpid].
      split_and!; [done|done| |reflexivity|done]. done.
    + rewrite (fork_eq k c cur s i p par) by done.
      split; [|by right]. right. exists i, p. eexists. cbn [snd ptable nextpid].
      split_and!; [done|done| |reflexivity|done]. done.
Qed.

Lemma clone_copyout_eq (k fcn arg1 arg2 stack : Z) (cur : nat) (s : kstate)
    (i : nat) (p par : proc) :
  to_uint stack mod PGSIZE = 0 →
  to_uint (PGSIZE + to_uint stack) ≤ sz par →
  k ≠ 0 → ptable s !! i = Some p → state p = UNUSED →
  (∀ j q, ptable s !! j = Some q → (j < i)%nat → state q ≠ UNUSED) →
  ptable s !! cur = Some par → state par ≠ UNUSED →
  clone k false fcn arg1 arg2 stack cur s =
    (-1, mkK (alter (λ q, set_tf (tf par) (set_parent (Some cur) (set_sz (sz par)
                       (set_pgdir (pgdir par) (embryo (nextpid s) k q))))) i
                (ptable s))
             (to_int (nextpid s + 1)) (initproc s) (umem s) (trace s)).
Proof.
  intros Hal Hin Hk Hp Hst Hfirst Hpar Hlive.
  assert (i ≠ cur) as Hne by (intros ->; congruence).
  unfold clone. rewrite (slot_lookup _ _ _ Hpar).
  rewrite decide_False by (intros H; by apply H).
  rewrite decide_False by lia.
  rewrite (allocproc_ok k s i p Hk Hp Hst Hfirst). cbn [negb].
  cbv zeta.
  repeat (first [rewrite upd_mk | rewrite assign_mk];
          cbn [ptable umem];
          rewrite ?slot_alter_ne by done; rewrite ?(slot_lookup _ _ _ Hpar);
          rewrite ?list_alter_alter_eq).
  done.
Qed.

Lemma clone_took (k : Z) (ok : bool) (fcn arg1 arg2 stack : Z) (cur : nat)
    (s : kstate) (par : proc) :
  ptable s !! cur = Some par → state par ≠ UNUSED →
  took_slot s (clone k ok fcn arg1 arg2 stack cur s).2 ∧
  ((clone k ok fcn arg1 arg2 stack cur s).1 = -1 ∨
   (clone k ok fcn arg1 arg2 stack cur s).1 = nextpid s).
Proof.
  intros Hpar Hlive.
  destruct (decide (to_uint stack mod PGSIZE = 0)) as [Hal|Hal].
  2:{ rewrite clone_rejects_misaligned by done. split; by left. }
  destruct (decide (sz par < to_uint (PGSIZE + to_uint stack))) as [Hout|Hin].
  { unfold clone. rewrite decide_False by (intros H; by apply H).
    rewrite (slot_lookup _ _ _ Hpar), decide_True by done. split; by left. }
  destruct (free_slot_cases (ptable s)) as [Hfull|(i & p & Hp & Hst & Hfirst)].
  { unfold clone. rewrite decide_False by (intros H; by apply H).
    rewrite (slot_lookup _ _ _ Hpar), decide_False by done.
    rewrite allocproc_full by done. split; by left. }
  destruct (decide (k = 0)) as [->|Hk].
  { unfold clone. rewrite decide_False by (intros H; by apply H).
    rewrite (slot_lookup _ _ _ Hpar), decide_False by done.
    rewrite (allocproc_no_page s i p) by done.
    split; [|by left]. right. exists i, p, (rolled_back (nextpid s)). done. }
  destruct ok.
  - rewrite (clone_eq k fcn arg1 arg2 stack cur s i p par) by (done || lia).
    split; [|by right]. right. exists i, p. eexists. cbn [snd ptable nextpid].
    split_and!; [done|done| |reflexivity|done]. done.
  - rewrite (clone_copyout_eq k fcn arg1 arg2 stack cur s i p par) by (done || lia).
    split; [|by left]. right. exists i, p. eexists. cbn [snd ptable nextpid].
    split_and!; [done|done| |reflexivity|done]. done.
Qed.

Lemma live_lt (cur : nat) (t : list proc) :
  state (slot cur t) ≠ UNUSED → (cur < length t)%nat.
Proof.
  intros Hlive. apply lookup_lt_is_Some. unfold slot in Hlive.
  destruct (t !! cur); [done|]. by destruct Hlive.
Qed.

(** What [sleep] does with the rest of the system well behaved. *)
Lemma sleep_fresh {A : Type} (swtch : kstate → option kstate) (cur : nat)
    (c : wchan) (s : kstate) (k : kstate → outcome A) (P : outcome A → Prop) :
  swtch_keeps_pids cur swtch → pids_fresh s →
  state (slot cur (ptable s)) ≠ UNUSED →
  (∀ s1, P (Descheduled s1)) →
  (∀ s1, pids_fresh s1 → state (slot cur (ptable s1)) ≠ UNUSED → P (k s1)) →
  P (sleep swtch cur c s k).
Proof.
  intros Hsw Hf Hlive Hd Hk.
  pose proof (live_lt _ _ Hlive) as Hcur.
  unfold sleep, sched. fold (asleep cur c s).
  rewrite asleep_slot by done. cbn [state set_state].
  rewrite decide_False by done.
  destruct (swtch (asleep cur c s)) as [s1|] eqn:Hs1; [|apply Hd].
  destruct (Hsw _ _ Hs1) as [Hf1 Hlive1].
  { apply (pids_fresh_keeps s); [done|]. by apply keeps_pids_asleep. }
  apply Hk.
  - apply (pids_fresh_keeps s1); [done|].
    apply keeps_pids_upd; [by intros q Hst|apply keeps_pids_refl].
  - unfold upd, set_ptable. cbn [ptable]. by rewrite (slot_alter_proj state).
Qed.

Lemma wait_fresh (swtch : kstate → option kstate) (cur : nat) :
  swtch_keeps_pids cur swtch →
  ∀ fuel s v s', pids_fresh s → state (slot cur (ptable s)) ≠ UNUSED →
                 wait swtch fuel cur s = Return v s' → pids_fresh s'.
Proof.
  intros Hsw fuel. induction fuel as [|fuel IH]; intros s v s' Hf Hlive;
    cbn [wait]; destruct (wait_scan _ _ _ _) as [[i|] hk] eqn:Hscan.
  all: try (destruct (wait_scan_found _ _ _ _ _ _ Hscan) as (j & p & -> & Hp);
            cbn [Nat.add]; pose proof (keeps_pids_wait_reap j s p Hp) as Hk;
            destruct (wait_reap j s) as [pid0 s1]; intros [= _ <-];
            by apply (pids_fresh_keeps s)).
  all: case_decide; [by intros [= _ <-]|].
  all: apply (sleep_fresh swtch cur (CProc cur) s _
                (λ o, o = Return v s' → pids_fresh s')); try done.
  intros s1 Hf1 Hlive1. by apply IH.
Qed.

Lemma join_fresh (swtch : kstate → option kstate) (stack : Z) (cur : nat) :
  swtch_keeps_pids cur swtch →
  ∀ fuel s v s', pids_fresh s → state (slot cur (ptable s)) ≠ UNUSED →
                 join swtch fuel stack cur s = Return v s' → pids_fresh s'.
Proof.
  intros Hsw fuel. induction fuel as [|fuel IH]; intros s v s' Hf Hlive;
    cbn [join]; destruct (join_scan _ _ _ _ _) as [[i|] hk] eqn:Hscan.
  all: try (destruct (join_scan_found _ _ _ _ _ _ _ Hscan) as (j & p & -> & Hp);
            cbn [Nat.add]; pose proof (keeps_pids_join_reap stack j s p Hp) as Hk;
            destruct (join_reap stack j s) as [[pid0 st] s1]; intros [= _ <-];
            by apply (pids_fresh_keeps s)).
  all: case_decide; [by intros [= _ <-]|].
  all: apply (sleep_fresh swtch cur (CProc cur) s _
                (λ o, o = Return v s' → pids_fresh s')); try done.
  intros s1 Hf1 Hlive1. by apply IH.
Qed.

(** X19. Allocation keeps the pids well formed. If every slot in use
    has a positive pid below [nextpid] and no two of them share a pid, the
    same holds after allocproc, fork and clone, whether they succeed or
    fail, as long as [nextpid] has not reached the largest [int]. fork and
    clone answer -1 or the value of [nextpid] before the call, which is
    positive and is the pid of no slot that was in use. *)
Theorem alloc_keeps_pids_fresh (k c : Z) (ok : bool) (fcn arg1 arg2 stack : Z)
    (cur : nat) (s : kstate) (par : proc) :
  pids_fresh s → nextpid s < INT_MAX →
  ptable s !! cur = Some par → state par ≠ UNUSED →
  let f := fork k c cur s in
  let t := clone k ok fcn arg1 arg2 stack cur s in
  pids_fresh (allocproc k s).2 ∧ pids_fresh f.2 ∧ pids_fresh t.2 ∧
  (f.1 = -1 ∨ f.1 = nextpid s) ∧ (t.1 = -1 ∨ t.1 = nextpid s) ∧
  0 < nextpid s ∧
  (∀ j q, ptable s !! j = Some q → state q ≠ UNUSED →
          0 < pid q ∧ pid q ≠ f.1 ∧ pid q ≠ t.1).
Proof.
  intros Hf Hmax Hpar Hlive f t.
  destruct (fork_took k c cur s par Hpar Hlive) as [Hft Hfr].
  destruct (clone_took k ok fcn arg1 arg2 stack cur s par Hpar Hlive) as [Htt Htr].
  split_and!; [by apply (pids_fresh_took s), allocproc_took|
               by apply (pids_fresh_took s)|by apply (pids_fresh_took s)|
               done|done|by destruct Hf|].
  intros j q Hq Hst. destruct Hf as [_ Hrange _].
  pose proof (Hrange j q Hq Hst). fold f in Hfr. fold t in Htr. lia.
Qed.

Lemma cloner_pids_fresh : pids_fresh Fixtures.cloner.
Proof.
  split; [done|..].
  - intros [|[|[|i]]] p Hp Hst; try done; injection Hp as <-; by vm_compute.
  - intros [|[|[|i]]] [|[|[|j]]] p q Hp Hq Hstp Hstq Heq; try done;
      injection Hp as <-; injection Hq as <-; done.
Qed.

Lemma alloc_keeps_pids_fresh_witness :
  pids_fresh Fixtures.cloner ∧
  pids_fresh (fork 7000 900 1 Fixtures.cloner).2 ∧
  pids_fresh (clone 7000 false 4096 11 22 8192 1 Fixtures.cloner).2 ∧
  (fork 7000 900 1 Fixtures.cloner).1 = 3.
Proof.
  destruct (alloc_keeps_pids_fresh 7000 900 false 4096 11 22 8192 1
              Fixtures.cloner _ cloner_pids_fresh ltac:(by vm_compute)
              eq_refl ltac:(done)) as (_ & H2 & H3 & _).
  split_and!; [exact cloner_pids_fresh|exact H2|exact H3|done].
Defined.

(** X20. The other entry points keep the pids well formed. kill, wakeup
    and settickets do; so does exit, up to the state in which it leaves the
    processor; and so do wait, join and yield, whenever they return,
    provided that the rest of the system keeps the pids well formed while
    the caller is off the processor and the caller still has its slot when
    it runs again. *)
Theorem entry_points_keep_pids_fresh (cur : nat) (s : kstate) :
  pids_fresh s → state (slot cur (ptable s)) ≠ UNUSED →
  (∀ pid0, pids_fresh (kill pid0 s).2) ∧
  (∀ c, pids_fresh (wakeup c s)) ∧
  (∀ tks, pids_fresh (settickets tks cur s).2) ∧
  (∀ swtch s', exit swtch cur s = Descheduled s' → pids_fresh s') ∧
  (∀ swtch, swtch_keeps_pids cur swtch →
     (∀ fuel v s', wait swtch fuel cur s = Return v s' → pids_fresh s') ∧
     (∀ fuel stack v s', join swtch fuel stack cur s = Return v s' →
                         pids_fresh s') ∧
     (∀ s', yield swtch cur s = Return tt s' → pids_fresh s')).
Proof.
  intros Hf Hlive. pose proof (live_lt _ _ Hlive) as Hcur. split_and!.
  - intros pid0. apply (pids_fresh_keeps s); [done|apply keeps_pids_kill].
  - intros c. apply (pids_fresh_keeps s); [done|].
    apply keeps_pids_wakeup, keeps_pids_refl.
  - intros tks. apply (pids_fresh_keeps s); [done|apply keeps_pids_settickets].
  - intros swtch s' Hex.
    destruct (decide (Some cur = initproc s)) as [Hi|Hi].
    { unfold exit in Hex. by rewrite decide_True in Hex. }
    destruct (exit_handoff cur s Hi Hcur) as (s1 & Htab & Hn & _ & _ & Hexit).
    rewrite Hexit in Hex. destruct (swtch s1); [done|]. injection Hex as <-.
    apply (pids_fresh_keeps s); [done|]. by apply (keeps_pids_exit cur).
  - intros swtch Hsw. split_and!.
    + intros fuel v s'. by apply wait_fresh.
    + intros fuel stack v s'. by apply join_fresh.
    + intros s'. unfold yield, sched.
      case_decide; [done|].
      destruct (swtch _) as [s1|] eqn:Hs1; [|done]. intros [= <-].
      apply (Hsw _ _ Hs1). apply (pids_fresh_keeps s); [done|].
      apply keeps_pids_upd_live; [done|done|apply keeps_pids_refl].
Qed.

Lemma entry_points_keep_pids_fresh_witness :
  pids_fresh Fixtures.cloner ∧
  pids_fresh (kill 2 Fixtures.cloner).2 ∧
  pids_fresh (settickets 5 1 Fixtures.cloner).2 ∧
  ∃ s', exit (λ _, None) 1 Fixtures.cloner = Descheduled s' ∧ pids_fresh s'.
Proof.
  destruct (entry_points_keep_pids_fresh 1 Fixtures.cloner cloner_pids_fresh
              ltac:(done)) as (H1 & _ & H3 & H4 & _).
  split_and!; [exact cloner_pids_fresh|apply H1|apply H3|].
  eexists. split; [by vm_compute|]. apply (H4 (λ _, None)). by vm_compute.
Defined.

(** ** Booting the first process *)

Lemma boot_pids_fresh (n : nat) : pids_fresh (boot n).
Proof.
  split; [done|..].
  - intros i p [-> _]%lookup_replicate Hst. by destruct Hst.
  - intros i j p q [-> _]%lookup_replicate _ Hst. by destruct Hst.
Qed.

(** X21. userinit on the table as the loader leaves it. With a page for
    the kernel stack and a page directory, the first slot becomes the
    first process: pid 1, RUNNABLE, one page of memory holding the boot
    code, the registers set to enter it at address 0 with the stack at the
    top of the page, the name initcode, the root as working directory, 1
    ticket and no parent; [initproc] points to it and [nextpid] is 2; the
    other slots are untouched and the pids are well formed. From then on
    the next pass of the scheduler dispatches this process, whatever number
    up to the ticket total is drawn, and an exit by it is a panic. Without
    a page directory userinit panics; without a slot or a kernel stack it
    goes through the null pointer allocproc answered. *)
Theorem userinit_boots (n : nat) (kalloc pg : Z) (initcode : list Z) (root : Z) :
  kalloc ≠ 0 → pg ≠ 0 →
  let first :=
    mkProc PGSIZE pg kalloc RUNNABLE 1 None init_tf Forkret CNull 0
           (replicate NOFILE 0) root "initcode" 1 0 0 in
  let s' := mkK (first :: replicate n proc0) 2 (Some 0%nat)
                (load_words pg 0 initcode ∅) [] in
  userinit kalloc pg initcode root (boot (S n)) = Some (Return tt s') ∧
  eip init_tf = 0 ∧ esp init_tf = PGSIZE ∧
  pids_fresh s' ∧
  tickets_sum (ptable s') = 1 ∧
  (∀ random_at_most run, random_at_most 1 ≤ 1 →
     (scheduler_pass random_at_most run s').1 = Some 0%nat) ∧
  (∀ swtch, exit swtch 0 s' = Panic "init exiting") ∧
  userinit kalloc 0 initcode root (boot (S n)) =
    Some (Panic "userinit: out of memory?") ∧
  userinit 0 pg initcode root (boot (S n)) = None ∧
  userinit kalloc pg initcode root (boot 0) = None.
Proof.
  intros Hk Hpg first s'.
  assert (allocproc kalloc (boot (S n)) =
          (Some 0%nat, mkK (alter (embryo 1 kalloc) 0%nat (ptable (boot (S n))))
                           (to_int (1 + 1)) None ∅ [])) as Ha.
  { apply (allocproc_ok kalloc (boot (S n)) 0%nat proc0); [done|done|done|].
    intros j q _ Hj. lia. }
  assert (Forall (λ p, state p ≠ RUNNABLE) (replicate n proc0)) as Hidle.
  { apply Forall_forall. intros p [-> _]%elem_of_replicate. done. }
  assert (tickets_sum (ptable s') = 1) as Hsum.
  { unfold tickets_sum. cbn [ptable s' tickets_sum_from]. cbn [state first].
    rewrite decide_True by done. by rewrite tickets_sum_from_none. }
  split_and!.
  - unfold userinit. rewrite Ha. by rewrite decide_False.
  - done.
  - done.
  - apply (pids_fresh_took (boot (S n))); [apply boot_pids_fresh|done|].
    right. exists 0%nat, proc0, (λ _, first). done.
  - done.
  - intros rnd run Hw. unfold scheduler_pass. rewrite Hsum.
    cbn [ptable s' scheduler_scan]. cbn [state first tickets].
    rewrite decide_False by (intros H; by apply H).
    change (to_int (0 + 1)) with 1. by rewrite decide_False by lia.
  - intros swtch. unfold exit. by rewrite decide_True.
  - unfold userinit. rewrite Ha. by rewrite decide_True.
  - unfold userinit. rewrite (allocproc_no_page (boot (S n)) 0%nat proc0); [done..|].
    intros j q _ Hj. lia.
  - done.
Qed.

Lemma userinit_boots_witness :
  ∃ s', userinit 7000 100 [11; 22] 9 (boot 64) = Some (Return tt s') ∧
        pid (slot 0 (ptable s')) = 1 ∧ state (slot 0 (ptable s')) = RUNNABLE ∧
        umem s' !! (100, 4) = Some 22 ∧ pids_fresh s' ∧
        exit (λ _, None) 0 s' = Panic "init exiting".
Proof.
  destruct (userinit_boots 63 7000 100 [11; 22] 9) as (H1 & _ & _ & H4 & _ & _ & H7 & _);
    [done|done|].
  eexists. split; [exact H1|]. split_and!; [done|done|done|exact H4|apply H7].
Defined.

(** ** Growing and shrinking the address space *)

Lemma set_sz_same (p : proc) : set_sz (sz p) p = p.
Proof. by destruct p. Qed.

Lemma upd_same (i : nat) (f : proc → proc) (s : kstate) :
  f (slot i (ptable s)) = slot i (ptable s) → upd i f s = s.
Proof.
  intros Hf. destruct s as [t n ip m tr]. unfold upd, set_ptable. cbn in *.
  f_equal. apply list_eq. intros j. rewrite list_lookup_alter.
  case_decide as Hj; [|done]. subst j. unfold slot in Hf.
  destruct (t !! i) as [p|]; [|done]. cbn in *. by rewrite Hf.
Qed.

(** X22. growproc. When the collaborator that maps or unmaps the pages
    answers 0, growproc answers -1 and changes nothing. A request for 0
    bytes answers 0 and changes nothing. Otherwise it answers 0 and the
    size the collaborator reached becomes the caller's; the request it made
    was for the old size plus [n] as a [uint]. Only the caller's record
    changes: a record that shares the caller's address space keeps the old
    size, so a clone by that process is still checked against the old
    size. *)
Theorem growproc_resizes (allocuvm deallocuvm : Z → Z → Z → Z) (n : Z)
    (cur : nat) (s : kstate) :
  (cur < length (ptable s))%nat →
  let me := slot cur (ptable s) in
  let r := growproc allocuvm deallocuvm n cur s in
  let reached :=
    (if decide (0 < n) then allocuvm else deallocuvm)
      (pgdir me) (sz me) (to_uint (sz me + n)) in
  (n ≠ 0 → reached = 0 → r = (-1, s)) ∧
  (n = 0 → r = (0, s)) ∧
  (n ≠ 0 → reached ≠ 0 →
   r.1 = 0 ∧ slot cur (ptable r.2) = set_sz reached me ∧
   nextpid r.2 = nextpid s ∧ trace r.2 = trace s ∧ umem r.2 = umem s) ∧
  (∀ j, j ≠ cur → ptable r.2 !! j = ptable s !! j) ∧
  (∀ j k ok fcn arg1 arg2 stack,
     j ≠ cur → 0 ≤ stack → stack + PGSIZE < 2 ^ 32 →
     sz (slot j (ptable s)) < stack + PGSIZE →
     clone k ok fcn arg1 arg2 stack j r.2 = (-1, r.2)).
Proof.
  intros Hcur me r reached.
  assert (∀ j, j ≠ cur → ptable r.2 !! j = ptable s !! j) as Hother.
  { intros j Hj. unfold r, growproc. repeat case_decide; cbn [snd]; try done;
      unfold upd, set_ptable; cbn [ptable]; by rewrite list_lookup_alter_ne. }
  split_and!.
  - intros Hn Hz. unfold r, growproc. fold me. unfold reached in Hz.
    destruct (decide (0 < n)); [by rewrite decide_True|].
    rewrite decide_True by lia. by rewrite decide_True.
  - intros ->. unfold r, growproc. rewrite !decide_False by lia.
    f_equal. apply upd_same, set_sz_same.
  - intros Hn Hz. unfold r, growproc. fold me. unfold reached in Hz |- *.
    destruct (decide (0 < n)).
    + rewrite decide_False by done. cbn [fst snd]. split_and!; try done.
      unfold upd, set_ptable. cbn [ptable]. by rewrite slot_alter_eq.
    + rewrite decide_True by lia. rewrite decide_False by done.
      cbn [fst snd]. split_and!; try done.
      unfold upd, set_ptable. cbn [ptable]. by rewrite slot_alter_eq.
  - done.
  - intros j k ok fcn arg1 arg2 stack Hj H0 Htop Hsz.
    apply clone_rejects_outside; [done|done|].
    unfold slot. by rewrite Hother.
Qed.

Lemma growproc_resizes_witness :
  let r := growproc (λ _ _ new, new) (λ _ _ new, new) 4096 2 Fixtures.thread_done in
  r.1 = 0 ∧ sz (slot 2 (ptable r.2)) = 4096 ∧
  sz (slot 1 (ptable r.2)) = 16384 ∧
  growproc (λ _ _ _, 0) (λ _ _ new, new) 4096 2 Fixtures.thread_done =
    (-1, Fixtures.thread_done).
Proof.
  destruct (growproc_resizes (λ _ _ new, new) (λ _ _ new, new) 4096 2
              Fixtures.thread_done) as (_ & _ & H3 & _); [cbn; lia|].
  destruct H3 as (H31 & H32 & _); [done|done|].
  destruct (growproc_resizes (λ _ _ _, 0) (λ _ _ new, new) 4096 2
              Fixtures.thread_done) as (H1 & _); [cbn; lia|].
  cbn zeta. split_and!; [exact H31|exact (f_equal sz H32)|done|by apply H1].
Defined.

(** ** The first run of a process *)

(** X23. The initialisations of [forkret] run once. Whatever the number
    of processes that start, the first one to run calls [iinit] and then
    [initlog] on the root device, and no later one calls them again. *)
Theorem forkret_initialises_once (n : nat) :
  forkret_runs (S n) true = ([Iinit ROOTDEV; Initlog ROOTDEV], false) ∧
  forkret_runs n false = ([], false).
Proof.
  assert (∀ m, forkret_runs m false = ([], false)) as Hlater.
  { intros m. induction m as [|m IH]; [done|]. cbn. by rewrite IH. }
  split; [|apply Hlater]. cbn. by rewrite Hlater.
Qed.

(** ** Finding the processor and its process *)

Lemma mycpu_loop_spec (lapicid : Z) (cpus : list cpu) (todo i : nat)
    (r : option nat) :
  (i + todo ≤ length cpus)%nat →
  mycpu_loop lapicid cpus i todo = r ↔
  match r with
  | Some k => (i ≤ k < i + todo)%nat ∧
              (∃ c, cpus !! k = Some c ∧ apicid c = lapicid) ∧
              ∀ j c, (i ≤ j < k)%nat → cpus !! j = Some c → apicid c ≠ lapicid
  | None => ∀ j c, (i ≤ j < i + todo)%nat → cpus !! j = Some c →
                   apicid c ≠ lapicid
  end.
Proof.
  revert i. induction todo as [|todo IH]; intros i Hlen; cbn [mycpu_loop].
  - destruct r as [k|]; split; try done; [intros [? _]; lia|intros _ j c ?; lia].
  - destruct (lookup_lt_is_Some_2 cpus i) as [c Hc]; [lia|]. rewrite Hc.
    destruct (decide (apicid c = lapicid)) as [Hid|Hid].
    + destruct r as [k|]; split.
      * intros [= <-]. split; [lia|split; [by exists c|intros; lia]].
      * intros (Hk & _ & Hfirst). f_equal.
        destruct (decide (i = k)) as [|Hne]; [done|].
        destruct (Hfirst i c); [lia|done|done].
      * done.
      * intros Hnone. destruct (Hnone i c); [lia|done|done].
    + rewrite (IH (S i)) by lia. destruct r as [k|]; split.
      * intros (Hk & Hc' & Hfirst). split; [lia|split; [done|]].
        intros j c' Hj Hc''. destruct (decide (j = i)) as [->|Hne].
        -- congruence.
        -- apply (Hfirst j); [lia|done].
      * intros (Hk & (c' & Hc' & Hid') & Hfirst).
        assert (k ≠ i) by (intros ->; congruence).
        split; [lia|split; [by exists c'|]]. intros j c'' Hj. apply Hfirst. lia.
      * intros Hnone j c' Hj Hc'. destruct (decide (j = i)) as [->|Hne].
        -- congruence.
        -- apply (Hnone j); [lia|done].
      * intros Hnone j c' Hj. apply Hnone. lia.
Qed.

(** X24. mycpu, cpuid and myproc. Called with interrupts enabled, mycpu
    panics. Otherwise it answers the first of the [ncpu] processor records
    whose APIC id is the one the local APIC reports, and panics with
    "unknown apicid" exactly when none of them has it; cpuid answers the
    index of that record and myproc the process the record points to. *)
Theorem mycpu_finds (lapicid : Z) (ncpu : nat) (cpus : list cpu) :
  (ncpu ≤ length cpus)%nat →
  mycpu true lapicid ncpu cpus = inl "mycpu called with interrupts enabled" ∧
  (∀ i, mycpu false lapicid ncpu cpus = inr i ↔
        (i < ncpu)%nat ∧ (∃ c, cpus !! i = Some c ∧ apicid c = lapicid) ∧
        ∀ j c, (j < i)%nat → cpus !! j = Some c → apicid c ≠ lapicid) ∧
  (mycpu false lapicid ncpu cpus = inl "unknown apicid" ↔
   ∀ j c, (j < ncpu)%nat → cpus !! j = Some c → apicid c ≠ lapicid) ∧
  (∀ i c, mycpu false lapicid ncpu cpus = inr i → cpus !! i = Some c →
          cpuid false lapicid ncpu cpus = inr i ∧
          myproc lapicid ncpu cpus = inr (cpu_proc c)).
Proof.
  intros Hlen.
  pose proof (λ r, mycpu_loop_spec lapicid cpus ncpu 0 r Hlen) as Hspec.
  split_and!.
  - done.
  - intros i. specialize (Hspec (Some i)). cbn beta iota in Hspec.
    transitivity (mycpu_loop lapicid cpus 0 ncpu = Some i).
    { unfold mycpu. destruct (mycpu_loop lapicid cpus 0 ncpu); split; congruence. }
    rewrite Hspec. split; intros (Hk & Hc & Hfirst);
      (split; [lia|split; [done|]]); intros j c Hj; apply Hfirst; lia.
  - specialize (Hspec None). cbn beta iota in Hspec.
    transitivity (mycpu_loop lapicid cpus 0 ncpu = None).
    { unfold mycpu. destruct (mycpu_loop lapicid cpus 0 ncpu); split; congruence. }
    rewrite Hspec. split; intros Hnone j c Hj; apply Hnone; lia.
  - intros i c Hi Hc. split; [done|]. unfold myproc. rewrite Hi, Hc. done.
Qed.

Lemma mycpu_finds_witness :
  let cpus := [mkCpu 0 (Some 3%nat); mkCpu 2 None; mkCpu 4 (Some 1%nat)] in
  mycpu false 4 3 cpus = inr 2%nat ∧
  myproc 4 3 cpus = inr (Some 1%nat) ∧
  mycpu false 4 2 cpus = inl "unknown apicid".
Proof.
  pose (cpus := [mkCpu 0 (Some 3%nat); mkCpu 2 None; mkCpu 4 (Some 1%nat)]).
  destruct (mycpu_finds 4 3 cpus) as (_ & H2 & _ & H4); [cbn; lia|].
  destruct (mycpu_finds 4 2 cpus) as (_ & _ & H3 & _); [cbn; lia|].
  assert (mycpu false 4 3 cpus = inr 2%nat) as Hi.
  { apply H2. split; [lia|split; [by eexists|]].
    intros [|[|j]] c Hj Hc; [by injection Hc as <-..|lia]. }
  cbn zeta. split_and!; [exact Hi|by apply (H4 2%nat (mkCpu 4 (Some 1%nat)))|].
  apply H3. intros [|[|j]] c Hj Hc; [by injection Hc as <-..|lia].
Defined.

(** ** The ticket lock: handing over, and a wakeup that comes too early *)

Lemma release_add_turn (n : Z) (h : nat) (k : Z) (s : sys) :
  Inv n s → pc_of h s = Holding k →
  k = current_turn (lk s) ∧
  lk (release_t_add h s) = mkLock (next_ticket (lk s)) (k + 1) ∧
  entered (release_t_add h s) = entered s.
Proof.
  intros HI Hh. pose proof (inv_hold _ _ HI _ _ Hh) as Hk.
  assert (ticket_of (pc_of h s) = Some k) as Htk by (by rewrite Hh).
  pose proof (inv_range _ _ HI _ _ Htk) as Hrange.
  destruct HI. split_and!; [done| |done].
  unfold release_t_add, fetch_and_add. cbn [lk]. f_equal. rewrite <- Hk.
  apply to_int_id. unfold in_int, INT_MIN. lia.
Qed.

Lemma test_enters (t : nat) (k : Z) (s : sys) :
  pc_of t s = Testing k → current_turn (lk s) = k →
  ∃ s', step (Test t) s = Some s' ∧ pc_of t s' = Holding k ∧
        entered s' = entered s ++ [k].
Proof.
  intros Ht Hk. exists (acquire_t_test t k s). split; [by apply step_test|].
  unfold acquire_t_test. rewrite decide_False by (intros H; by apply H).
  by rewrite pc_of_insert, decide_True.
Qed.

Lemma test_fails (t : nat) (k : Z) (s : sys) :
  pc_of t s = Testing k → current_turn (lk s) ≠ k →
  ∃ s', step (Test t) s = Some s' ∧ pc_of t s' = Failed k ∧
        entered s' = entered s.
Proof.
  intros Ht Hk. exists (acquire_t_test t k s). split; [by apply step_test|].
  unfold acquire_t_test. rewrite decide_True by done.
  by rewrite pc_of_insert, decide_True.
Qed.

(** X25. release_t hands the lock to the next ticket. As long as no
    more tickets were drawn than an [int] counts: when the holder, with
    ticket [k], runs the first statement of release_t, the turn becomes
    [k + 1], no other thread moves and nobody has entered. For the thread
    that has the ticket [k + 1], if there is one: if it is about to test,
    it finds the turn its own and enters, whether the wakeup has happened
    or not; if it is asleep, it does not test before it is woken, the
    wakeup of release_t makes it test again, and then it enters; if it has
    found the turn not its own and is on its way to sleep, all depends on
    the order: when it goes to sleep before the wakeup it is woken and
    tests again, when it goes to sleep after the wakeup it sleeps with the
    turn being its own, and no wakeup is pending unless another thread is
    inside release_t. A thread with any other ticket that tests finds the
    turn is not its own. When nothing runs between the two statements,
    they make up [release_t]. *)
Theorem ticket_lock_handoff (l : list action) (s : sys) (h : nat) (k : Z) :
  run l init = Some s → draws l ≤ INT_MAX → pc_of h s = Holding k →
  ∃ s1,
    step (Release h) s = Some s1 ∧
    current_turn (lk s1) = k + 1 ∧ next_ticket (lk s1) = next_ticket (lk s) ∧
    pc_of h s1 = Releasing ∧ entered s1 = entered s ∧
    (∀ t, t ≠ h → pc_of t s1 = pc_of t s) ∧
    (∀ t, pc_of t s = Testing (k + 1) →
       ∃ s2, step (Test t) s1 = Some s2 ∧ pc_of t s2 = Holding (k + 1) ∧
             entered s2 = entered s ++ [k + 1]) ∧
    (∀ t, pc_of t s = Asleep (k + 1) →
       step (Test t) s1 = None ∧ step (Sleep t) s1 = None ∧
       ∃ s2 s3, step (Broadcast h) s1 = Some s2 ∧
                pc_of t s2 = Testing (k + 1) ∧
                step (Test t) s2 = Some s3 ∧ pc_of t s3 = Holding (k + 1) ∧
                entered s3 = entered s ++ [k + 1]) ∧
    (∀ t, pc_of t s = Failed (k + 1) →
       (∃ s3, run [Sleep t; Broadcast h] s1 = Some s3 ∧
              pc_of t s3 = Testing (k + 1) ∧ current_turn (lk s3) = k + 1) ∧
       (∃ s3, run [Broadcast h; Sleep t] s1 = Some s3 ∧
              pc_of t s3 = Asleep (k + 1) ∧ current_turn (lk s3) = k + 1 ∧
              ((∀ t', t' ≠ h → pc_of t' s ≠ Releasing) →
               ∀ t', pc_of t' s3 ≠ Releasing))) ∧
    (∀ t k', pc_of t s = Testing k' → k' ≠ k + 1 →
             ∃ s2, step (Test t) s1 = Some s2 ∧ pc_of t s2 = Failed k' ∧
                   entered s2 = entered s) ∧
    run [Release h; Broadcast h] s = Some (release_t h s).
Proof.
  intros Hrun Hmax Hh.
  pose proof (inv_run l 0 init s Hrun ltac:(lia) inv_init) as HI.
  destruct (release_add_turn _ h k s HI Hh) as (Hk & Hlk & Hent).
  set (s1 := release_t_add h s) in *.
  assert (∀ t, t ≠ h → pc_of t s1 = pc_of t s) as Hother.
  { intros t Ht. unfold s1. rewrite pc_of_add. by rewrite decide_False. }
  assert (pc_of h s1 = Releasing) as Hh1.
  { unfold s1. by rewrite pc_of_add, decide_True. }
  assert (∀ t c, pc_of t s = c → c ≠ Holding k → t ≠ h) as Hne.
  { intros t c Hc Hck ->. congruence. }
  set (s2 := release_t_wakeup h s1).
  assert (step (Broadcast h) s1 = Some s2) as Hb by (by apply step_broadcast).
  assert (lk s2 = lk s1 ∧ entered s2 = entered s1) as [Hlk2 Hent2] by done.
  exists s1. split_and!.
  - by apply (step_release h k).
  - by rewrite Hlk.
  - by rewrite Hlk.
  - done.
  - done.
  - done.
  - intros t Ht.
    assert (pc_of t s1 = Testing (k + 1)) as Ht1
      by (rewrite Hother; [done|by apply (Hne t _ Ht)]).
    destruct (test_enters t (k + 1) s1 Ht1) as (s3 & H1 & H2 & H3);
      [by rewrite Hlk|].
    exists s3. by rewrite <- Hent.
  - intros t Ht.
    assert (t ≠ h) as Hth by (by apply (Hne t _ Ht)).
    assert (pc_of t s1 = Asleep (k + 1)) as Ht1 by (by rewrite Hother).
    assert (pc_of t s2 = Testing (k + 1)) as Ht2.
    { unfold s2. rewrite pc_of_wakeup, decide_False by done. by rewrite Ht1. }
    destruct (test_enters t (k + 1) s2 Ht2) as (s3 & H1 & H2 & H3);
      [by rewrite Hlk2, Hlk|].
    split_and!; [cbn [step]; by rewrite Ht1..|].
    exists s2, s3. split_and!; [done..|]. by rewrite H3, Hent2, Hent.
  - intros t Ht.
    assert (t ≠ h) as Hth by (by apply (Hne t _ Ht)).
    assert (pc_of t s1 = Failed (k + 1)) as Ht1 by (by rewrite Hother).
    split.
    + set (s1' := ticket_sleep t (k + 1) s1).
      assert (pc_of h s1' = Releasing) as Hh1'.
      { unfold s1', ticket_sleep. by rewrite pc_of_insert, decide_False. }
      exists (release_t_wakeup h s1'). split_and!.
      * rewrite (run_cons _ _ s1 s1') by (cbn [step]; by rewrite Ht1).
        rewrite (run_cons _ _ s1' (release_t_wakeup h s1'))
          by (by apply step_broadcast).
        done.
      * rewrite pc_of_wakeup, decide_False by done.
        unfold s1', ticket_sleep. by rewrite pc_of_insert, decide_True.
      * unfold release_t_wakeup, s1', ticket_sleep. cbn [lk]. by rewrite Hlk.
    + assert (pc_of t s2 = Failed (k + 1)) as Ht2.
      { unfold s2. rewrite pc_of_wakeup, decide_False by done. by rewrite Ht1. }
      exists (ticket_sleep t (k + 1) s2). split_and!.
      * rewrite (run_cons _ _ s1 s2) by done.
        rewrite (run_cons _ _ s2 (ticket_sleep t (k + 1) s2))
          by (cbn [step]; by rewrite Ht2).
        done.
      * unfold ticket_sleep. by rewrite pc_of_insert, decide_True.
      * unfold ticket_sleep. cbn [lk]. by rewrite Hlk2, Hlk.
      * intros Hnone t'. unfold ticket_sleep. rewrite pc_of_insert.
        case_decide; [done|]. change (pc_of t' s2 ≠ Releasing).
        unfold s2. rewrite pc_of_wakeup.
        case_decide; [done|]. rewrite Hother by done.
        specialize (Hnone t' ltac:(done)). by destruct (pc_of t' s).
  - intros t k' Ht Hk'.
    assert (pc_of t s1 = Testing k') as Ht1
      by (rewrite Hother; [done|by apply (Hne t _ Ht)]).
    destruct (test_fails t k' s1 Ht1) as (s3 & H1 & H2 & H3);
      [rewrite Hlk; cbn; lia|].
    exists s3. by rewrite <- Hent.
  - rewrite (run_cons _ _ s s1) by (by apply (step_release h k)).
    by rewrite (run_cons _ _ s1 s2).
Qed.

Lemma ticket_lock_handoff_witness :
  ∃ s s1 s2 s3,
    run [Draw 0; Draw 1; Test 0; Test 1; Sleep 1] init = Some s ∧
    pc_of 0 s = Holding 0 ∧ pc_of 1 s = Asleep 1 ∧
    step (Release 0) s = Some s1 ∧ step (Test 1) s1 = None ∧
    step (Broadcast 0) s1 = Some s2 ∧ step (Test 1) s2 = Some s3 ∧
    pc_of 1 s3 = Holding 1 ∧ entered s3 = [0; 1].
Proof.
  eexists.
  destruct (ticket_lock_handoff [Draw 0; Draw 1; Test 0; Test 1; Sleep 1] _ 0 0
              eq_refl ltac:(by vm_compute) eq_refl)
    as (s1 & H1 & _ & _ & _ & _ & _ & _ & Hs & _).
  destruct (Hs 1%nat eq_refl) as (Hno & _ & s2 & s3 & H2 & _ & H3 & H4 & H5).
  exists s1, s2, s3.
  split_and!; [reflexivity|reflexivity|reflexivity|exact H1|exact Hno|exact H2|
               exact H3|exact H4|exact H5].
Defined.

(** One step of a schedule while a sleeper has the current turn and no
    wakeup is pending. *)
Lemma sleeper_blocks_step (n : Z) (s s' : sys) (t : nat) (a : action) :
  Inv n s → pc_of t s = Asleep (current_turn (lk s)) →
  (∀ t', pc_of t' s ≠ Releasing) →
  a ≠ Wake t → step a s = Some s' →
  entered s' = entered s ∧ current_turn (lk s') = current_turn (lk s) ∧
  pc_of t s' = Asleep (current_turn (lk s)) ∧
  (∀ t', pc_of t' s' ≠ Releasing).
Proof.
  intros HI Ht Hnone Ha Hstep.
  assert (ticket_of (pc_of t s) = Some (current_turn (lk s))) as Htk
    by (by rewrite Ht).
  assert (∀ t' c, ticket_of c = Some (current_turn (lk s)) → pc_of t' s = c →
                  t' = t) as Honly.
  { intros t' c Hc Hpc. apply (inv_uniq _ _ HI t' t (current_turn (lk s)));
      [by rewrite Hpc|done]. }
  assert (∀ l e t0 c, c ≠ Releasing → ∀ t',
            pc_of t' (mkSys l (<[t0 := c]> (threads s)) e) ≠ Releasing) as Hins.
  { intros l e t0 c Hc t'. rewrite pc_of_insert. case_decide; [done|].
    apply (Hnone t'). }
  destruct a as [t'|t'|t'|t'|t'|t']; cbn [step] in Hstep;
    destruct (pc_of t' s) as [|k|k|k|k|] eqn:Hpc; try done;
    injection Hstep as <-.
  - assert (t' ≠ t) by (intros ->; congruence).
    unfold acquire_t_draw, fetch_and_add. cbn [lk entered current_turn].
    split_and!; [done|done|by rewrite pc_of_insert, decide_False|by apply Hins].
  - assert (t' ≠ t) by (intros ->; congruence).
    unfold acquire_t_test. rewrite decide_True.
    + cbn [lk entered].
      split_and!; [done|done|by rewrite pc_of_insert, decide_False|by apply Hins].
    + intros Hk. apply H. apply (Honly t' (Testing k)); [by rewrite Hk|done].
  - assert (t' ≠ t) by (intros ->; congruence).
    unfold ticket_sleep. cbn [lk entered].
    split_and!; [done|done|by rewrite pc_of_insert, decide_False|by apply Hins].
  - assert (t' ≠ t) by (intros ->; done).
    cbn [lk entered].
    split_and!; [done|done|by rewrite pc_of_insert, decide_False|by apply Hins].
  - pose proof (inv_hold _ _ HI _ _ Hpc) as Hk.
    assert (t' = t) as -> by (apply (Honly t' (Holding k)); [by rewrite Hk|done]).
    congruence.
  - by destruct (Hnone t').
Qed.

(** X26. A wakeup that comes too early is lost. acquire_t tests the
    turn and goes to sleep in two steps; when the holder runs all of
    release_t between the two, its wakeup finds nobody asleep. As long as
    no more tickets are drawn than an [int] counts: from a state in which
    a thread sleeps with the current turn as its ticket and no thread is
    between the two statements of release_t, whatever the threads do, as
    long as nobody else wakes that thread, no thread enters the lock, the
    turn does not move, no wakeup is ever pending and the thread stays
    asleep. *)
Theorem ticket_lock_lost_wakeup (l0 l : list action) (s s' : sys) (t : nat) :
  run l0 init = Some s → pc_of t s = Asleep (current_turn (lk s)) →
  (∀ t', pc_of t' s ≠ Releasing) →
  Forall (λ a, a ≠ Wake t) l → run l s = Some s' →
  draws l0 + draws l ≤ INT_MAX →
  entered s' = entered s ∧ current_turn (lk s') = current_turn (lk s) ∧
  pc_of t s' = Asleep (current_turn (lk s)) ∧
  (∀ t' k, pc_of t' s' ≠ Holding k) ∧
  (∀ t', pc_of t' s' ≠ Releasing).
Proof.
  intros Hrun0 Ht Hnone Hl Hrun Hmax.
  pose proof (draws_nonneg l) as Hl0. pose proof (draws_nonneg l0) as Hl00.
  pose proof (inv_run l0 0 init s Hrun0 ltac:(lia) inv_init) as HI.
  rewrite Z.add_0_l in HI.
  assert (∀ n s, Inv n s → pc_of t s = Asleep (current_turn (lk s)) →
                 ∀ t' k, pc_of t' s ≠ Holding k) as Hfree.
  { intros n s0 HI0 Ht0 t' k Hh.
    pose proof (inv_hold _ _ HI0 _ _ Hh) as ->.
    assert (t' = t) as ->; [|congruence].
    apply (inv_uniq _ _ HI0 t' t (current_turn (lk s0)));
      [by rewrite Hh|by rewrite Ht0]. }
  revert Hl Hrun Hmax HI Ht Hnone. generalize (draws l0). clear Hrun0 Hl00 Hl0.
  revert s. induction l as [|a l IH]; intros s n Hl Hrun Hmax HI Ht Hnone.
  - injection Hrun as <-. split_and!; [done|done|done|by apply (Hfree n)|done].
  - apply Forall_cons in Hl as [Ha Hl]. cbn [run] in Hrun.
    destruct (step a s) as [s1|] eqn:Hstep; [|done].
    rewrite draws_cons in Hmax. pose proof (draws_nonneg l).
    pose proof (draws_nonneg [a]).
    destruct (sleeper_blocks_step n s s1 t a HI Ht Hnone Ha Hstep)
      as (He & Hc & Hp & Hn1).
    pose proof (inv_step n s HI a s1 Hstep ltac:(lia)) as HI1.
    destruct (IH s1 (n + draws [a])) as (He' & Hc' & Hp' & Hh' & Hn');
      [done|done|lia|done|by rewrite Hc|done|].
    rewrite Hc in *. split_and!; [congruence|congruence|done|done|done].
Qed.

Lemma late_sleeper_state :
  run Schedules.late_sleeper init =
    Some (mkSys (mkLock 2 1) (<[1%nat := Asleep 1]> (<[0%nat := Outside]> ∅)) [0]).
Proof. by vm_compute. Qed.

Lemma late_sleeper_none_pending (t' : nat) :
  pc_of t' (mkSys (mkLock 2 1) (<[1%nat := Asleep 1]> (<[0%nat := Outside]> ∅)) [0])
    ≠ Releasing.
Proof.
  rewrite pc_of_insert. case_decide; [done|].
  rewrite lookup_insert. case_decide; [done|]. by rewrite lookup_empty.
Qed.

Lemma ticket_lock_lost_wakeup_witness :
  ∃ s, run Schedules.late_sleeper init = Some s ∧
       pc_of 1 s = Asleep 1 ∧ current_turn (lk s) = 1 ∧
       (∀ t', pc_of t' s ≠ Releasing) ∧
       (∀ t k, pc_of t s ≠ Holding k) ∧
       ∀ s', run [Draw 2; Test 2; Sleep 2; Draw 0; Test 0] s = Some s' →
             entered s' = [0] ∧ pc_of 1 s' = Asleep 1.
Proof.
  exists (mkSys (mkLock 2 1) (<[1%nat := Asleep 1]> (<[0%nat := Outside]> ∅)) [0]).
  split; [exact late_sleeper_state|]. split; [reflexivity|].
  split; [reflexivity|]. split; [exact late_sleeper_none_pending|].
  split.
  - apply (ticket_lock_lost_wakeup Schedules.late_sleeper [] _ _ 1
             late_sleeper_state eq_refl late_sleeper_none_pending);
      [by constructor|done|by vm_compute].
  - intros s' Hrun.
    destruct (ticket_lock_lost_wakeup Schedules.late_sleeper
                [Draw 2; Test 2; Sleep 2; Draw 0; Test 0] _ s' 1
                late_sleeper_state eq_refl late_sleeper_none_pending)
      as (H1 & _ & H3 & _); [by repeat constructor|exact Hrun|by vm_compute|].
    split; [exact H1|exact H3].
Defined.

(** ** The process listing *)

Import Dump.








(** ** Ticks count the dispatches *)

Lemma times_cons (j i : nat) (l : list nat) :
  times j (i :: l) = (if decide (i = j) then 1 else 0) + times j l.
Proof.
  unfold times. rewrite filter_cons. case_decide; cbn [length]; lia.
Qed.

Lemma times_bound (j : nat) (l : list nat) : 0 ≤ times j l ≤ Z.of_nat (length l).
Proof.
  unfold times. pose proof (length_filter (λ i, i = j) l). lia.
Qed.

Lemma dispatches_length (rnd : nat → Z → Z) (run : nat → nat → kstate → kstate)
    (fuel : nat) (s : kstate) :
  (length (dispatches rnd run fuel s) ≤ fuel)%nat.
Proof.
  revert rnd run s.
  induction fuel as [|fuel IH]; intros rnd run s; cbn [dispatches]; [done|].
  pose proof (IH (λ n, rnd (S n)) (λ n, run (S n))
                (scheduler_pass (rnd 0%nat) (run 0%nat) s).2).
  destruct (scheduler_pass (rnd 0%nat) (run 0%nat) s).1; cbn [length]; lia.
Qed.

(** One pass: the ticks of the slot dispatched go up by one, the others
    stay. *)
Lemma scheduler_pass_ticks (rnd : Z → Z) (run : nat → kstate → kstate)
    (s : kstate) (j : nat) :
  (∀ i s0 j, ticks (slot j (ptable (run i s0))) = ticks (slot j (ptable s0))) →
  (∀ i s0, length (ptable (run i s0)) = length (ptable s0)) →
  let r := scheduler_pass rnd run s in
  length (ptable r.2) = length (ptable s) ∧
  ticks (slot j (ptable r.2)) =
    if decide (r.1 = Some j) then to_int (ticks (slot j (ptable s)) + 1)
    else ticks (slot j (ptable s)).
Proof.
  intros Hticks Hlen r. unfold r, scheduler_pass.
  destruct (scheduler_scan _ _ _ _) as [i|] eqn:Hscan; cbn [fst snd].
  2:{ by rewrite decide_False. }
  destruct (scheduler_scan_runnable _ _ _ _ _ Hscan) as (i' & p & -> & Hp & _).
  cbn [Nat.add] in *. pose proof (lookup_lt_Some _ _ _ Hp) as Hi.
  set (s1 := run i' (upd i' (set_state RUNNING) s)).
  assert (length (ptable s1) = length (ptable s)) as Hlen1.
  { unfold s1. rewrite Hlen. unfold upd, set_ptable. cbn [ptable].
    by rewrite length_alter. }
  assert (∀ j, ticks (slot j (ptable s1)) = ticks (slot j (ptable s))) as Ht1.
  { intros j'. unfold s1. rewrite Hticks. unfold upd, set_ptable. cbn [ptable].
    by rewrite (slot_alter_proj ticks). }
  unfold upd, set_ptable. cbn [ptable]. split; [by rewrite length_alter|].
  destruct (decide (i' = j)) as [->|Hne].
  - rewrite decide_True by done. rewrite slot_alter_eq by lia. cbn [ticks set_ticks].
    by rewrite Ht1.
  - rewrite decide_False by congruence. rewrite slot_alter_ne by done. apply Ht1.
Qed.

(** X28. The field [ticks] counts dispatches. Over any number of passes
    of the scheduler, whatever number the generator answers in each pass
    and whatever the process dispatched in each pass does, provided it
    leaves the table at its length and does not write [ticks], which only
    allocproc and the scheduler do: the ticks of every slot have grown by
    the number of times that slot was dispatched, and this is what getpinfo
    reports, as long as the ticks of the slot at the start plus the number
    of passes fit in an [int]. *)
Theorem ticks_count_dispatches (random_at_most : nat → Z → Z)
    (run : nat → nat → kstate → kstate) (fuel : nat) (s : kstate) (j : nat) :
  (∀ n i s0 j, ticks (slot j (ptable (run n i s0))) = ticks (slot j (ptable s0))) →
  (∀ n i s0, length (ptable (run n i s0)) = length (ptable s0)) →
  (j < length (ptable s))%nat →
  INT_MIN ≤ ticks (slot j (ptable s)) →
  ticks (slot j (ptable s)) + Z.of_nat fuel ≤ INT_MAX →
  let s' := scheduler random_at_most run fuel s in
  let n := times j (dispatches random_at_most run fuel s) in
  ticks (slot j (ptable s')) = ticks (slot j (ptable s)) + n ∧
  0 ≤ n ≤ Z.of_nat fuel ∧
  ps_ticks <$> (getpinfo s').2 !! j = Some (ticks (slot j (ptable s)) + n).
Proof.
  intros Hticks Hlen.
  assert (∀ fuel rnd run s,
            (∀ n i s0 j, ticks (slot j (ptable (run n i s0))) =
                         ticks (slot j (ptable s0))) →
            (∀ n i s0, length (ptable (run n i s0)) = length (ptable s0)) →
            (j < length (ptable s))%nat →
            INT_MIN ≤ ticks (slot j (ptable s)) →
            ticks (slot j (ptable s)) + Z.of_nat fuel ≤ INT_MAX →
            (j < length (ptable (scheduler rnd run fuel s)))%nat ∧
            ticks (slot j (ptable (scheduler rnd run fuel s))) =
              ticks (slot j (ptable s)) + times j (dispatches rnd run fuel s))
    as Hmain.
  { clear. intros fuel.
    induction fuel as [|fuel IH]; intros rnd run s Hticks Hlen Hj Hlo Hhi.
    - cbn [scheduler dispatches]. unfold times. cbn. split; [done|lia].
    - cbn [scheduler dispatches].
      destruct (scheduler_pass_ticks (rnd 0%nat) (run 0%nat) s j
                  (Hticks 0%nat) (Hlen 0%nat)) as [Hl Ht].
      set (r := scheduler_pass (rnd 0%nat) (run 0%nat) s) in *.
      assert (ticks (slot j (ptable r.2)) =
              ticks (slot j (ptable s)) + if decide (r.1 = Some j) then 1 else 0)
        as Ht'.
      { rewrite Ht. case_decide; [|lia]. apply to_int_id.
        unfold in_int. lia. }
      destruct (IH (λ n, rnd (S n)) (λ n, run (S n)) r.2) as [Hj' IHt];
        [intros n; apply (Hticks (S n))|intros n; apply (Hlen (S n))|
         by rewrite Hl|case_decide; lia..|].
      split; [done|]. rewrite IHt, Ht'.
      destruct r.1 as [i|] eqn:Hr.
      + rewrite times_cons. repeat case_decide; try congruence; lia.
      + rewrite decide_False by done. lia. }
  intros Hj Hlo Hhi s' n.
  destruct (Hmain fuel random_at_most run s Hticks Hlen Hj Hlo Hhi) as [Hj' Ht].
  pose proof (times_bound j (dispatches random_at_most run fuel s)) as Hb.
  pose proof (dispatches_length random_at_most run fuel s) as Hd.
  split_and!; [done|fold n in Hb; lia|fold n in Hb; lia|].
  unfold getpinfo, s', n. cbn [snd]. rewrite list_lookup_fmap.
  rewrite (lookup_slot _ _ Hj'). cbn [fmap option_fmap option_map pstat_of ps_ticks].
  by rewrite Ht.
Qed.

Lemma ticks_count_dispatches_witness :
  let back := λ (_ i : nat) (s : kstate), upd i (set_state RUNNABLE) s in
  let s' := scheduler three_draws back 3 Fixtures.lottery in
  three_draws 0 12 = 9 ∧ three_draws 1 12 = 2 ∧ three_draws 2 12 = 12 ∧
  dispatches three_draws back 3 Fixtures.lottery = [3; 1; 4]%nat ∧
  ticks (slot 4 (ptable Fixtures.lottery)) = 0 ∧
  ticks (slot 4 (ptable s')) = 1 ∧ ticks (slot 2 (ptable s')) = 0.
Proof.
  pose (back := λ (_ i : nat) (s : kstate), upd i (set_state RUNNABLE) s).
  assert (∀ n i s0 j, ticks (slot j (ptable (back n i s0))) =
                      ticks (slot j (ptable s0))) as Hticks.
  { intros n i s0 j. unfold back, upd, set_ptable. cbn [ptable].
    by rewrite (slot_alter_proj ticks). }
  assert (∀ n i s0, length (ptable (back n i s0)) = length (ptable s0)) as Hlen.
  { intros n i s0. unfold back, upd, set_ptable. cbn [ptable].
    by rewrite length_alter. }
  destruct (ticks_count_dispatches three_draws back 3 Fixtures.lottery 4
              Hticks Hlen) as (H4 & _); [cbn; lia|by vm_compute..|].
  destruct (ticks_count_dispatches three_draws back 3 Fixtures.lottery 2
              Hticks Hlen) as (H2 & _); [cbn; lia|by vm_compute..|].
  cbn zeta.
  split_and!; [reflexivity|reflexivity|reflexivity|by vm_compute|reflexivity|
               exact H4|exact H2].
Defined.
